(** * Inline comments proof of concept: anchors, synchronizer, normalization

    A shallow embedding of the comment-anchoring core of the repository:
    the space normalization of [PreserveSpacesExtension.ts], the marker scan
    and synchronizer of [tiptap.utils.ts], the NodePath restoration of
    [tiptapNodePath.utils.ts] and the two [loadCommentsFromStorage]
    functions.  JavaScript strings are lists of UTF-16 code units, positions
    are integers, and the ProseMirror document is a tree of nodes. *)

From Stdlib Require Import ZArith Lia Ascii String.
From stdpp Require Import base decidable option list gmap pretty.

Local Open Scope Z_scope.

(** ** JavaScript strings *)

(** A string is its sequence of UTF-16 code units. *)
Abbreviation jsstring := (list N).

Fixpoint str (s : string) : jsstring :=
  match s with
  | EmptyString => []
  | String a r => N_of_ascii a :: str r
  end.

Arguments str : simpl never.

Definition SPACE : N := 32%N.
Definition NBSP : N := 160%N.

Definition nonEmpty (s : jsstring) : bool :=
  match s with [] => false | _ => true end.

(** [s.split(sep)] for a separator that is not empty: [cur] is the piece
    being read, reversed, and [skip] the code units of a separator still to
    pass over. *)
Fixpoint splitLoop (sep s cur : jsstring) (skip : nat) : list jsstring :=
  match s with
  | [] => [reverse cur]
  | c :: r =>
      match skip with
      | S k => splitLoop sep r cur k
      | O =>
          if bool_decide (take (length sep) s = sep)
          then reverse cur :: splitLoop sep r [] (length sep - 1)
          else splitLoop sep r (c :: cur) O
      end
  end.

Definition split (sep s : jsstring) : list jsstring := splitLoop sep s [] O.

(** The longest prefix whose code units satisfy [p], and the rest. *)
Fixpoint span (p : N -> bool) (s : jsstring) : jsstring * jsstring :=
  match s with
  | c :: r =>
      if p c then let '(a, b) := span p r in (c :: a, b) else ([], s)
  | [] => ([], [])
  end.

Fixpoint stripPrefix (prefix s : jsstring) : option jsstring :=
  match prefix, s with
  | [], _ => Some s
  | p :: prefix', c :: r => if decide (p = c) then stripPrefix prefix' r else None
  | _ :: _, [] => None
  end.

Definition inRange (lo hi c : N) : bool :=
  bool_decide (lo <= c)%N && bool_decide (c <= hi)%N.

Definition isDigit (c : N) : bool := inRange 48 57 c.

(** White space and line terminators, which [parseInt] skips. *)
Definition isWhiteSpace (c : N) : bool :=
  inRange 9 13 c || bool_decide (c = 32%N) || bool_decide (c = 160%N)
  || bool_decide (c = 5760%N) || inRange 8192 8202 c
  || bool_decide (c = 8232%N) || bool_decide (c = 8233%N)
  || bool_decide (c = 8239%N) || bool_decide (c = 8287%N)
  || bool_decide (c = 12288%N) || bool_decide (c = 65279%N).

Fixpoint digitsValue (acc : Z) (digits : jsstring) : Z :=
  match digits with
  | [] => acc
  | c :: r => digitsValue (10 * acc + (Z.of_N c - 48)) r
  end.

(** A number of JavaScript as far as this code meets them: an integer, or
    [None] for [NaN]. *)
Definition parseInt10 (s : jsstring) : option Z :=
  let s1 := snd (span isWhiteSpace s) in
  let '(sign, s2) :=
    match s1 with
    | c :: r =>
        if decide (c = 45%N) then (-1, r)
        else if decide (c = 43%N) then (1, r) else (1, s1)
    | [] => (1, s1)
    end in
  let digits := fst (span isDigit s2) in
  match digits with
  | [] => None
  | _ => Some (sign * digitsValue 0 digits)
  end.

Definition numSub (a : option Z) (b : Z) : option Z :=
  match a with Some x => Some (x - b) | None => None end.

(** [a < b] and [a >= b]: every comparison with [NaN] is false. *)
Definition numLt (a : option Z) (b : Z) : bool :=
  match a with Some x => bool_decide (x < b) | None => false end.

Definition numGe (a : option Z) (b : Z) : bool :=
  match a with Some x => bool_decide (b <= x) | None => false end.

(** [s.trim()] *)
Definition trim (s : jsstring) : jsstring :=
  reverse (snd (span isWhiteSpace (reverse (snd (span isWhiteSpace s))))).

(** ** Marker propagation: [replaceConsecutiveSpacesWithNbsp] *)

Module PreserveSpaces.

(** Number of leading plain spaces of [s]. *)
Fixpoint leadingSpaces (s : jsstring) : nat :=
  match s with
  | c :: r => if decide (c = SPACE) then S (leadingSpaces r) else O
  | [] => O
  end.

(** The regular expression [/ {2,}/] tried at the start of [s]: the quantifier
    is greedy, so a match takes every leading space, and there must be two. *)
Definition matchSpaces (s : jsstring) : option nat :=
  let n := leadingSpaces s in
  if decide (2 <= n)%nat then Some n else None.

(** [text.replace(/ {2,}/g, m => NBSP.repeat(m.length))]: scan from the left;
    at a match emit the replacement and resume after the match, otherwise
    copy one code unit.  [fuel] bounds the number of resumptions. *)
Fixpoint replaceLoop (fuel : nat) (s : jsstring) : jsstring :=
  match fuel with
  | O => s
  | S fuel' =>
      match s with
      | [] => []
      | c :: r =>
          match matchSpaces s with
          | Some n => replicate n NBSP ++ replaceLoop fuel' (drop n s)
          | None => c :: replaceLoop fuel' r
          end
      end
  end.

Definition replaceConsecutiveSpacesWithNbsp (text : jsstring) : jsstring :=
  replaceLoop (length text) text.

(** The claim's wording, as a second definition: cut the string into its
    maximal runs of equal code units, rewrite every run of two or more
    spaces into as many no-break spaces, keep every other run. *)
Fixpoint runs (s : jsstring) : list (N * nat) :=
  match s with
  | [] => []
  | c :: r =>
      match runs r with
      | (c', n) :: g =>
          if decide (c = c') then (c, S n) :: g else (c, 1%nat) :: (c', n) :: g
      | [] => [(c, 1%nat)]
      end
  end.

Definition expandRun (r : N * nat) : jsstring := replicate (snd r) (fst r).

Definition rewriteRun (r : N * nat) : jsstring :=
  if decide (fst r = SPACE /\ (2 <= snd r)%nat)
  then replicate (snd r) NBSP
  else expandRun r.

Definition normalizeSpec (s : jsstring) : jsstring :=
  concat (map rewriteRun (runs s)).

(** Adjacent runs carry different code units, and no run is empty. *)
Fixpoint runsMaximal (g : list (N * nat)) : Prop :=
  match g with
  | r1 :: ((r2 :: _) as g') => fst r1 <> fst r2 /\ (1 <= snd r1)%nat /\ runsMaximal g'
  | [r1] => (1 <= snd r1)%nat
  | [] => True
  end.

End PreserveSpaces.

(** ** The document model (ProseMirror, at its boundary)

    The editing framework is an external collaborator.  What the repository
    uses of it is modelled here after its documented behaviour: a document is
    a tree whose leaves are text runs or void nodes, text runs carry marks,
    and a position counts one unit per code unit of text, one per void node
    and one for each opening and closing boundary of the other nodes. *)

Module ProseMirror.

(** A mark: the name of its type and its [commentId] attribute ([None] when
    the attribute is null or missing). *)
Record Mark := mkMark { markType : jsstring; commentIdAttr : option jsstring }.

#[global] Instance Mark_eq_dec : EqDecision Mark.
Proof. solve_decision. Defined.

(** A node's type with the attribute the repository reads ([attrs.level]). *)
Record NodeKind := mkKind {
  typeName : jsstring;
  attrLevel : option N;
  isBlockKind : bool;
  inlineContent : bool;
  leafText : jsstring
}.

#[warnings="-register-all"]
Inductive Node :=
| Text (text : jsstring) (marks : list Mark)
| Leaf (kind : NodeKind)
| Elem (kind : NodeKind) (content : list Node).

Definition isText (n : Node) : bool :=
  match n with Text _ _ => true | _ => false end.

Definition isLeaf (n : Node) : bool :=
  match n with Elem _ _ => false | _ => true end.

Definition isBlock (n : Node) : bool :=
  match n with
  | Text _ _ => false
  | Leaf k | Elem k _ => isBlockKind k
  end.

Definition isTextblock (n : Node) : bool :=
  match n with
  | Text _ _ => false
  | Leaf k | Elem k _ => isBlockKind k && inlineContent k
  end.

Definition nodeMarks (n : Node) : list Mark :=
  match n with Text _ ms => ms | _ => [] end.

(** [fragment.size], given the size of a node. *)
Definition sumSizes (size : Node -> Z) : list Node -> Z :=
  fix sum (cs : list Node) : Z :=
    match cs with
    | [] => 0
    | c :: r => size c + sum r
    end.

Fixpoint nodeSize (n : Node) : Z :=
  match n with
  | Text t _ => Z.of_nat (length t)
  | Leaf _ => 1
  | Elem _ content => 2 + sumSizes nodeSize content
  end.

(** [fragment.size] *)
Definition fragmentSize (cs : list Node) : Z := sumSizes nodeSize cs.

Definition children (n : Node) : list Node :=
  match n with Elem _ content => content | _ => [] end.

(** [node.content.size] *)
Definition contentSize (n : Node) : Z := fragmentSize (children n).

Definition childCount (n : Node) : Z := Z.of_nat (length (children n)).

(** [fragment.nodesBetween(from, to, f, nodeStart)], given
    [node.nodesBetween], for a callback that never returns [false]: the
    nodes handed to the callback, in order, each with its absolute position.
    (Every callback of the repository returns [false] on text nodes only,
    which have no children.)  [pos] is the offset of the next child; where
    the framework would read past the last child, the model stops. *)
Definition fragmentLoop (between : Node -> Z -> Z -> Z -> list (Node * Z))
    (from to nodeStart : Z) : list Node -> Z -> list (Node * Z) :=
  fix loop (cs : list Node) (pos : Z) {struct cs} : list (Node * Z) :=
    match cs with
    | [] => []
    | child :: rest =>
        if decide (pos < to) then
          let e := pos + nodeSize child in
          (if decide (from < e) then
             (child, nodeStart + pos) ::
             (if decide (0 < contentSize child) then
                between child
                  (Z.max 0 (from - (pos + 1)))
                  (Z.min (contentSize child) (to - (pos + 1)))
                  (nodeStart + (pos + 1))
              else [])
           else [])
          ++ loop rest e
        else []
    end.

(** [node.nodesBetween(from, to, f, nodeStart)] *)
Fixpoint nodesBetween (n : Node) (from to nodeStart : Z) {struct n}
  : list (Node * Z) :=
  match n with
  | Elem _ content => fragmentLoop nodesBetween from to nodeStart content 0
  | _ => []
  end.

Definition fragmentBetween (cs : list Node) (from to nodeStart pos : Z)
  : list (Node * Z) :=
  fragmentLoop nodesBetween from to nodeStart cs pos.

(** [node.descendants(f)] *)
Definition descendants (n : Node) : list (Node * Z) :=
  nodesBetween n 0 (contentSize n) 0.

(** [String.prototype.slice] *)
Definition jsSlice (s : jsstring) (a b : Z) : jsstring :=
  let len := Z.of_nat (length s) in
  let clamp x := if decide (x < 0) then Z.max (len + x) 0 else Z.min x len in
  take (Z.to_nat (clamp b - clamp a)) (drop (Z.to_nat (clamp a)) s).

(** The callback of [Fragment.textBetween]; the state is the text so far and
    the [first] flag. *)
Definition textBetweenStep (from to : Z) (blockSeparator : jsstring)
    (st : jsstring * bool) (v : Node * Z) : jsstring * bool :=
  let '(text, first) := st in
  let '(node, pos) := v in
  let nodeText :=
    match node with
    | Text t _ => jsSlice t (Z.max from pos - pos) (to - pos)
    | Elem _ _ => []
    | Leaf k => leafText k
    end in
  if isBlock node
     && ((isLeaf node && nonEmpty nodeText) || isTextblock node)
     && nonEmpty blockSeparator
  then
    if first then (text ++ nodeText, false)
    else ((text ++ blockSeparator) ++ nodeText, false)
  else (text ++ nodeText, first).

(** [doc.textBetween(from, to, blockSeparator)] *)
Definition textBetween (doc : Node) (from to : Z) (blockSeparator : jsstring)
  : jsstring :=
  fst (foldl (textBetweenStep from to blockSeparator) ([], true)
         (nodesBetween doc from to 0)).

End ProseMirror.

(** ** Comments ([comment.types.ts]) *)

Module Comment.

Inductive CommentType := offset | nodePath | contentSpan.

(** A [Date] is kept as the argument it was built from. *)
Inductive Date := NewDateNumber (ms : Z) | NewDateString (s : jsstring).

Record InlineReply := mkReply {
  reply_id : jsstring;
  reply_author : jsstring;
  reply_text : jsstring;
  reply_createdAt : Date
}.

(** The optional fields of [position]; [None] is [undefined]. *)
Record Position := mkPosition {
  textFragment : option jsstring;
  from : option Z;
  to : option Z;
  path : option jsstring;
  startOffset : option Z;
  endOffset : option Z
}.

Record InlineComment := mkComment {
  id : jsstring;
  author : jsstring;
  text : jsstring;
  createdAt : Date;
  resolved : bool;
  type : CommentType;
  position : option Position;
  replies : option (list InlineReply)
}.

(** [{...comment, position: p}] *)
Definition withPosition (comment : InlineComment) (p : Position)
  : InlineComment :=
  mkComment (id comment) (author comment) (text comment) (createdAt comment)
    (resolved comment) (type comment) (Some p) (replies comment).

#[global] Instance Date_eq_dec : EqDecision Date.
Proof. solve_decision. Defined.
#[global] Instance CommentType_eq_dec : EqDecision CommentType.
Proof. solve_decision. Defined.
#[global] Instance InlineReply_eq_dec : EqDecision InlineReply.
Proof. solve_decision. Defined.
#[global] Instance Position_eq_dec : EqDecision Position.
Proof. solve_decision. Defined.
#[global] Instance InlineComment_eq_dec : EqDecision InlineComment.
Proof. solve_decision. Defined.

End Comment.

(** ** The synchronizer ([tiptap.utils.ts]) *)

Module TiptapUtils.
Import ProseMirror Comment.

(** [CommentMark.name] *)
Definition CommentMark_name : jsstring := str "commentMark".

(** The mark the [setCommentMark] command creates. *)
Definition commentMark (commentId : jsstring) : Mark :=
  mkMark CommentMark_name (Some commentId).

(** One mark of a text node at [pos, pos + nodeSize): the body of
    [node.marks.forEach] in the scan.  A [commentId] counts when it is a
    non-empty string. *)
Definition scanMark (markSegmentFrom markSegmentTo : Z)
    (currentMarksInDoc : gmap jsstring (Z * Z)) (mark : Mark)
  : gmap jsstring (Z * Z) :=
  if decide (markType mark = CommentMark_name) then
    match commentIdAttr mark with
    | Some commentId =>
        if nonEmpty commentId then
          match currentMarksInDoc !! commentId with
          | None =>
              <[commentId := (markSegmentFrom, markSegmentTo)]> currentMarksInDoc
          | Some existing =>
              <[commentId := (Z.min (fst existing) markSegmentFrom,
                              Z.max (snd existing) markSegmentTo)]>
                currentMarksInDoc
          end
        else currentMarksInDoc
    | None => currentMarksInDoc
    end
  else currentMarksInDoc.

(** The callback handed to [editorDoc.descendants]. *)
Definition scanNode (currentMarksInDoc : gmap jsstring (Z * Z))
    (v : Node * Z) : gmap jsstring (Z * Z) :=
  let '(node, pos) := v in
  if isText node
  then foldl (scanMark pos (pos + nodeSize node)) currentMarksInDoc (nodeMarks node)
  else currentMarksInDoc.

(** The marker scan: comment id to coalesced range. *)
Definition scanCommentMarks (editorDoc : Node) : gmap jsstring (Z * Z) :=
  foldl scanNode ∅ (descendants editorDoc).

Definition ORPHANED : jsstring := str "[ORPHANED] ".
Definition NoOriginalText : jsstring := str "No original text".

(** [comment.position && typeof comment.position.from !== 'number'] *)
Definition isAlreadyOrphaned (comment : InlineComment) : bool :=
  match position comment with
  | Some p => match from p with Some _ => false | None => true end
  | None => false
  end.

(** The callback of [prevComments.map]: the new comment, and whether it set
    [commentsStateChanged]. *)
Definition syncComment (editorDoc : Node)
    (currentMarksInDoc : gmap jsstring (Z * Z)) (comment : InlineComment)
  : InlineComment * bool :=
  if nonEmpty (id comment) then
    match currentMarksInDoc !! id comment with
    | Some newMarkInfo =>
        let newTextFragment :=
          textBetween editorDoc (fst newMarkInfo) (snd newMarkInfo) (str " ") in
        if isAlreadyOrphaned comment
           || match position comment with
              | None => true
              | Some oldPos =>
                  negb (bool_decide (Some (fst newMarkInfo) = from oldPos))
                  || negb (bool_decide (Some (snd newMarkInfo) = to oldPos))
                  || negb (bool_decide (Some newTextFragment = textFragment oldPos))
              end
        then
          (withPosition comment
             (mkPosition (Some newTextFragment) (Some (fst newMarkInfo))
                (Some (snd newMarkInfo)) None None None),
           true)
        else (comment, false)
    | None =>
        match position comment with
        | Some p =>
            if negb (isAlreadyOrphaned comment)
               && match from p with Some _ => true | None => false end
            then
              (withPosition comment
                 (mkPosition
                    (Some (ORPHANED ++
                           match textFragment p with
                           | Some t => if nonEmpty t then t else NoOriginalText
                           | None => NoOriginalText
                           end))
                    None None None None None),
               true)
            else (comment, false)
        | None => (comment, false)
        end
    end
  else (comment, false).

(** [prevComments.map(...)] threading the [commentsStateChanged] flag. *)
Fixpoint mapComments (f : InlineComment -> InlineComment * bool)
    (comments : list InlineComment) (commentsStateChanged : bool)
  : list InlineComment * bool :=
  match comments with
  | [] => ([], commentsStateChanged)
  | comment :: rest =>
      let '(comment', changed) := f comment in
      let '(rest', flag) :=
        mapComments f rest (commentsStateChanged || changed) in
      (comment' :: rest', flag)
  end.

Definition syncCommentPositionsWithEditorState (editorDoc : Node)
    (prevComments : list InlineComment) : list InlineComment * bool :=
  match prevComments with
  | [] => (prevComments, false)
  | _ =>
      let currentMarksInDoc := scanCommentMarks editorDoc in
      mapComments (syncComment editorDoc currentMarksInDoc) prevComments false
  end.

End TiptapUtils.

(** ** Vocabulary of the synchronizer's properties *)

Module SyncSpec.
Import ProseMirror Comment TiptapUtils.

(** A text leaf carries the marker of [commentId]. *)
Definition carriesMarker (commentId : jsstring) (n : Node) : bool :=
  isText n && bool_decide (commentMark commentId ∈ nodeMarks n).

(** The runs of a marker: the extents of the text leaves that carry it, in
    document order. *)
Definition runsIn (commentId : jsstring) (visits : list (Node * Z))
  : list (Z * Z) :=
  omap (fun v : Node * Z =>
          if carriesMarker commentId (fst v)
          then Some (snd v, snd v + nodeSize (fst v)) else None) visits.

Definition markerRuns (commentId : jsstring) (doc : Node) : list (Z * Z) :=
  runsIn commentId (descendants doc).

(** Coalescing runs to one range. *)
Definition coalesceStep (acc : option (Z * Z)) (r : Z * Z) : option (Z * Z) :=
  match acc with
  | None => Some r
  | Some e => Some (Z.min (fst e) (fst r), Z.max (snd e) (snd r))
  end.

Definition coalesce (rs : list (Z * Z)) : option (Z * Z) :=
  foldl coalesceStep None rs.

(** [lo] is the least of the run starts and [hi] the greatest of the run
    ends. *)
Definition isSpanOf (rs : list (Z * Z)) (lo hi : Z) : Prop :=
  lo ∈ map fst rs /\ hi ∈ map snd rs
  /\ Forall (fun r => lo <= fst r /\ snd r <= hi) rs.

(** Two comments that agree on every field but [position]. *)
Definition sameButPosition (c c' : InlineComment) : Prop :=
  id c' = id c /\ author c' = author c /\ text c' = text c
  /\ createdAt c' = createdAt c /\ resolved c' = resolved c
  /\ type c' = type c /\ replies c' = replies c.

(** Bound: numeric [from] and [to] are stored. *)
Definition isBound (c : InlineComment) : Prop :=
  exists p f t, position c = Some p /\ from p = Some f /\ to p = Some t.

(** Orphaned: a position is stored and its [from] is cleared. *)
Definition isOrphaned (c : InlineComment) : Prop :=
  exists p, position c = Some p /\ from p = None.

(** The position an orphaned comment gets. *)
Definition orphanPosition (fragment : jsstring) : Position :=
  mkPosition (Some (ORPHANED ++ fragment)) None None None None None.

(** The position a comment bound to a marker gets. *)
Definition boundPosition (doc : Node) (range : Z * Z) : Position :=
  mkPosition (Some (textBetween doc (fst range) (snd range) (str " ")))
    (Some (fst range)) (Some (snd range)) None None None.

End SyncSpec.

(** ** Marking and unmarking a range (the framework's transform)

    [addMark] and [removeMark] after the framework's documented behaviour,
    for the schema of the repository: text is what carries marks, and a mark
    type excludes itself ([CommentMark] declares no [excludes]).  Marks that
    exclude other types, parents that forbid marks and the order of a mark
    set by rank are not modelled, nor is the joining of adjacent text nodes
    that end up with equal marks. *)

Module Transform.
Import ProseMirror.

(** [mark.addToSet(set)]: an equal mark leaves the set alone; otherwise the
    marks of the same type give way to the new one. *)
Definition addToSet (mark : Mark) (set : list Mark) : list Mark :=
  if decide (mark ∈ set) then set
  else filter (fun other => markType other <> markType mark) set ++ [mark].

(** [type.removeFromSet(set)] *)
Definition removeFromSet (type : jsstring) (set : list Mark) : list Mark :=
  filter (fun other => markType other <> type) set.

(** A text node at [pos] whose marks change to [marks'] on its part inside
    [from, to): the node is cut at the ends of the range. *)
Definition remarkText (from to pos : Z) (t : jsstring)
    (marks marks' : list Mark) : list Node :=
  let len := Z.of_nat (length t) in
  let a := Z.max from pos - pos in
  let b := Z.min to (pos + len) - pos in
  if decide (a < b) then
    (if decide (0 < a) then [Text (take (Z.to_nat a) t) marks] else [])
    ++ [Text (take (Z.to_nat (b - a)) (drop (Z.to_nat a) t)) marks']
    ++ (if decide (b < len) then [Text (drop (Z.to_nat b) t) marks] else [])
  else [Text t marks].

(** A step over a fragment whose first node is at [p], given the step over
    a node: a node may give way to several. *)
Definition stepLoop (step : Z -> Node -> list Node)
  : list Node -> Z -> list Node :=
  fix loop (cs : list Node) (p : Z) {struct cs} : list Node :=
    match cs with
    | [] => []
    | c :: r => step p c ++ loop r (p + nodeSize c)
    end.

(** A step over the tree: every text node in the range is handed to
    [change], which gives the new marks of the part in the range, or [None]
    to leave the node alone. *)
Fixpoint stepNode (change : list Mark -> option (list Mark)) (from to pos : Z)
    (n : Node) {struct n} : list Node :=
  match n with
  | Text t marks =>
      match change marks with
      | Some marks' => remarkText from to pos t marks marks'
      | None => [n]
      end
  | Leaf _ => [n]
  | Elem k content =>
      [Elem k (stepLoop (stepNode change from to) content (pos + 1))]
  end.

Definition stepFragment (change : list Mark -> option (list Mark))
    (from to : Z) (cs : list Node) (p : Z) : list Node :=
  stepLoop (stepNode change from to) cs p.

(** The step applied to a document: positions count from the start of its
    content. *)
Definition stepDoc (change : list Mark -> option (list Mark)) (from to : Z)
    (doc : Node) : Node :=
  match doc with
  | Elem k content => Elem k (stepFragment change from to content 0)
  | _ => doc
  end.

(** What [addMark] does to a mark set: nothing where the mark is in it. *)
Definition addChange (mark : Mark) (marks : list Mark) : option (list Mark) :=
  if decide (mark ∈ marks) then None else Some (addToSet mark marks).

(** What [removeMark] does to a mark set: nothing where no mark of the type
    is in it. *)
Definition removeChange (type : jsstring) (marks : list Mark)
  : option (list Mark) :=
  if decide (removeFromSet type marks = marks) then None
  else Some (removeFromSet type marks).

(** [tr.addMark(from, to, mark)] *)
Definition addMark (from to : Z) (mark : Mark) (doc : Node) : Node :=
  stepDoc (addChange mark) from to doc.

(** [tr.removeMark(from, to, markType)] *)
Definition removeMark (from to : Z) (type : jsstring) (doc : Node) : Node :=
  stepDoc (removeChange type) from to doc.

End Transform.

(** ** Vocabulary of the document's properties *)

Module DocSpec.
Import ProseMirror Transform TiptapUtils SyncSpec.

(** The framework never builds an empty text node. *)
Fixpoint wellFormed (n : Node) : bool :=
  match n with
  | Text t _ => nonEmpty t
  | Leaf _ => true
  | Elem _ content => forallb wellFormed content
  end.

Definition wellFormedFragment (cs : list Node) : bool := forallb wellFormed cs.

(** Every node of a fragment whose first node is at [p], with its position,
    in document order, given the descendants of a node. *)
Definition allLoop (below : Node -> Z -> list (Node * Z))
  : list Node -> Z -> list (Node * Z) :=
  fix loop (cs : list Node) (p : Z) {struct cs} : list (Node * Z) :=
    match cs with
    | [] => []
    | c :: r => (c, p) :: below c (p + 1) ++ loop r (p + nodeSize c)
    end.

(** Every descendant with its position; [start] is the position of the
    node's content. *)
Fixpoint allNodes (n : Node) (start : Z) {struct n} : list (Node * Z) :=
  match n with
  | Elem _ content => allLoop allNodes content start
  | _ => []
  end.

Definition allNodesFragment (cs : list Node) (p : Z) : list (Node * Z) :=
  allLoop allNodes cs p.

(** The node at [v] meets the range [from, to). *)
Definition overlaps (from to : Z) (v : Node * Z) : Prop :=
  snd v < to /\ from < snd v + nodeSize (fst v).

#[global] Instance overlaps_dec from to v : Decision (overlaps from to v).
Proof. unfold overlaps. apply _. Defined.

(** The code units of [t] from offset [lo] up to offset [hi]. *)
Definition window (lo hi : Z) (t : jsstring) : jsstring :=
  take (Z.to_nat (hi - Z.max 0 lo)) (drop (Z.to_nat lo) t).

(** A cell: one code unit of text with its position and its marks. *)
Fixpoint textCells (pos : Z) (t : jsstring) (marks : list Mark)
  : list (Z * list Mark) :=
  match t with
  | [] => []
  | _ :: r => (pos, marks) :: textCells (pos + 1) r marks
  end.

Definition cellsOfNode (v : Node * Z) : list (Z * list Mark) :=
  match fst v with
  | Text t marks => textCells (snd v) t marks
  | _ => []
  end.

Definition cellsOf (visits : list (Node * Z)) : list (Z * list Mark) :=
  visits ≫= cellsOfNode.

(** The cells of a document. *)
Definition cells (doc : Node) : list (Z * list Mark) :=
  cellsOf (allNodes doc 0).

(** The positions a marker covers. *)
Definition markedIn (commentId : jsstring) (cs : list (Z * list Mark))
  : list Z :=
  omap (fun c : Z * list Mark =>
          if bool_decide (commentMark commentId ∈ snd c) then Some (fst c)
          else None) cs.

Definition markedPositions (commentId : jsstring) (doc : Node) : list Z :=
  markedIn commentId (cells doc).


(** The comment marks of a mark set. *)
Definition commentMarks (marks : list Mark) : list Mark :=
  filter (fun m => markType m = CommentMark_name) marks.

(** [CommentMark] declares no [excludes], so the mark type excludes itself:
    no text carries two comment marks. *)
Definition exclusiveMarks (doc : Node) : bool :=
  forallb (fun c : Z * list Mark =>
             bool_decide (length (commentMarks (snd c)) <= 1)%nat)
    (cells doc).

(** What a step does to the marks of a cell at [x]. *)
Definition stepMarks (change : list Mark -> option (list Mark)) (from to : Z)
    (c : Z * list Mark) : Z * list Mark :=
  if decide (from <= fst c < to)
  then (fst c, default (snd c) (change (snd c)))
  else c.


(** A position as the range of one cell. *)
Definition cellRange (x : Z) : Z * Z := (x, x + 1).

(** Some range of [steps] holds [x]. *)
Definition covered (steps : list (Z * Z)) (x : Z) : Prop :=
  Exists (fun r : Z * Z => fst r <= x < snd r) steps.

#[global] Instance covered_dec steps x : Decision (covered steps x).
Proof. unfold covered. apply _. Defined.


(** The callback of [textBetween], made to pass over the nodes that do not
    meet the range. *)
Definition tbAll (f t : Z) (sep : jsstring) (st : jsstring * bool)
    (v : Node * Z) : jsstring * bool :=
  if decide (overlaps f t v) then textBetweenStep f t sep st v else st.

End DocSpec.

(** ** Loading persisted comments

    The repository holds two [loadCommentsFromStorage] functions.  The input
    is what [localStorage.getItem] and [JSON.parse] deliver in the browser;
    the parser itself is not modelled. *)

Module Storage.

(** A parsed JSON value.  An object is its list of properties, with distinct
    keys.  Numbers are kept as integers: the loaders only test their type. *)
#[warnings="-register-all"]
Inductive Json :=
| JNull
| JBool (b : bool)
| JNumber (n : Z)
| JString (s : jsstring)
| JArray (items : list Json)
| JObject (properties : list (jsstring * Json)).

(** What [localStorage.getItem(key)] and [JSON.parse] give. *)
Inductive Stored :=
| Absent                 (* null or the empty string *)
| Unparsable             (* JSON.parse throws *)
| Parsed (value : Json).

Inductive JsType := TObject | TBoolean | TNumber | TString | TUndefined.

#[global] Instance JsType_eq_dec : EqDecision JsType.
Proof. solve_decision. Defined.

Fixpoint lookupProperty (key : jsstring) (properties : list (jsstring * Json))
  : option Json :=
  match properties with
  | [] => None
  | (k, v) :: rest => if decide (k = key) then Some v else lookupProperty key rest
  end.

(** [value.key] on a value that is not null; [None] is [undefined].  None of
    the keys the loaders read is a property of an array, a string, a number
    or a boolean. *)
Definition getProp (value : Json) (key : jsstring) : option Json :=
  match value with
  | JObject properties => lookupProperty key properties
  | _ => None
  end.

(** [key in value], for a value of type object that is not null. *)
Definition hasProp (key : jsstring) (value : Json) : bool :=
  match getProp value key with Some _ => true | None => false end.

(** [typeof] *)
Definition typeOf (value : option Json) : JsType :=
  match value with
  | None => TUndefined
  | Some JNull | Some (JArray _) | Some (JObject _) => TObject
  | Some (JBool _) => TBoolean
  | Some (JNumber _) => TNumber
  | Some (JString _) => TString
  end.

Definition isType (t : JsType) (value : option Json) : bool :=
  bool_decide (typeOf value = t).

(** [value === null] *)
Definition isNull (value : Json) : bool :=
  match value with JNull => true | _ => false end.

Definition truthy (value : option Json) : bool :=
  match value with
  | None | Some JNull => false
  | Some (JBool b) => b
  | Some (JNumber n) => negb (bool_decide (n = 0))
  | Some (JString s) => match s with [] => false | _ => true end
  | Some (JArray _) | Some (JObject _) => true
  end.

(** The objects the loaders return.  The cast [as InlineComment] checks
    nothing, so every field holds whatever the record held. *)
Record LoadedPosition := mkLoadedPosition {
  loaded_from : option Json;
  loaded_to : option Json;
  loaded_textFragment : option Json;
  loaded_path : option Json;
  loaded_startOffset : option Json;
  loaded_endOffset : option Json
}.

Record LoadedComment := mkLoaded {
  loaded_id : option Json;
  loaded_author : option Json;
  loaded_text : option Json;
  loaded_createdAt : option Json;      (* the argument of [new Date(...)] *)
  loaded_position : option LoadedPosition
}.

(** The object literal both loaders build from a record that is not null. *)
Definition buildComment (typedCommentData : Json) : LoadedComment :=
  mkLoaded
    (getProp typedCommentData (str "id"))
    (getProp typedCommentData (str "author"))
    (getProp typedCommentData (str "text"))
    (getProp typedCommentData (str "createdAt"))
    (if truthy (getProp typedCommentData (str "position")) then
       match getProp typedCommentData (str "position") with
       | Some position =>
           Some (mkLoadedPosition
                   (getProp position (str "from"))
                   (getProp position (str "to"))
                   (getProp position (str "textFragment"))
                   (getProp position (str "path"))
                   (getProp position (str "startOffset"))
                   (getProp position (str "endOffset")))
       | None => None
       end
     else None).

(** [!(key in position) || typeof position.key === t] *)
Definition optionalField (position : Json) (key : jsstring) (t : JsType)
  : bool :=
  negb (hasProp key position) || isType t (getProp position key).

(** The condition of the validating loader. *)
Definition validCommentData (commentData : Json) : bool :=
  isType TObject (Some commentData)
  && negb (isNull commentData)
  && hasProp (str "id") commentData
  && isType TString (getProp commentData (str "id"))
  && hasProp (str "author") commentData
  && isType TString (getProp commentData (str "author"))
  && hasProp (str "text") commentData
  && isType TString (getProp commentData (str "text"))
  && hasProp (str "createdAt") commentData
  && (isType TString (getProp commentData (str "createdAt"))
      || isType TNumber (getProp commentData (str "createdAt")))
  && (negb (hasProp (str "position") commentData)
      || match getProp commentData (str "position") with
         | Some position =>
             isType TObject (Some position)
             && negb (isNull position)
             && optionalField position (str "from") TNumber
             && optionalField position (str "to") TNumber
             && optionalField position (str "textFragment") TString
             && optionalField position (str "path") TString
             && optionalField position (str "startOffset") TNumber
             && optionalField position (str "endOffset") TNumber
         | None => false
         end).

(** The callback of [parsedComments.map] then [filter], in the loader that
    validates: [None] is the [null] the filter removes. *)
Definition loadValidated (commentData : Json) : option LoadedComment :=
  if validCommentData commentData then Some (buildComment commentData) else None.

(** The loader with the validation ([loadCommentsFromStorage], first file). *)
Definition loadCommentsFromStorage (stored : Stored) : list LoadedComment :=
  match stored with
  | Absent => []
  | Unparsable => []
  | Parsed (JArray parsedComments) => omap loadValidated parsedComments
  | Parsed _ => []
  end.

(** The callback of the second loader, which only asks [typeof commentData
    === 'object']: [inl] is a thrown [TypeError] (a property of [null] is
    read), [inr None] the [null] the filter removes. *)
Definition loadUnchecked (commentData : Json)
  : unit + option LoadedComment :=
  if isType TObject (Some commentData) then
    match commentData with
    | JNull => inl tt
    | _ => inr (Some (buildComment commentData))
    end
  else inr None.

(** [parsedComments.map(...)]: the first exception leaves the whole map. *)
Fixpoint mapUnchecked (parsedComments : list Json)
  : unit + list (option LoadedComment) :=
  match parsedComments with
  | [] => inr []
  | commentData :: rest =>
      match loadUnchecked commentData with
      | inl e => inl e
      | inr c =>
          match mapUnchecked rest with
          | inl e => inl e
          | inr cs => inr (c :: cs)
          end
      end
  end.

(** The loader without the validation ([loadCommentsFromStorage], second
    file); the [catch] turns an exception into the empty list. *)
Definition loadCommentsFromStorage_unchecked (stored : Stored)
  : list LoadedComment :=
  match stored with
  | Absent => []
  | Unparsable => []
  | Parsed (JArray parsedComments) =>
      match mapUnchecked parsedComments with
      | inl _ => []
      | inr comments => omap (fun c => c) comments
      end
  | Parsed _ => []
  end.

(** Structural validity in the words of the specification: the record is an
    object with string [id], [author] and [text], a [createdAt] that is a
    string or a number and, if it has a [position], an object (or array)
    whose sub-fields, where present, have the right type. *)
Definition hasTyped (value : Json) (key : jsstring) (t : JsType) : Prop :=
  exists v, getProp value key = Some v /\ typeOf (Some v) = t.

Definition absentOrTyped (value : Json) (key : jsstring) (t : JsType) : Prop :=
  getProp value key = None \/ hasTyped value key t.

Definition StructurallyValid (record : Json) : Prop :=
  hasTyped record (str "id") TString
  /\ hasTyped record (str "author") TString
  /\ hasTyped record (str "text") TString
  /\ (hasTyped record (str "createdAt") TString
      \/ hasTyped record (str "createdAt") TNumber)
  /\ (getProp record (str "position") = None
      \/ exists position,
           getProp record (str "position") = Some position
           /\ typeOf (Some position) = TObject /\ position <> JNull
           /\ absentOrTyped position (str "from") TNumber
           /\ absentOrTyped position (str "to") TNumber
           /\ absentOrTyped position (str "textFragment") TString
           /\ absentOrTyped position (str "path") TString
           /\ absentOrTyped position (str "startOffset") TNumber
           /\ absentOrTyped position (str "endOffset") TNumber).

End Storage.

(** ** NodePath restoration ([tiptapNodePath.utils.ts]) *)

Module TiptapNodePath.
Import ProseMirror Comment Transform.

(** [node.type.name] and [node.attrs.level] *)
Definition nodeTypeName (n : Node) : jsstring :=
  match n with
  | Text _ _ => str "text"
  | Leaf k | Elem k _ => typeName k
  end.

Definition nodeLevel (n : Node) : option N :=
  match n with
  | Text _ _ => None
  | Leaf k | Elem k _ => attrLevel k
  end.

Definition prosemirrorTypeToTagName (typeName : jsstring) (level : option N)
  : jsstring :=
  if decide (typeName = str "paragraph") then str "p"
  else if decide (typeName = str "heading") then
    str "h" ++ str (pretty (match level with
                            | Some l => if decide (l = 0%N) then 1%N else l
                            | None => 1%N
                            end))
  else if decide (typeName = str "listItem") then str "li"
  else if decide (typeName = str "bulletList") then str "ul"
  else if decide (typeName = str "orderedList") then str "ol"
  else if decide (typeName = str "blockquote") then str "blockquote"
  else typeName.

(** *** The pattern of a path segment *)

Definition BACKSLASH : N := 92%N.

(** [[a-zA-Z0-9_-]] *)
Definition isTagChar (c : N) : bool :=
  inRange 97 122 c || inRange 65 90 c || inRange 48 57 c
  || bool_decide (c = 95%N) || bool_decide (c = 45%N).

(** The regular expression of the source, as it is written there, with
    every backslash doubled:
    [/^([a-zA-Z0-9_-]+):nth-child\\((\\d+)\\)$/].  In a regular expression
    literal [\\] is one literal backslash and the parentheses that follow
    are groups; so the pattern reads: a tag name (group 1), [:nth-child], a
    backslash, then group 2 made of a backslash, one or more letters [d]
    (group 3 is the backslash and the letters) and a backslash, then the end
    of the string.  The result is groups 1 and 2. *)
Definition matchSegment (segment : jsstring) : option (jsstring * jsstring) :=
  let '(tagName, r1) := span isTagChar segment in
  if nonEmpty tagName then
    match stripPrefix (str ":nth-child" ++ [BACKSLASH; BACKSLASH]) r1 with
    | Some r2 =>
        let '(ds, r3) := span (fun c => bool_decide (c = 100%N)) r2 in
        if nonEmpty ds && bool_decide (r3 = [BACKSLASH])
        then Some (tagName, BACKSLASH :: ds ++ [BACKSLASH])
        else None
    | None => None
    end
  else None.

(** The pattern the specification describes, [tagName:nth-child(N)], that is
    [/^([a-zA-Z0-9_-]+):nth-child\((\d+)\)$/]; kept for comparison. *)
Definition matchSegment_spec (segment : jsstring)
  : option (jsstring * jsstring) :=
  let '(tagName, r1) := span isTagChar segment in
  if nonEmpty tagName then
    match stripPrefix (str ":nth-child(") r1 with
    | Some r2 =>
        let '(ds, r3) := span isDigit r2 in
        if nonEmpty ds && bool_decide (r3 = str ")")
        then Some (tagName, ds)
        else None
    | None => None
    end
  else None.

(** *** The descent *)

Inductive Warning :=
| MissingPositionOrPath
| InvalidSegment (segment : jsstring)
| IndexOutOfRange (segment : jsstring)
| TagMismatch (segment expectedTagName : jsstring)
| InvalidRange (absoluteFrom absoluteTo : Z)
| RestoreError.

(** [node.child(index)] throws a [RangeError] ([None]) unless the index
    names a child; [NaN] names none. *)
Definition child (n : Node) (index : option Z) : option Node :=
  match index with
  | Some i => if decide (0 <= i) then children n !! Z.to_nat i else None
  | None => None
  end.

(** The sizes the inner loop adds up: those of the children before
    [childIndex]; with [NaN] the loop does not run. *)
Definition sizeBefore (n : Node) (childIndex : option Z) : Z :=
  match childIndex with
  | Some i => fragmentSize (take (Z.to_nat i) (children n))
  | None => 0
  end.

Section Descent.

(** The pattern that reads a segment. *)
Variable matcher : jsstring -> option (jsstring * jsstring).

(** The loop over the segments: the warnings written, and the node reached
    with its start position, or [None] where the function returns [false].
    [atRoot] stands for [currentNode === doc]. *)
Fixpoint descend (segments : list jsstring) (currentNode : Node)
    (atRoot : bool) (currentPosition : Z) : list Warning * option (Node * Z) :=
  match segments with
  | [] => ([], Some (currentNode, currentPosition))
  | segment :: rest =>
      match matcher segment with
      | None => ([InvalidSegment segment], None)
      | Some (tagName, childIndexStr) =>
          let childIndex := numSub (parseInt10 childIndexStr) 1 in
          if numLt childIndex 0 || numGe childIndex (childCount currentNode)
          then ([IndexOutOfRange segment], None)
          else
            let childNodeStartPosInDoc :=
              currentPosition + (if atRoot then 0 else 1)
              + sizeBefore currentNode childIndex in
            match child currentNode childIndex with
            | None => ([RestoreError], None)
            | Some next =>
                let expectedTagName :=
                  prosemirrorTypeToTagName (nodeTypeName next) (nodeLevel next) in
                let warned :=
                  if decide (expectedTagName = tagName) then []
                  else [TagMismatch segment expectedTagName] in
                let '(ws, r) := descend rest next false childNodeStartPosInDoc in
                (warned ++ ws, r)
            end
      end
  end.

(** What a call leaves behind: the document, the result, the warnings. *)
Record Restored := mkRestored {
  editorDoc : Node;
  restored : bool;
  warnings : list Warning
}.

(** [editor.chain().setTextSelection({from, to}).setMark(markName,
    {commentId}).run()] *)
Definition setMarkOver (doc : Node) (from to : Z) (markName commentId : jsstring)
  : Node :=
  addMark from to (mkMark markName (Some commentId)) doc.

(** [restoreMarkFromNodePath]; the comparison of the text fragment, which
    only writes to the console, is left out. *)
Definition restoreMarkFromNodePathWith (doc : Node) (comment : InlineComment)
    (markName : jsstring) : Restored :=
  match position comment with
  | None => mkRestored doc false [MissingPositionOrPath]
  | Some p =>
      match path p with
      | None => mkRestored doc false [MissingPositionOrPath]
      | Some [] =>
          if bool_decide (0 < contentSize doc) && bool_decide (contentSize doc > 0)
          then mkRestored
                 (setMarkOver doc 0 (contentSize doc) markName (id comment))
                 true []
          else mkRestored doc false []
      | Some pathString =>
          match descend (split (str " > ") pathString) doc true 0 with
          | (ws, None) => mkRestored doc false ws
          | (ws, Some (currentNode, currentPosition)) =>
              let absoluteFrom := currentPosition in
              let absoluteTo := currentPosition + nodeSize currentNode in
              if bool_decide (absoluteFrom < 0)
                 || bool_decide (absoluteFrom > contentSize doc)
                 || bool_decide (absoluteTo > contentSize doc)
                 || bool_decide (absoluteFrom >= absoluteTo)
              then mkRestored doc false (ws ++ [InvalidRange absoluteFrom absoluteTo])
              else mkRestored
                     (setMarkOver doc absoluteFrom absoluteTo markName (id comment))
                     true ws
          end
      end
  end.

(** [restoreCommentMarksInEditorUsingNodePath]: the comments in turn, on the
    one editor; the count of restored marks and the warnings so far. *)
Fixpoint restoreAllWith (doc : Node) (commentsToRestore : list InlineComment)
    (markName : jsstring) : Node * Z * list Warning :=
  match commentsToRestore with
  | [] => (doc, 0, [])
  | comment :: rest =>
      let r := restoreMarkFromNodePathWith doc comment markName in
      let '(doc', restoredCount, ws) :=
        restoreAllWith (editorDoc r) rest markName in
      (doc', (if restored r then 1 else 0) + restoredCount, warnings r ++ ws)
  end.

End Descent.

Definition restoreMarkFromNodePath := restoreMarkFromNodePathWith matchSegment.

Definition restoreCommentMarksInEditorUsingNodePath :=
  restoreAllWith matchSegment.

End TiptapNodePath.

(** ** Adding and deleting a comment ([InlineCommentsWithOffset.tsx]) *)

Module OffsetComments.
Import ProseMirror Comment Transform TiptapUtils SyncSpec.

(** [applyCommentMarkToSelection]: the selection is set to [from, to) and
    [setCommentMark] marks it. *)
Definition applyCommentMarkToSelection (doc : Node) (from to : Z)
    (commentId : jsstring) : Node :=
  addMark from to (commentMark commentId) doc.

(** The id [`comment-${Date.now()}-${Math.random().toString(36).substring(2, 7)}`];
    the clock and the random digits are inputs. *)
Definition newCommentId (now : N) (random : jsstring) : jsstring :=
  str "comment-" ++ str (pretty now) ++ str "-" ++ random.

(** The comment [handleAddComment] builds for the selection [from, to). *)
Definition newComment (doc : Node) (from to : Z) (commentId : jsstring)
    (created : Z) : InlineComment :=
  let selectedText := textBetween doc from to (str " ") in
  mkComment commentId (str "user-current")
    (str "Comment to: '" ++ trim (take 30 selectedText)
     ++ (if decide (30 < length selectedText)%nat then str "..." else [])
     ++ str "'")
    (NewDateNumber created) false offset
    (Some (mkPosition (Some selectedText) (Some from) (Some to) None None None))
    None.

(** [handleAddComment] on the editor's document and the comment list, for
    the selection [from, to); an empty selection changes nothing. *)
Definition handleAddComment (doc : Node) (comments : list InlineComment)
    (from to : Z) (now : N) (random : jsstring) (created : Z)
  : Node * list InlineComment :=
  if decide (from = to) then (doc, comments)
  else
    let commentId := newCommentId now random in
    (applyCommentMarkToSelection doc from to commentId,
     comments ++ [newComment doc from to commentId created]).

(** [removeCommentMarkFromDocument]: the ranges handed to [tr.removeMark],
    one for each text node on which [find] meets the comment's mark; the
    transaction is dispatched when there is one at least.  The result is
    the new document and [markRemoved]. *)
Definition removeCommentMarkFromDocument (doc : Node)
    (commentIdToRemove : jsstring) : Node * bool :=
  let steps := markerRuns commentIdToRemove doc in
  match steps with
  | [] => (doc, false)
  | _ =>
      (foldl (fun d (r : Z * Z) => removeMark (fst r) (snd r) CommentMark_name d)
         doc steps,
       true)
  end.

(** [handleDeleteComment] *)
Definition handleDeleteComment (doc : Node) (comments : list InlineComment)
    (commentIdToDelete : jsstring) : Node * list InlineComment :=
  (fst (removeCommentMarkFromDocument doc commentIdToDelete),
   filter (fun comment => id comment <> commentIdToDelete) comments).

End OffsetComments.

(** ** The rest of the offset editor ([tiptap.utils.ts],
    [InlineCommentsWithOffset.tsx]) *)

Module OffsetEditor.
Import ProseMirror Comment Transform TiptapUtils SyncSpec.

(** [node.marks.some(mark => mark.type === commentMarkType)] *)
Definition hasCommentMark (n : Node) : bool :=
  existsb (fun mark => bool_decide (markType mark = CommentMark_name))
    (nodeMarks n).

(** The ranges [removeAllCommentMarksFromDocument] hands to [tr.removeMark]:
    one for each node with a comment mark. *)
Definition commentMarkRuns (doc : Node) : list (Z * Z) :=
  omap (fun v : Node * Z =>
          if hasCommentMark (fst v)
          then Some (snd v, snd v + nodeSize (fst v)) else None)
    (descendants doc).

(** [removeAllCommentMarksFromDocument]: the new document and
    [marksWerePresent]; the transaction is dispatched when a mark was met. *)
Definition removeAllCommentMarksFromDocument (doc : Node) : Node * bool :=
  let steps := commentMarkRuns doc in
  match steps with
  | [] => (doc, false)
  | _ =>
      (foldl (fun d (r : Z * Z) => removeMark (fst r) (snd r) CommentMark_name d)
         doc steps,
       true)
  end.

(** [handleDeleteAllComments] *)
Definition handleDeleteAllComments (doc : Node) (comments : list InlineComment)
  : Node * list InlineComment :=
  (fst (removeAllCommentMarksFromDocument doc), []).






(** The state update of [onUpdate]: [setComments(prevComments => ...)]. *)
Definition onUpdate (doc : Node) (docChanged : bool)
    (prevComments : list InlineComment) : list InlineComment :=
  if docChanged then
    let '(updatedComments, commentsStateChanged) :=
      syncCommentPositionsWithEditorState doc prevComments in
    if commentsStateChanged then updatedComments else prevComments
  else prevComments.

End OffsetEditor.

(** ** Vocabulary of the offset editor's properties *)

Module EditorSpec.
Import ProseMirror Comment Transform TiptapUtils SyncSpec DocSpec OffsetEditor.

(** No text of the document carries a comment mark: the content as
    [saveCleanEditorContentToStorage] stores it. *)
Definition clean (doc : Node) : bool :=
  forallb (fun c : Z * list Mark =>
             bool_decide (commentMarks (snd c) = [])) (cells doc).


(** The range check of [restoreCommentMarksInEditor]. *)
Definition inDocument (docSize : Z) (r : Z * Z) : bool :=
  bool_decide (0 <= fst r) && bool_decide (snd r <= docSize)
  && bool_decide (fst r < snd r).






End EditorSpec.

(** ** The paste handler of [PreserveSpacesExtension.ts] *)

Module PreserveSpacesPaste.
Import ProseMirror PreserveSpaces.

(** [Fragment.fromArray(array)]: adjacent text nodes with the same marks are
    joined into one. *)
Fixpoint fromArray (array : list Node) : list Node :=
  match array with
  | [] => []
  | node :: rest =>
      match node, fromArray rest with
      | Text t marks, Text t' marks' :: joined =>
          if decide (marks = marks') then Text (t ++ t') marks :: joined
          else node :: Text t' marks' :: joined
      | _, joined => node :: joined
      end
  end.

(** [node.content.forEach(childNode => ...)] in [processNode], given
    [processNode]: the processed children and [childrenModified]. *)
Definition processLoop (process : Node -> Node * bool)
  : list Node -> list Node * bool :=
  fix loop (cs : list Node) : list Node * bool :=
    match cs with
    | [] => ([], false)
    | childNode :: rest =>
        let '(processedChild, changed) := process childNode in
        let '(newChildNodes, childrenModified) := loop rest in
        (processedChild :: newChildNodes, changed || childrenModified)
    end.

(** [processNode]: the node returned, and whether it is a new node
    ([processedChild !== childNode]).  A new node is returned exactly on the
    paths that set [modifiedSliceContent]. *)
Fixpoint processNode (node : Node) : Node * bool :=
  match node with
  | Text textContent marks =>
      let newTextContent := replaceConsecutiveSpacesWithNbsp textContent in
      if decide (newTextContent = textContent) then (node, false)
      else (Text newTextContent marks, true)
  | Leaf _ => (node, false)
  | Elem kind content =>
      if decide (0 < fragmentSize content) then
        let '(newChildNodes, childrenModified) :=
          processLoop processNode content in
        if childrenModified then (Elem kind (fromArray newChildNodes), true)
        else (node, false)
      else (node, false)
  end.

(** [handlePaste] on the content of the pasted slice: [Some] is the content
    of the slice the handler inserts itself (it returns [true]), [None] the
    default handling of the paste (it returns [false]). *)
Definition handlePaste (sliceContent : list Node) : option (list Node) :=
  let '(newNodesArray, modifiedSliceContent) :=
    processLoop processNode sliceContent in
  if modifiedSliceContent then Some (fromArray newNodesArray) else None.

End PreserveSpacesPaste.

(** ** Vocabulary of the paste handler's properties *)

Module PasteSpec.
Import ProseMirror PreserveSpaces.

(** Two plain spaces side by side. *)
Fixpoint hasDoubleSpace (s : jsstring) : bool :=
  match s with
  | a :: r =>
      match r with
      | b :: _ =>
          (bool_decide (a = SPACE) && bool_decide (b = SPACE)) || hasDoubleSpace r
      | [] => false
      end
  | [] => false
  end.

(** No two plain spaces side by side. *)
Definition singleSpaced (s : jsstring) : bool := negb (hasDoubleSpace s).

(** A function applied to every text of a fragment, given the same for a
    node. *)
Definition mapLoop (f : Node -> Node) : list Node -> list Node :=
  fix loop (cs : list Node) : list Node :=
    match cs with
    | [] => []
    | c :: r => f c :: loop r
    end.

(** A function applied to the text of every text node. *)
Fixpoint mapTexts (g : jsstring -> jsstring) (n : Node) : Node :=
  match n with
  | Text t marks => Text (g t) marks
  | Leaf _ => n
  | Elem k content => Elem k (mapLoop (mapTexts g) content)
  end.

(** A property of every text of a fragment, given the same for a node. *)
Definition allLoopb (p : Node -> bool) : list Node -> bool :=
  fix loop (cs : list Node) : bool :=
    match cs with
    | [] => true
    | c :: r => p c && loop r
    end.

(** Every text of the node satisfies [p]. *)
Fixpoint allTexts (p : jsstring -> bool) (n : Node) : bool :=
  match n with
  | Text t _ => p t
  | Leaf _ => true
  | Elem _ content => allLoopb (allTexts p) content
  end.

(** No two neighbours of the fragment are text nodes with the same marks. *)
Fixpoint noEqualNeighbours (cs : list Node) : bool :=
  match cs with
  | Text _ marks :: ((Text _ marks' :: _) as r) =>
      negb (bool_decide (marks = marks')) && noEqualNeighbours r
  | _ :: r => noEqualNeighbours r
  | [] => true
  end.

(** The fragments of the node are as the framework keeps them: adjacent
    text nodes differ in their marks. *)
Fixpoint normalized (n : Node) : bool :=
  match n with
  | Elem _ content =>
      noEqualNeighbours content && allLoopb normalized content
  | _ => true
  end.

End PasteSpec.

(** ** The typing plugin of [PreserveSpacesExtension.ts] *)

Module PreserveSpacesTyping.
Import ProseMirror PreserveSpaces.

(** [Fragment.cut(from, to)], given [child.cut]: the loop over the children.
    A child that reaches outside the range is cut itself, a text by code
    units and another node by the positions of its content. *)
Definition cutLoop (cutNode : Node -> Z -> Z -> Node) (from to : Z)
  : list Node -> Z -> list Node :=
  fix loop (cs : list Node) (pos : Z) {struct cs} : list Node :=
    match cs with
    | [] => []
    | child :: rest =>
        if decide (pos < to) then
          let e := pos + nodeSize child in
          (if decide (e > from) then
             [if decide (pos < from \/ e > to) then
                match child with
                | Text t _ =>
                    cutNode child (Z.max 0 (from - pos))
                      (Z.min (Z.of_nat (length t)) (to - pos))
                | _ =>
                    cutNode child (Z.max 0 (from - pos - 1))
                      (Z.min (contentSize child) (to - pos - 1))
                end
              else child]
           else [])
          ++ loop rest e
        else []
    end.

(** [node.cut(from, to)]: [TextNode.cut] for a text, [Node.cut] otherwise. *)
Fixpoint cutNode (n : Node) (from to : Z) {struct n} : Node :=
  match n with
  | Text t marks =>
      if decide (from = 0 /\ to = Z.of_nat (length t)) then n
      else Text (jsSlice t from to) marks
  | Leaf _ => n
  | Elem k content =>
      if decide (from = 0 /\ to = fragmentSize content) then n
      else Elem k (if decide (to > from) then cutLoop cutNode from to content 0
                   else [])
  end.

(** [fragment.cut(from, to)] *)
Definition cut (content : list Node) (from to : Z) : list Node :=
  if decide (from = 0 /\ to = fragmentSize content) then content
  else if decide (to > from) then cutLoop cutNode from to content 0
  else [].

(** [fragment.append(other)]: a text at the end of the one and a text with
    the same marks at the start of the other become one node. *)
Definition append (this other : list Node) : list Node :=
  if decide (fragmentSize other = 0) then this
  else if decide (fragmentSize this = 0) then other
  else
    match last this, other with
    | Some (Text t marks), Text t' marks' :: rest =>
        if decide (marks = marks')
        then removelast this ++ Text (t ++ t') marks :: rest
        else this ++ other
    | _, _ => this ++ other
    end.

(** The step of [doc.resolve] from a node into a child: the child of the
    fragment that holds [x] past its start, when it is not a text, handed to
    [visit] with its index and the offset where it starts.  [None] where
    [x] is a position of the fragment itself (at a boundary between
    children, inside a text, or outside). *)
Definition enterLoop {A} (visit : nat -> Node -> Z -> A) (x : Z)
  : list Node -> nat -> Z -> option A :=
  fix loop (cs : list Node) (index : nat) (pos : Z) {struct cs} : option A :=
    match cs with
    | [] => None
    | child :: rest =>
        let e := pos + nodeSize child in
        if decide (x < e) then
          if bool_decide (pos < x) && negb (isText child)
          then Some (visit index child pos)
          else None
        else loop rest (S index) e
    end.

(** [replaceOuter($from, $to, slice, depth)] of [prosemirror-model] for a
    closed slice with content ([openStart = openEnd = 0]); [from] and [to]
    count from the start of the node's content.  While both positions lie
    in the same child the replacement happens in that child.  Where they
    are positions of the node itself it is the flat case: the content up to
    [from], the slice, the content after [to].  The other case, positions
    at different depths, is outside this model: [None].  The checks against
    the schema ([close]) are left out. *)
Fixpoint replaceOuter (node : Node) (from to : Z) (sliceContent : list Node)
    {struct node} : option Node :=
  match node with
  | Elem k content =>
      match enterLoop
              (fun index child pos =>
                 (index, pos + nodeSize child,
                  replaceOuter child (from - pos - 1) (to - pos - 1)
                    sliceContent))
              from content 0%nat 0 with
      | Some (index, e, inner) =>
          if decide (to < e)
          then inner' ← inner; Some (Elem k (<[index := inner']> content))
          else None
      | None =>
          match enterLoop (fun _ _ _ => tt) to content 0%nat 0 with
          | Some _ => None
          | None =>
              if decide (0 <= from /\ to <= fragmentSize content)
              then Some (Elem k (append (append (cut content 0 from) sliceContent)
                                   (cut content to (fragmentSize content))))
              else None
          end
      end
  | _ => None
  end.

(** [tr.replaceWith(from, to, node)]: the document of the transaction after
    the step, for [from <= to] and a node that is not empty. *)
Definition replaceWith (doc : Node) (from to : Z) (node : Node) : option Node :=
  if decide (from <= to /\ 0 < nodeSize node)
  then replaceOuter doc from to [node]
  else None.

(** [schema.text(text, marks)], which refuses the empty string. *)
Definition schemaText (text : jsstring) (marks : list Mark) : option Node :=
  if nonEmpty text then Some (Text text marks) else None.

(** What the plugin reads of a transaction. *)
Record Transaction := mkTransaction {
  tr_docChanged : bool;
  tr_uiEvent : option jsstring;
  tr_steps : nat
}.

(** An entry of [changes]. *)
Record Change := mkChange {
  ch_pos : Z;
  ch_nodeSize : Z;
  ch_newText : jsstring;
  ch_marks : list Mark
}.

(** [transactions.find(tr => tr.docChanged && tr.getMeta('uiEvent') !==
    'paste' && tr.steps.length > 0)] *)
Definition docChangedTransaction (transactions : list Transaction)
  : option Transaction :=
  find (fun tr =>
          tr_docChanged tr
          && negb (bool_decide (tr_uiEvent tr = Some (str "paste")))
          && bool_decide (0 < tr_steps tr)%nat)
    transactions.

(** The callback of [newState.doc.descendants]: the change it pushes for a
    node, if any. *)
Definition changeOf (v : Node * Z) : option Change :=
  match fst v with
  | Text textContent marks =>
      if nonEmpty textContent then
        let newTextContent := replaceConsecutiveSpacesWithNbsp textContent in
        if decide (newTextContent = textContent) then None
        else Some (mkChange (snd v) (nodeSize (fst v)) newTextContent marks)
      else None
  | _ => None
  end.

(** The body of the loop over [changes]; [None] once a step is outside the
    model. *)
Definition applyChange (tr : option Node) (change : Change) : option Node :=
  doc ← tr;
  newTextNode ← schemaText (ch_newText change) (ch_marks change);
  replaceWith doc (ch_pos change) (ch_pos change + ch_nodeSize change)
    newTextNode.

(** [appendTransaction] on the document of the new state: [Some None] where
    it returns [null], [Some (Some doc)] where it returns a transaction that
    makes the document [doc], [None] where a step is outside the model.
    The selection of the transaction is not modelled. *)
Definition appendTransaction (transactions : list Transaction) (newDoc : Node)
  : option (option Node) :=
  match docChangedTransaction transactions with
  | None => Some None
  | Some _ =>
      let changes := omap changeOf (descendants newDoc) in
      match changes with
      | [] => Some None
      | _ =>
          match foldl applyChange (Some newDoc) (reverse changes) with
          | Some doc => Some (Some doc)
          | None => None
          end
      end
  end.

End PreserveSpacesTyping.

(** ** Vocabulary of the typing plugin's properties *)

Module TypingSpec.
Import ProseMirror.

(** A function applied to the nodes of a fragment, each with its position. *)
Definition placedLoop (f : Node -> Z -> Node) : list Node -> Z -> list Node :=
  fix loop (cs : list Node) (p : Z) {struct cs} : list Node :=
    match cs with
    | [] => []
    | c :: r => f c p :: loop r (p + nodeSize c)
    end.

(** [g] applied to the texts that start at one of the positions [l]; [p] is
    the position of the node. *)
Fixpoint textsAt (l : list Z) (g : jsstring -> jsstring) (n : Node) (p : Z)
    {struct n} : Node :=
  match n with
  | Text t marks => if decide (p ∈ l) then Text (g t) marks else n
  | Leaf _ => n
  | Elem k content => Elem k (placedLoop (textsAt l g) content (p + 1))
  end.

End TypingSpec.

(** ** Computing a NodePath ([tiptapNodePath.utils.ts])

    [doc.resolve] is the framework's; it is modelled after
    [ResolvedPos.resolve] and [Fragment.findIndex]. *)

Module NodePathCalc.
Import ProseMirror Transform TiptapUtils TiptapNodePath.

(** [parts.join(sep)] *)
Fixpoint join (sep : jsstring) (parts : list jsstring) : jsstring :=
  match parts with
  | [] => []
  | [p] => p
  | p :: rest => p ++ sep ++ join sep rest
  end.

(** The loop of [fragment.findIndex(pos)]: [None] where [this.child(i)]
    throws. *)
Fixpoint findIndexLoop (content : list Node) (pos i curPos : Z)
  : option (Z * Z) :=
  match content with
  | [] => None
  | cur :: rest =>
      let e := curPos + nodeSize cur in
      if decide (e >= pos) then
        if decide (e = pos) then Some (i + 1, e) else Some (i, curPos)
      else findIndexLoop rest pos (i + 1) e
  end.

(** [fragment.findIndex(pos)]: the index and the offset; [None] is the
    [RangeError]. *)
Definition findIndex (content : list Node) (pos : Z) : option (Z * Z) :=
  if decide (pos = 0) then Some (0, pos)
  else if decide (pos = fragmentSize content)
  then Some (Z.of_nat (length content), pos)
  else if decide (pos > fragmentSize content \/ pos < 0) then None
  else findIndexLoop content pos 0 0.

(** The loop of [ResolvedPos.resolve]: the path, one entry (node, index,
    offset) for each depth.  [fuel] bounds the depth. *)
Fixpoint resolveLoop (fuel : nat) (node : Node) (parentOffset start : Z)
  : option (list (Node * Z * Z)) :=
  match fuel with
  | O => None
  | S fuel' =>
      match findIndex (children node) parentOffset with
      | None => None
      | Some (index, offset) =>
          let rem := parentOffset - offset in
          let entry := (node, index, start + offset) in
          if decide (rem = 0) then Some [entry]
          else
            match child node (Some index) with
            | None => None
            | Some next =>
                if isText next then Some [entry]
                else
                  match resolveLoop fuel' next (rem - 1) (start + offset + 1) with
                  | Some path => Some (entry :: path)
                  | None => None
                  end
            end
      end
  end.

(** [doc.resolve(pos)]: the path of the resolved position; [None] is a
    [RangeError].  The loop runs once for each depth, and no node is deeper
    than its size. *)
Definition resolve (doc : Node) (pos : Z) : option (list (Node * Z * Z)) :=
  if decide (0 <= pos <= contentSize doc)
  then resolveLoop (S (Z.to_nat (nodeSize doc))) doc pos 0
  else None.

(** [$pos.depth], [$pos.node(d)] and [$pos.index(d)] *)
Definition depth (path : list (Node * Z * Z)) : Z :=
  Z.of_nat (length path) - 1.

Definition nodeAt (path : list (Node * Z * Z)) (d : Z) : option Node :=
  if decide (0 <= d) then fst <$> (fst <$> path !! Z.to_nat d) else None.

Definition indexAt (path : list (Node * Z * Z)) (d : Z) : option Z :=
  if decide (0 <= d) then snd <$> (fst <$> path !! Z.to_nat d) else None.

(** [node.textContent] *)
Definition textContent (n : Node) : jsstring :=
  match n with
  | Text t _ => t
  | Leaf k => leafText k
  | Elem _ _ => textBetween n 0 (contentSize n) []
  end.

(** An integer as a template literal writes it. *)
Definition numberToString (n : Z) : jsstring := str (pretty n).

(** [`${tagName}:nth-child(${indexInParent + 1})`] *)
Definition segment (tagName : jsstring) (indexInParent : Z) : jsstring :=
  tagName ++ str ":nth-child(" ++ numberToString (indexInParent + 1) ++ str ")".

(** The loop [for (let d = targetNodeDepth; d > 0; d--)] with its
    [unshift]: the segments for the depths [1] to [targetNodeDepth], given
    those for the depths above [d]; [None] where a node or an index is
    [undefined] and reading it throws. *)
Fixpoint segmentsFrom (path : list (Node * Z * Z)) (d : nat)
    (pathSegments : list jsstring) : option (list jsstring) :=
  match d with
  | O => Some pathSegments
  | S d' =>
      match nodeAt path (Z.of_nat d), indexAt path (Z.of_nat d - 1) with
      | Some nodeAtDepth, Some indexInParent =>
          let tagName :=
            prosemirrorTypeToTagName (nodeTypeName nodeAtDepth)
              (nodeLevel nodeAtDepth) in
          segmentsFrom path d' (segment tagName indexInParent :: pathSegments)
      | _, _ => None
      end
  end.

Record NodePathPosition := mkNodePath {
  np_path : jsstring;
  np_startOffset : Z;
  np_endOffset : Z;
  np_textFragment : jsstring
}.

(** [calculateNodePathForProseMirrorSelection]; [None] is [null]. *)
Definition calculateNodePathForProseMirrorSelection (doc : Node) (from to : Z)
  : option NodePathPosition :=
  match resolve doc from with
  | None => None
  | Some path =>
      let targetNodeDepth :=
        if bool_decide (depth path > 0)
           && match nodeAt path (depth path) with
              | Some n => isText n
              | None => false
              end
        then depth path - 1 else depth path in
      let targetNodeDepth :=
        if decide (targetNodeDepth < 0) then 0 else targetNodeDepth in
      match segmentsFrom path (Z.to_nat targetNodeDepth) [] with
      | None => None
      | Some pathSegments =>
          let finalPathString := join (str " > ") pathSegments in
          match nodeAt path targetNodeDepth with
          | None => None
          | Some targetNode =>
              Some (mkNodePath finalPathString 0 (nodeSize targetNode)
                      (trim (textContent targetNode)))
          end
      end
  end.

(** The [position] of a comment made from a NodePath. *)
Definition positionOf (np : NodePathPosition) : Comment.Position :=
  Comment.mkPosition (Some (np_textFragment np)) None None (Some (np_path np))
    (Some (np_startOffset np)) (Some (np_endOffset np)).

End NodePathCalc.

(** ** The NodePath editor ([InlineCommentsWithNodePatch.tsx]) *)

Module NodePathEditor.
Import ProseMirror Comment Transform TiptapUtils TiptapNodePath NodePathCalc.

(** [CommentMarkExtension.name || 'comment'] *)
Definition COMMENT_MARK_NAME : jsstring :=
  if nonEmpty CommentMark_name then CommentMark_name else str "comment".

(** The id [`comment-nodepath-${Date.now()}-${...}`]; the clock and the
    random digits are inputs. *)
Definition newNodePathId (now : N) (random : jsstring) : jsstring :=
  str "comment-nodepath-" ++ str (pretty now) ++ str "-" ++ random.

(** The comment [handleAddComment] builds. *)
Definition newNodePathComment (doc : Node) (from to : Z) (commentId : jsstring)
    (created : Z) (nodePathPosition : NodePathPosition) : InlineComment :=
  let selectedText := textBetween doc from to (str " ") in
  mkComment commentId (str "user-current")
    (str "Comment (NodePath CSS) to: '" ++ trim (take 30 selectedText)
     ++ (if decide (30 < length selectedText)%nat then str "..." else [])
     ++ str "'")
    (NewDateNumber created) false nodePath
    (Some (positionOf nodePathPosition)) None.

(** [handleAddComment]: an empty selection, or a path that cannot be
    computed, changes nothing. *)
Definition handleAddComment (doc : Node) (comments : list InlineComment)
    (from to : Z) (now : N) (random : jsstring) (created : Z)
  : Node * list InlineComment :=
  if decide (from = to) then (doc, comments)
  else
    match calculateNodePathForProseMirrorSelection doc from to with
    | None => (doc, comments)
    | Some nodePathPosition =>
        let commentId := newNodePathId now random in
        (setMarkOver doc from to COMMENT_MARK_NAME commentId,
         comments ++ [newNodePathComment doc from to commentId created
                        nodePathPosition])
    end.

(** [c.position && typeof c.position.path !== 'undefined'] *)
Definition hasPath (c : InlineComment) : bool :=
  match position c with
  | Some p => match path p with Some _ => true | None => false end
  | None => false
  end.

(** The effect that restores the marks: the comments with a path, whenever
    the comments change. *)
Definition restoreEffect (doc : Node) (comments : list InlineComment) : Node :=
  let commentsToRestore := filter (fun c => hasPath c = true) comments in
  match commentsToRestore with
  | [] => doc
  | _ =>
      fst (fst (restoreCommentMarksInEditorUsingNodePath doc commentsToRestore
                  COMMENT_MARK_NAME))
  end.

(** [handleDeleteComment]: the mark stays in the document. *)
Definition handleDeleteComment (doc : Node) (comments : list InlineComment)
    (commentIdToDelete : jsstring) : Node * list InlineComment :=
  (doc, filter (fun comment => id comment <> commentIdToDelete) comments).

(** [handleDeleteAllComments]:
    [editor.chain().focus().selectAll().unsetMark(COMMENT_MARK_NAME).run()],
    then [setComments([])].  [selectAll] selects from [0] to
    [doc.content.size]; [unsetMark] calls [tr.removeMark] on that range. *)
Definition handleDeleteAllComments (doc : Node) (comments : list InlineComment)
  : Node * list InlineComment :=
  (removeMark 0 (contentSize doc) COMMENT_MARK_NAME doc, []).

End NodePathEditor.

(** ** Vocabulary of the NodePath computation *)

Module NodePathSpec.
Import ProseMirror DocSpec TiptapNodePath NodePathCalc.

(** [path] leads from [node], whose content starts at [start], to the
    position [pos]: every entry holds a node, the index of the child that
    holds [pos] (or before which [pos] lies) and the position of that
    child; the entries below the first walk down through nodes that are not
    text and that hold [pos] strictly inside. *)
Fixpoint leadsTo (node : Node) (start pos : Z) (path : list (Node * Z * Z))
  : Prop :=
  match path with
  | [] => False
  | (n, index, p) :: rest =>
      n = node /\ 0 <= index <= childCount node
      /\ p = start + sizeBefore node (Some index)
      /\ match rest with
         | [] =>
             p = pos
             \/ exists t ms,
                  child node (Some index) = Some (Text t ms)
                  /\ p < pos < p + Z.of_nat (length t)
         | (next, _, _) :: _ =>
             child node (Some index) = Some next /\ isText next = false
             /\ p < pos < p + nodeSize next
             /\ leadsTo next (p + 1) pos rest
         end
  end.

(** The segments a path stands for: for each step down, the tag of the node
    entered and its index, counted from 1. *)
Fixpoint segmentsOf (path : list (Node * Z * Z)) : list jsstring :=
  match path with
  | (_, index, _) :: rest =>
      match rest with
      | (next, _, _) :: _ =>
          segment (prosemirrorTypeToTagName (nodeTypeName next) (nodeLevel next))
            index
          :: segmentsOf rest
      | [] => []
      end
  | [] => []
  end.

(** The node a path ends in, with the position where it starts; [root] and
    [rootStart] are those of the node the path starts from. *)
Fixpoint targetOf (root : Node) (rootStart : Z) (path : list (Node * Z * Z))
  : Node * Z :=
  match path with
  | (_, _, p) :: rest =>
      match rest with
      | (next, _, _) :: _ => targetOf next p rest
      | [] => (root, rootStart)
      end
  | [] => (root, rootStart)
  end.

(** Every node type of the tree has a name that can stand in a segment:
    one or more of the characters [a-zA-Z0-9_-]. *)
Definition tagNameOk (n : Node) : bool :=
  match n with
  | Text _ _ => true
  | Leaf k | Elem k _ =>
      nonEmpty (typeName k) && forallb isTagChar (typeName k)
  end.

Definition tagNamesOk (doc : Node) : bool :=
  forallb (fun v : Node * Z => tagNameOk (fst v)) (allNodes doc 0).


(** A cell without its comment marks. *)
Definition otherMarks (c : Z * list Mark) : Z * list Mark :=
  (fst c, Transform.removeFromSet TiptapUtils.CommentMark_name (snd c)).

End NodePathSpec.

(** ** Saving the comments ([localStorage.utils.ts])

    [localStorage] is kept as what [getItem] and [JSON.parse] deliver for
    each key: after [setItem(key, JSON.stringify(value))] that is the value
    as JSON holds it.  The serializer and the parser are the runtime's. *)

Module Persistence.
Import Storage Comment.

Abbreviation LocalStorage := (gmap jsstring Stored).

(** [localStorage.getItem(key)], parsed. *)
Definition getItem (storage : LocalStorage) (key : jsstring) : Stored :=
  default Absent (storage !! key).

(** A property whose value may be [undefined]: [JSON.stringify] leaves such
    a property out. *)
Definition optionalProp (key : jsstring) (value : option Json)
  : list (jsstring * Json) :=
  match value with
  | Some v => [(key, v)]
  | None => []
  end.

Definition typeJson (t : CommentType) : Json :=
  JString match t with
          | offset => str "offset"
          | nodePath => str "nodePath"
          | contentSpan => str "contentSpan"
          end.

Section Dates.

(** [date.toISOString()] for a valid date; [None] for an invalid one, for
    which [date.toJSON()] is [null]. *)
Variable toISOString : Date -> option jsstring.

Definition dateJson (d : Date) : Json :=
  match toISOString d with
  | Some s => JString s
  | None => JNull
  end.

Definition replyJson (r : InlineReply) : Json :=
  JObject [(str "id", JString (reply_id r));
           (str "author", JString (reply_author r));
           (str "text", JString (reply_text r));
           (str "createdAt", dateJson (reply_createdAt r))].

(** The properties of an object in the order the interface lists them; the
    loaders read them by name. *)
Definition positionJson (p : Position) : Json :=
  JObject (optionalProp (str "textFragment") (JString <$> textFragment p)
           ++ optionalProp (str "from") (JNumber <$> from p)
           ++ optionalProp (str "to") (JNumber <$> to p)
           ++ optionalProp (str "path") (JString <$> path p)
           ++ optionalProp (str "startOffset") (JNumber <$> startOffset p)
           ++ optionalProp (str "endOffset") (JNumber <$> endOffset p)).

(** What [JSON.stringify] writes for a comment. *)
Definition commentJson (c : InlineComment) : Json :=
  JObject ([(str "id", JString (id c));
            (str "author", JString (author c));
            (str "text", JString (text c));
            (str "createdAt", dateJson (createdAt c));
            (str "resolved", JBool (resolved c));
            (str "type", typeJson (type c))]
           ++ optionalProp (str "position") (positionJson <$> position c)
           ++ optionalProp (str "replies")
                ((fun rs => JArray (replyJson <$> rs)) <$> replies c)).

(** [saveCommentsToStorage] *)
Definition saveCommentsToStorage (key : jsstring)
    (comments : list InlineComment) (storage : LocalStorage) : LocalStorage :=
  match comments with
  | [] => delete key storage
  | _ => <[key := Parsed (JArray (commentJson <$> comments))]> storage
  end.

End Dates.

(** [c.type] on an object a loader returns: the object literal of the
    loaders has no [type] property. *)
Definition loaded_type (c : LoadedComment) : option Json := None.

(** The comments the NodePath editor starts with:
    [loadedComments.filter(c => c.type === 'nodePath')]. *)
Definition initialNodePathComments (loadedComments : list LoadedComment)
  : list LoadedComment :=
  filter (fun c => loaded_type c = Some (JString (str "nodePath")))
    loadedComments.

End Persistence.

(** ** Vocabulary of the loaders' properties *)

Module LoadedSpec.
Import Storage Comment Persistence.

(** A field that is [undefined] or of the type [t]. *)
Definition undefinedOr (t : JsType) (value : option Json) : bool :=
  match value with
  | None => true
  | Some _ => isType t value
  end.

Definition wellTypedPosition (p : LoadedPosition) : bool :=
  undefinedOr TNumber (loaded_from p) && undefinedOr TNumber (loaded_to p)
  && undefinedOr TString (loaded_textFragment p)
  && undefinedOr TString (loaded_path p)
  && undefinedOr TNumber (loaded_startOffset p)
  && undefinedOr TNumber (loaded_endOffset p).

(** The fields a loader fills hold what [InlineComment] declares for them:
    strings for [id], [author] and [text], a string or a number to build the
    date from, and a position whose fields are of their types. *)
Definition wellTyped (c : LoadedComment) : bool :=
  isType TString (loaded_id c) && isType TString (loaded_author c)
  && isType TString (loaded_text c)
  && (isType TString (loaded_createdAt c) || isType TNumber (loaded_createdAt c))
  && match loaded_position c with
     | Some p => wellTypedPosition p
     | None => true
     end.

(** A comment as a loader hands it back after [saveCommentsToStorage]. *)
Definition loadedPosition (p : Position) : LoadedPosition :=
  mkLoadedPosition (JNumber <$> from p) (JNumber <$> to p)
    (JString <$> textFragment p) (JString <$> path p)
    (JNumber <$> startOffset p) (JNumber <$> endOffset p).

Definition loadedOf (toISOString : Date -> option jsstring) (c : InlineComment)
  : LoadedComment :=
  mkLoaded (Some (JString (id c))) (Some (JString (author c)))
    (Some (JString (text c))) (Some (dateJson toISOString (createdAt c)))
    (loadedPosition <$> position c).

End LoadedSpec.

(** ** Loading and saving in the ContentSpan editor
    ([InlineCommentsWithContentSpan.tsx]) *)

Module ContentSpanEditor.
Import Storage Comment Persistence.

Definition COMMENTS_LOCAL_STORAGE_KEY_WITH_ID : jsstring :=
  str "tiptap-inline-comments_with_span".

(** The objects the loader of the component builds. *)
Record LoadedSpanComment := mkLoadedSpan {
  span_id : option Json;
  span_author : option Json;
  span_text : option Json;
  span_createdAt : option Json;        (* the argument of [new Date(...)] *)
  span_resolved : option Json;
  span_type : option Json;
  span_position : LoadedPosition
}.

(** [a || b] *)
Definition orElse (a b : option Json) : option Json :=
  if truthy a then a else b.

(** [value === s] for a string [s] *)
Definition isString (s : jsstring) (value : option Json) : bool :=
  match value with
  | Some (JString s') => bool_decide (s' = s)
  | _ => false
  end.

(** The condition of the loader. *)
Definition validSpanData (commentData : Json) : bool :=
  isType TObject (Some commentData)
  && negb (isNull commentData)
  && hasProp (str "id") commentData
  && isType TString (getProp commentData (str "id"))
  && (hasProp (str "authorId") commentData || hasProp (str "author") commentData)
  && (hasProp (str "content") commentData || hasProp (str "text") commentData)
  && hasProp (str "createdAt") commentData
  && (isType TString (getProp commentData (str "createdAt"))
      || isType TNumber (getProp commentData (str "createdAt"))).

(** The object literal the loader returns for a record that passed. *)
Definition buildSpanComment (typedCommentData : Json) : LoadedSpanComment :=
  mkLoadedSpan
    (getProp typedCommentData (str "id"))
    (orElse (getProp typedCommentData (str "author"))
       (getProp typedCommentData (str "authorId")))
    (orElse (getProp typedCommentData (str "text"))
       (getProp typedCommentData (str "content")))
    (getProp typedCommentData (str "createdAt"))
    (orElse (getProp typedCommentData (str "resolved")) (Some (JBool false)))
    (orElse (getProp typedCommentData (str "type"))
       (Some (JString (str "contentSpan"))))
    (match getProp typedCommentData (str "position") with
     | Some position =>
         if truthy (Some position) then
           mkLoadedPosition
             (getProp position (str "from"))
             (getProp position (str "to"))
             (getProp position (str "textFragment"))
             (getProp position (str "path"))
             (getProp position (str "startOffset"))
             (getProp position (str "endOffset"))
         else
           mkLoadedPosition None None
             (orElse (getProp position (str "textFragment"))
                (Some (JString [])))
             None None None
     | None =>
         mkLoadedPosition None None (orElse None (Some (JString []))) None None
           None
     end).

(** The callback of [parsedComments.map]: [None] is the [null] the first
    filter removes. *)
Definition loadSpanComment (commentData : Json) : option LoadedSpanComment :=
  if validSpanData commentData then Some (buildSpanComment commentData)
  else None.

(** The comments the component starts with: the state stays the empty list
    where nothing is stored, and is set to it where the stored text does not
    parse or is not an array. *)
Definition loadComments (stored : Stored) : list LoadedSpanComment :=
  match stored with
  | Parsed (JArray parsedComments) =>
      filter (fun c => isString (str "contentSpan") (span_type c) = true)
        (omap loadSpanComment parsedComments)
  | _ => []
  end.

(** The effect that saves the comments: [localStorage.setItem(key,
    JSON.stringify(comments))], for the empty list too. *)
Definition saveComments (toISOString : Date -> option jsstring)
    (comments : list InlineComment) (storage : LocalStorage) : LocalStorage :=
  <[COMMENTS_LOCAL_STORAGE_KEY_WITH_ID :=
      Parsed (JArray (commentJson toISOString <$> comments))]> storage.

End ContentSpanEditor.

(** ** Vocabulary of the ContentSpan loader's properties *)

Module SpanSpec.
Import Storage Comment Persistence LoadedSpec ContentSpanEditor.

(** A string as the loader reads it through [||]: the empty string gives way
    to the alternative, which the saved records do not have. *)
Definition unlessEmpty (s : jsstring) : option Json :=
  if nonEmpty s then Some (JString s) else None.

(** A saved comment as the loader of the component hands it back. *)
Definition spanLoadedOf (toISOString : Date -> option jsstring)
    (c : InlineComment) : LoadedSpanComment :=
  mkLoadedSpan (Some (JString (id c))) (unlessEmpty (author c))
    (unlessEmpty (text c)) (Some (dateJson toISOString (createdAt c)))
    (Some (JBool (resolved c))) (Some (typeJson (type c)))
    (match position c with
     | Some p => loadedPosition p
     | None => mkLoadedPosition None None (Some (JString [])) None None None
     end).

End SpanSpec.

(** ** Sample documents and comments *)

Module Samples.
Import ProseMirror Comment TiptapUtils.

Definition docKind : NodeKind := mkKind (str "doc") None true false [].
Definition paragraph : NodeKind := mkKind (str "paragraph") None true true [].
Definition horizontalRule : NodeKind :=
  mkKind (str "horizontalRule") None true false [].

(** [<p>ab</p><p>cd</p>] *)
Definition twoParagraphs : Node :=
  Elem docKind [Elem paragraph [Text (str "ab") []];
                Elem paragraph [Text (str "cd") []]].

(** [<hr>] *)
Definition ruleOnly : Node := Elem docKind [Leaf horizontalRule].

(** [<p>ab</p>] with the marker of comment [c1] on the text. *)
Definition markedParagraph : Node :=
  Elem docKind [Elem paragraph [Text (str "ab") [commentMark (str "c1")]]].

(** [<p>abcd</p>], [ab] under the marker of [c1] and [cd] under that of
    [c2]. *)
Definition twoMarkers : Node :=
  Elem docKind [Elem paragraph [Text (str "ab") [commentMark (str "c1")];
                                Text (str "cd") [commentMark (str "c2")]]].

Definition sampleComment (p : option Position) : InlineComment :=
  mkComment (str "c1") (str "user-current") (str "Comment") (NewDateNumber 0)
    false offset p None.

(** Bound to the selected rule: the selection held no text. *)
Definition boundToRule : InlineComment :=
  sampleComment (Some (mkPosition (Some []) (Some 0) (Some 1) None None None)).

Definition orphanedComment : InlineComment :=
  sampleComment
    (Some (mkPosition (Some (str "[ORPHANED] ab")) None None None None None)).

Definition secondComment : InlineComment :=
  mkComment (str "c2") (str "user-current") (str "Comment") (NewDateNumber 0)
    false offset
    (Some (mkPosition (Some (str "cd")) (Some 3) (Some 5) None None None)) None.

(** Comments with a path. *)
Definition pathComment (p : string) : InlineComment :=
  sampleComment (Some (mkPosition None None None (Some (str p)) None None)).

End Samples.

Module StorageSamples.
Import Storage.

(** [{"id":"c1","author":"a","text":"t","createdAt":0}] *)
Definition validRecord : Json :=
  JObject [(str "id", JString (str "c1")); (str "author", JString (str "a"));
           (str "text", JString (str "t")); (str "createdAt", JNumber 0)].

End StorageSamples.

Module EditorSamples.
Import ProseMirror Comment TiptapUtils Samples.


(** Bound to [ab] in [<p>abcd</p>]. *)
Definition firstComment : InlineComment :=
  sampleComment
    (Some (mkPosition (Some (str "ab")) (Some 1) (Some 3) None None None)).


(** [<p>ab</p><p>cd</p>] with the marker of [c1] on [ab]. *)
Definition firstMarked : Node :=
  Elem docKind [Elem paragraph [Text (str "ab") [commentMark (str "c1")]];
                Elem paragraph [Text (str "cd") []]].

(** The comment of a selection that started at the top of the document. *)
Definition wholeComment : InlineComment :=
  mkComment (str "c2") (str "user-current") (str "Comment") (NewDateNumber 0)
    false nodePath
    (Some (mkPosition (Some (str "ab cd")) None None (Some []) (Some 0) (Some 10)))
    None.

End EditorSamples.

Module TypingSamples.
Import ProseMirror PreserveSpacesTyping Samples.

(** [<p>a  b</p>], two plain spaces between the letters. *)
Definition spacedParagraph : Node :=
  Elem docKind [Elem paragraph [Text (str "a  b") []]].

(** [<p>a  b</p>] under the marker of comment [c1]. *)
Definition spacedMarked : Node :=
  Elem docKind
    [Elem paragraph [Text (str "a  b") [TiptapUtils.commentMark (str "c1")]]].

(** A transaction of typed input. *)
Definition typed : Transaction := mkTransaction true None 1.

End TypingSamples.

(** * Properties *)

(** ** Marker propagation *)

Module PreserveSpacesFacts.
Import PreserveSpaces.

Lemma leadingSpaces_split (s : jsstring) :
  s = replicate (leadingSpaces s) SPACE ++ drop (leadingSpaces s) s.
Proof.
  induction s as [|c r IH]; simpl; [done|].
  destruct (decide (c = SPACE)) as [->|]; simpl; [by rewrite <- IH | done].
Qed.

Lemma leadingSpaces_drop (s : jsstring) :
  leadingSpaces (drop (leadingSpaces s) s) = O.
Proof.
  induction s as [|c r IH]; simpl; [done|].
  destruct (decide (c = SPACE)) as [->|Hc]; simpl; [done|].
  by destruct (decide (c = SPACE)).
Qed.

Lemma leadingSpaces_length (s : jsstring) : (leadingSpaces s <= length s)%nat.
Proof.
  induction s as [|c r IH]; simpl; [lia|].
  destruct (decide (c = SPACE)); lia.
Qed.

(** The runs of a string that starts with [n] spaces followed by something
    that is not a space. *)
Lemma runs_spaces (n : nat) (t : jsstring) :
  leadingSpaces t = O ->
  runs (replicate (S n) SPACE ++ t) = (SPACE, S n) :: runs t.
Proof.
  intros Ht. induction n as [|n IH].
  - simpl. destruct t as [|c r]; simpl; [done|].
    simpl in Ht. destruct (decide (c = SPACE)) as [->|Hc]; [done|].
    destruct (runs r) as [|[c' k] g].
    + destruct (decide (SPACE = c)); [congruence | done].
    + destruct (decide (c = c')); destruct (decide (SPACE = c)); congruence.
  - change (replicate (S (S n)) SPACE ++ t)
      with (SPACE :: (replicate (S n) SPACE ++ t)).
    cbn [runs]. rewrite IH. by destruct (decide (SPACE = SPACE)).
Qed.

Lemma normalizeSpec_spaces (n : nat) (t : jsstring) :
  (2 <= n)%nat -> leadingSpaces t = O ->
  normalizeSpec (replicate n SPACE ++ t) = replicate n NBSP ++ normalizeSpec t.
Proof.
  intros Hn Ht. destruct n as [|n]; [lia|].
  unfold normalizeSpec. rewrite runs_spaces by done. simpl.
  unfold rewriteRun at 1. simpl.
  destruct (decide (SPACE = SPACE /\ (2 <= S n)%nat)) as [_|H]; [done|].
  exfalso. apply H. split; [done | lia].
Qed.

(** A code unit that starts no match is copied. *)
Lemma normalizeSpec_copy (c : N) (r : jsstring) :
  matchSpaces (c :: r) = None ->
  normalizeSpec (c :: r) = c :: normalizeSpec r.
Proof.
  unfold matchSpaces. intros Hm.
  destruct (decide (2 <= leadingSpaces (c :: r))%nat) as [|Hn]; [done|]. clear Hm.
  unfold normalizeSpec. simpl in *.
  destruct (decide (c = SPACE)) as [->|Hc].
  - assert (Hr : leadingSpaces r = O) by lia.
    destruct r as [|c2 r2]; [done|].
    simpl in Hr. destruct (decide (c2 = SPACE)) as [|Hc2]; [done|].
    change (runs (c2 :: r2)) with (runs (replicate 0 SPACE ++ c2 :: r2)).
    destruct (runs (replicate 0 SPACE ++ c2 :: r2)) as [|[c' k] g] eqn:E; [done|].
    assert (c' = c2) as ->.
    { simpl in E. destruct (runs r2) as [|[c3 k3] g3].
      - by inversion E.
      - destruct (decide (c2 = c3)); by inversion E. }
    destruct (decide (SPACE = c2)); [congruence|]. simpl.
    unfold rewriteRun at 1. simpl.
    destruct (decide (SPACE = SPACE /\ (2 <= 1)%nat)) as [[_ ?]|_]; [lia | done].
  - destruct (runs r) as [|[c' k] g]; simpl.
    + unfold rewriteRun. simpl.
      destruct (decide (c = SPACE /\ (2 <= 1)%nat)) as [[? _]|_]; done.
    + destruct (decide (c = c')) as [<-|Hcc]; simpl.
      * unfold rewriteRun. simpl.
        destruct (decide (c = SPACE /\ (2 <= S k)%nat)) as [[? _]|_]; [done|].
        destruct (decide (c = SPACE /\ (2 <= k)%nat)) as [[? _]|_]; done.
      * unfold rewriteRun at 1. simpl.
        destruct (decide (c = SPACE /\ (2 <= 1)%nat)) as [[? _]|_]; done.
Qed.

(** Enough fuel: the loop computes the run-wise rewriting. *)
Lemma replaceLoop_spec (fuel : nat) (s : jsstring) :
  (length s <= fuel)%nat -> replaceLoop fuel s = normalizeSpec s.
Proof.
  revert s. induction fuel as [|fuel IH]; intros s Hlen.
  - destruct s; [done | simpl in Hlen; lia].
  - destruct s as [|c r]; [done|].
    cbn [replaceLoop]. destruct (matchSpaces (c :: r)) as [n|] eqn:Hm.
    + unfold matchSpaces in Hm.
      destruct (decide (2 <= leadingSpaces (c :: r))%nat) as [Hn|]; [|done].
      inversion Hm; subst n; clear Hm.
      rewrite IH.
      * rewrite <- normalizeSpec_spaces
          by (done || exact (leadingSpaces_drop (c :: r))).
        f_equal. exact (eq_sym (leadingSpaces_split (c :: r))).
      * rewrite length_drop. simpl in *. lia.
    + rewrite IH by (simpl in Hlen; lia).
      by rewrite normalizeSpec_copy.
Qed.

Lemma runs_expand (s : jsstring) : concat (map expandRun (runs s)) = s.
Proof.
  induction s as [|c r IH]; [done|]. simpl.
  destruct (runs r) as [|[c' k] g]; simpl in *; [by rewrite <- IH|].
  destruct (decide (c = c')) as [->|]; simpl; by rewrite <- IH.
Qed.

Lemma runs_maximal (s : jsstring) : runsMaximal (runs s).
Proof.
  induction s as [|c r IH]; [done|]. simpl.
  destruct (runs r) as [|[c' k] g]; simpl in *; [lia|].
  destruct (decide (c = c')) as [->|Hc]; simpl.
  - destruct g as [|r2 g']; [lia|]. destruct IH as (? & ? & ?). repeat split; [done | lia | done].
  - repeat split; [done | lia | done].
Qed.

(** C6.  The space normalization rewrites every maximal run of two or more
    plain spaces into the same number of no-break spaces and copies every
    other run; the runs are the maximal runs of the input and make it up;
    ["a   b"] gets three no-break spaces and ["a b"] is unchanged. *)
Theorem replaceConsecutiveSpacesWithNbsp_runs :
  (forall text : jsstring,
      replaceConsecutiveSpacesWithNbsp text = concat (map rewriteRun (runs text))
      /\ concat (map expandRun (runs text)) = text
      /\ runsMaximal (runs text)
      /\ length (replaceConsecutiveSpacesWithNbsp text) = length text)
  /\ (forall r : N * nat,
         rewriteRun r =
         if decide (fst r = SPACE /\ (2 <= snd r)%nat)
         then replicate (snd r) NBSP else replicate (snd r) (fst r))
  /\ replaceConsecutiveSpacesWithNbsp (str "a   b")
     = str "a" ++ [NBSP; NBSP; NBSP] ++ str "b"
  /\ replaceConsecutiveSpacesWithNbsp (str "a b") = str "a b".
Proof.
  split; [|split; [done | split; reflexivity]].
  intros text.
  assert (H : replaceConsecutiveSpacesWithNbsp text = normalizeSpec text)
    by (apply replaceLoop_spec; lia).
  split; [done|]. split; [apply runs_expand|]. split; [apply runs_maximal|].
  rewrite H. unfold normalizeSpec.
  rewrite <- (runs_expand text) at 2.
  induction (runs text) as [|r g IHg]; [done|]. simpl.
  rewrite !length_app, IHg. f_equal.
  unfold rewriteRun, expandRun. destruct (decide _); by rewrite !length_replicate.
Qed.

End PreserveSpacesFacts.

(** ** The synchronizer *)

Module SyncFacts.
Import ProseMirror Comment TiptapUtils SyncSpec Samples.

Lemma nonEmpty_spec (s : jsstring) : nonEmpty s = true <-> s <> [].
Proof. destruct s; simpl; split; congruence. Qed.

(** *** The map over the comments *)

Lemma mapComments_fst f (cs : list InlineComment) (b : bool) :
  fst (mapComments f cs b) = map (fun c => fst (f c)) cs.
Proof.
  revert b. induction cs as [|c r IH]; intros b; simpl; [done|].
  destruct (f c) as [c' ch] eqn:Ef. specialize (IH (b || ch)).
  destruct (mapComments f r (b || ch)) as [r' fl]. simpl in *. by rewrite IH.
Qed.

Lemma mapComments_snd f (cs : list InlineComment) (b : bool) :
  snd (mapComments f cs b) = b || existsb (fun c => snd (f c)) cs.
Proof.
  revert b. induction cs as [|c r IH]; intros b; simpl; [by rewrite orb_false_r|].
  destruct (f c) as [c' ch] eqn:Ef. specialize (IH (b || ch)).
  destruct (mapComments f r (b || ch)) as [r' fl]. simpl in *.
  rewrite IH. by rewrite orb_assoc.
Qed.

Lemma sync_fst (doc : Node) (prev : list InlineComment) :
  fst (syncCommentPositionsWithEditorState doc prev)
  = map (fun c => fst (syncComment doc (scanCommentMarks doc) c)) prev.
Proof.
  unfold syncCommentPositionsWithEditorState.
  destruct prev; [done|]. apply mapComments_fst.
Qed.

Lemma sync_snd (doc : Node) (prev : list InlineComment) :
  snd (syncCommentPositionsWithEditorState doc prev)
  = existsb (fun c => snd (syncComment doc (scanCommentMarks doc) c)) prev.
Proof.
  unfold syncCommentPositionsWithEditorState.
  destruct prev; [done|]. apply mapComments_snd.
Qed.

(** *** One comment *)

Lemma syncComment_sameButPosition doc m (c : InlineComment) :
  sameButPosition c (fst (syncComment doc m c)).
Proof.
  unfold syncComment, sameButPosition.
  destruct (nonEmpty (id c)); [|done].
  destruct (m !! id c) as [info|].
  - destruct (isAlreadyOrphaned c || _); done.
  - destruct (position c) as [p|]; [|done].
    destruct (negb (isAlreadyOrphaned c) && _); done.
Qed.

(** A comment the synchronizer has produced is left alone by a second pass
    over the same scan. *)
Lemma syncComment_idempotent doc m (c : InlineComment) :
  syncComment doc m (fst (syncComment doc m c)) = (fst (syncComment doc m c), false).
Proof.
  unfold syncComment at 2 3.
  destruct (nonEmpty (id c)) eqn:Hid.
  - destruct (m !! id c) as [info|] eqn:Hm.
    + destruct (isAlreadyOrphaned c || _) eqn:Hc; simpl.
      * unfold syncComment, isAlreadyOrphaned. simpl. rewrite Hid, Hm. simpl.
        by rewrite !bool_decide_eq_true_2.
      * unfold syncComment. by rewrite Hid, Hm, Hc.
    + destruct (position c) as [p|] eqn:Hp.
      * destruct (negb (isAlreadyOrphaned c) && _) eqn:Hc; simpl.
        -- unfold syncComment, isAlreadyOrphaned. simpl. by rewrite Hid, Hm.
        -- unfold syncComment. by rewrite Hid, Hm, Hp, Hc.
      * simpl. unfold syncComment. by rewrite Hid, Hm, Hp.
  - simpl. unfold syncComment. by rewrite Hid.
Qed.

(** *** The marker scan coalesces the runs of each marker *)

Lemma coalesceStep_twice (a : option (Z * Z)) (r : Z * Z) :
  coalesceStep (coalesceStep a r) r = coalesceStep a r.
Proof.
  destruct a as [[lo hi]|], r as [p q]; simpl; f_equal; f_equal; lia.
Qed.

Lemma scanMark_lookup (p q : Z) (acc : gmap jsstring (Z * Z)) (mk : Mark)
    (i : jsstring) :
  i <> [] ->
  scanMark p q acc mk !! i
  = if decide (mk = commentMark i) then coalesceStep (acc !! i) (p, q)
    else acc !! i.
Proof.
  intros Hi. unfold scanMark, commentMark.
  destruct mk as [ty attr]; simpl.
  destruct (decide (ty = CommentMark_name)) as [->|Hty].
  - destruct attr as [cid|].
    + destruct (nonEmpty cid) eqn:Hne.
      * destruct (decide (cid = i)) as [->|Hci].
        -- rewrite decide_True by done.
           destruct (acc !! i) as [e|]; simpl; by rewrite lookup_insert_eq.
        -- rewrite decide_False by congruence.
           destruct (acc !! cid); by rewrite lookup_insert_ne.
      * rewrite decide_False; [done|]. intros [= ->]. by destruct i.
    + by rewrite decide_False.
  - rewrite decide_False; [done | congruence].
Qed.

Lemma scanMarks_lookup (p q : Z) (ms : list Mark)
    (acc : gmap jsstring (Z * Z)) (i : jsstring) :
  i <> [] ->
  foldl (scanMark p q) acc ms !! i
  = if bool_decide (commentMark i ∈ ms) then coalesceStep (acc !! i) (p, q)
    else acc !! i.
Proof.
  intros Hi. revert acc. induction ms as [|mk ms IH]; intros acc; cbn [foldl].
  - rewrite bool_decide_eq_false_2; [done | apply not_elem_of_nil].
  - rewrite IH, scanMark_lookup by done.
    destruct (decide (mk = commentMark i)) as [->|Hmk].
    + rewrite (bool_decide_eq_true_2 (_ ∈ _ :: _)) by apply list_elem_of_here.
      destruct (bool_decide _); [apply coalesceStep_twice | done].
    + destruct (bool_decide (commentMark i ∈ ms)) eqn:Hin.
      * apply bool_decide_eq_true_1 in Hin.
        rewrite bool_decide_eq_true_2; [done | by apply list_elem_of_further].
      * apply bool_decide_eq_false_1 in Hin.
        rewrite bool_decide_eq_false_2; [done|].
        rewrite elem_of_cons. intros [?|?]; congruence.
Qed.

Lemma scanNode_lookup (acc : gmap jsstring (Z * Z)) (v : Node * Z)
    (i : jsstring) :
  i <> [] ->
  scanNode acc v !! i
  = if carriesMarker i (fst v)
    then coalesceStep (acc !! i) (snd v, snd v + nodeSize (fst v))
    else acc !! i.
Proof.
  intros Hi. destruct v as [n pos]. unfold scanNode, carriesMarker. simpl.
  destruct (isText n); simpl; [by apply scanMarks_lookup | done].
Qed.

Lemma scanNodes_lookup (visits : list (Node * Z))
    (acc : gmap jsstring (Z * Z)) (i : jsstring) :
  i <> [] ->
  foldl scanNode acc visits !! i = foldl coalesceStep (acc !! i) (runsIn i visits).
Proof.
  intros Hi. revert acc. induction visits as [|v vs IH]; intros acc; [done|].
  simpl. rewrite IH, scanNode_lookup by done. unfold runsIn. simpl.
  destruct (carriesMarker i (fst v)); done.
Qed.

(** What the scan records for a comment id is the coalesced range of the
    runs of its marker. *)
Lemma scan_lookup (doc : Node) (i : jsstring) :
  i <> [] -> scanCommentMarks doc !! i = coalesce (markerRuns i doc).
Proof.
  intros Hi. unfold scanCommentMarks, coalesce, markerRuns.
  by rewrite scanNodes_lookup, lookup_empty.
Qed.

Lemma coalesce_from_span (rs : list (Z * Z)) (a b lo hi : Z) :
  foldl coalesceStep (Some (a, b)) rs = Some (lo, hi) ->
  (lo = a \/ lo ∈ map fst rs) /\ (hi = b \/ hi ∈ map snd rs)
  /\ lo <= a /\ b <= hi
  /\ Forall (fun r => lo <= fst r /\ snd r <= hi) rs.
Proof.
  revert a b. induction rs as [|[p q] rs IH]; intros a b H; simpl in H.
  - inversion H; subst. repeat split; auto; lia.
  - apply IH in H as (Hlo & Hhi & Ha & Hb & Hall). simpl.
    repeat split.
    + destruct Hlo as [->|Hlo]; [|right; by apply list_elem_of_further].
      destruct (Z.min_spec a p) as [[_ ->]|[_ ->]]; [by left|].
      right. apply list_elem_of_here.
    + destruct Hhi as [->|Hhi]; [|right; by apply list_elem_of_further].
      destruct (Z.max_spec b q) as [[_ ->]|[_ ->]]; [|by left].
      right. apply list_elem_of_here.
    + lia.
    + lia.
    + constructor; [simpl; lia | done].
Qed.

(** The coalesced range starts at the least run start and ends at the
    greatest run end. *)
Lemma coalesce_span (rs : list (Z * Z)) (lo hi : Z) :
  coalesce rs = Some (lo, hi) -> isSpanOf rs lo hi.
Proof.
  unfold coalesce, isSpanOf. destruct rs as [|[p q] rs]; [done|]. simpl.
  intros H. apply coalesce_from_span in H as (Hlo & Hhi & Ha & Hb & Hall).
  repeat split.
  - destruct Hlo as [->|?]; [apply list_elem_of_here | by apply list_elem_of_further].
  - destruct Hhi as [->|?]; [apply list_elem_of_here | by apply list_elem_of_further].
  - constructor; [simpl; lia | done].
Qed.

Lemma foldl_coalesce_is_Some (rs : list (Z * Z)) (e : Z * Z) :
  is_Some (foldl coalesceStep (Some e) rs).
Proof. revert e. induction rs as [|r rs IH]; intros e; simpl; eauto. Qed.

Lemma coalesce_None (rs : list (Z * Z)) : coalesce rs = None <-> rs = [].
Proof.
  unfold coalesce. destruct rs as [|r rs]; [done|]. simpl.
  destruct (foldl_coalesce_is_Some rs r) as [x ->]. split; done.
Qed.

(** *** Orphaning and re-binding of one comment *)

Lemma syncComment_no_marker doc (c : InlineComment) (p : Position) (f : Z) :
  id c <> [] -> position c = Some p -> from p = Some f ->
  markerRuns (id c) doc = [] ->
  syncComment doc (scanCommentMarks doc) c
  = (withPosition c
       (orphanPosition
          match textFragment p with
          | Some t => if nonEmpty t then t else NoOriginalText
          | None => NoOriginalText
          end), true).
Proof.
  intros Hid Hp Hf Hruns. unfold syncComment.
  rewrite (proj2 (nonEmpty_spec _) Hid), scan_lookup, Hruns by done. simpl.
  unfold isAlreadyOrphaned. by rewrite Hp, Hf.
Qed.

Lemma syncComment_orphaned_no_marker doc (c : InlineComment) :
  isOrphaned c -> markerRuns (id c) doc = [] \/ id c = [] ->
  syncComment doc (scanCommentMarks doc) c = (c, false).
Proof.
  intros (p & Hp & Hf) H. unfold syncComment.
  destruct (nonEmpty (id c)) eqn:Hid; [|done].
  apply nonEmpty_spec in Hid. destruct H as [Hruns|]; [|done].
  rewrite scan_lookup, Hruns by done. simpl.
  unfold isAlreadyOrphaned. by rewrite Hp, Hf.
Qed.

Lemma syncComment_orphaned_marker doc (c : InlineComment) (range : Z * Z) :
  isOrphaned c -> id c <> [] ->
  coalesce (markerRuns (id c) doc) = Some range ->
  syncComment doc (scanCommentMarks doc) c
  = (withPosition c (boundPosition doc range), true).
Proof.
  intros (p & Hp & Hf) Hid Hruns. unfold syncComment.
  rewrite (proj2 (nonEmpty_spec _) Hid), scan_lookup, Hruns by done.
  unfold isAlreadyOrphaned. by rewrite Hp, Hf.
Qed.

Lemma sync_lookup doc (prev : list InlineComment) (i : nat) (c : InlineComment) :
  prev !! i = Some c ->
  fst (syncCommentPositionsWithEditorState doc prev) !! i
  = Some (fst (syncComment doc (scanCommentMarks doc) c)).
Proof. intros H. by rewrite sync_fst, list_lookup_fmap, H. Qed.

Lemma sync_changed doc (prev : list InlineComment) (i : nat) (c : InlineComment) :
  prev !! i = Some c ->
  snd (syncComment doc (scanCommentMarks doc) c) = true ->
  snd (syncCommentPositionsWithEditorState doc prev) = true.
Proof.
  intros H Hc. rewrite sync_snd. apply existsb_exists. exists c.
  split; [|done]. apply list_elem_of_In. by eapply list_elem_of_lookup_2.
Qed.

(** C10.  The synchronizer returns the same comments in the same order:
    the result has the length of the input and each comment keeps its id,
    author, text, createdAt, resolved, type and replies; only [position]
    is ever rewritten. *)
Theorem sync_preserves_all_but_position :
  forall (editorDoc : Node) (prevComments : list InlineComment),
    let updatedComments :=
      fst (syncCommentPositionsWithEditorState editorDoc prevComments) in
    length updatedComments = length prevComments
    /\ Forall2 sameButPosition prevComments updatedComments.
Proof.
  intros doc prev. simpl. rewrite sync_fst. split; [by rewrite length_map|].
  induction prev as [|c r IH]; simpl; constructor; [|done].
  apply syncComment_sameButPosition.
Qed.

(** C5.  The synchronizer is idempotent: on the same document, a second run
    over the comments the first run returned gives them back unchanged and
    reports [commentsStateChanged = false]. *)
Theorem sync_idempotent :
  forall (editorDoc : Node) (prevComments : list InlineComment),
    let updatedComments :=
      fst (syncCommentPositionsWithEditorState editorDoc prevComments) in
    syncCommentPositionsWithEditorState editorDoc updatedComments
    = (updatedComments, false).
Proof.
  intros doc prev. simpl.
  apply injective_projections.
  - rewrite (sync_fst doc (fst _)), (sync_fst doc prev). simpl.
    rewrite map_map. apply map_ext. intros c.
    by rewrite syncComment_idempotent.
  - rewrite (sync_snd doc (fst _)), (sync_fst doc prev). simpl.
    induction prev as [|c r IH]; simpl; [done|].
    by rewrite syncComment_idempotent.
Qed.

(** C2, as the code has it.  A bound comment with a non-empty id whose
    marker is on no text leaf is orphaned by the synchronizer: [from] and
    [to] are cleared, [textFragment] becomes ["[ORPHANED] "] followed by the
    previous fragment, or by ["No original text"] when that fragment was
    empty or missing; the comment stays in the collection, at its place, and
    the change is reported. *)
Theorem sync_orphans_bound_comment :
  forall (editorDoc : Node) (prevComments : list InlineComment) (i : nat)
         (c : InlineComment) (p : Position) (f t : Z),
    prevComments !! i = Some c ->
    id c <> [] ->
    position c = Some p -> from p = Some f -> to p = Some t ->
    markerRuns (id c) editorDoc = [] ->
    let result := syncCommentPositionsWithEditorState editorDoc prevComments in
    snd result = true
    /\ length (fst result) = length prevComments
    /\ fst result !! i
       = Some (withPosition c
                 (orphanPosition
                    match textFragment p with
                    | Some fragment =>
                        if nonEmpty fragment then fragment else NoOriginalText
                    | None => NoOriginalText
                    end)).
Proof.
  intros doc prev i c p f t Hi Hid Hp Hf _ Hruns. simpl.
  pose proof (syncComment_no_marker doc c p f Hid Hp Hf Hruns) as Hs.
  split; [|split].
  - eapply sync_changed; [done|]. by rewrite Hs.
  - by rewrite sync_fst, length_map.
  - by rewrite (sync_lookup doc prev i c), Hs.
Qed.

Lemma sync_orphans_bound_comment_witness :
  let c := sampleComment
             (Some (mkPosition (Some (str "ab")) (Some 1) (Some 3) None None None)) in
  fst (syncCommentPositionsWithEditorState Samples.twoParagraphs [c]) !! 0%nat
  = Some (withPosition c (orphanPosition (str "ab"))).
Proof.
  intros c.
  refine (proj2 (proj2 (sync_orphans_bound_comment Samples.twoParagraphs [c] 0 c
            (mkPosition (Some (str "ab")) (Some 1) (Some 3) None None None) 1 3
            _ _ _ _ _ _))); try reflexivity.
  discriminate.
Defined.

(** C2, as stated, fails where the stored fragment is the empty string: the
    comment bound to a selected rule is orphaned with the placeholder text,
    which is not the orphan prefix followed by the retained fragment. *)
Lemma sync_orphan_empty_fragment_not_retained :
  isBound Samples.boundToRule
  /\ markerRuns (id Samples.boundToRule) Samples.ruleOnly = []
  /\ syncCommentPositionsWithEditorState Samples.ruleOnly [Samples.boundToRule]
     = ([withPosition Samples.boundToRule
           (orphanPosition (str "No original text"))], true)
  /\ orphanPosition (str "No original text") <> orphanPosition [].
Proof.
  split; [|split; [reflexivity | split; [reflexivity | discriminate]]].
  by exists (mkPosition (Some []) (Some 0) (Some 1) None None None), 0, 1.
Qed.

(** C3, as the code has it.  An orphaned comment is left unchanged by every
    run of the synchronizer on a document in which no text leaf carries a
    marker with its id, whatever text the document holds; on a document in
    which such a marker is present, the synchronizer binds it again, to the
    coalesced range of the marker. *)
Theorem sync_orphaned_rebinds_only_on_marker :
  forall (editorDoc : Node) (prevComments : list InlineComment) (i : nat)
         (c : InlineComment),
    prevComments !! i = Some c ->
    isOrphaned c ->
    let result := syncCommentPositionsWithEditorState editorDoc prevComments in
    (markerRuns (id c) editorDoc = [] -> fst result !! i = Some c)
    /\ (forall range,
           id c <> [] ->
           coalesce (markerRuns (id c) editorDoc) = Some range ->
           snd result = true
           /\ fst result !! i = Some (withPosition c (boundPosition editorDoc range))).
Proof.
  intros doc prev i c Hi Ho. simpl. split.
  - intros Hruns. rewrite (sync_lookup doc prev i c) by done.
    rewrite syncComment_orphaned_no_marker; auto.
  - intros range Hid Hruns.
    pose proof (syncComment_orphaned_marker doc c range Ho Hid Hruns) as Hs.
    split.
    + eapply sync_changed; [done|]. by rewrite Hs.
    + by rewrite (sync_lookup doc prev i c), Hs.
Qed.

Lemma sync_orphaned_rebinds_only_on_marker_witness :
  fst (syncCommentPositionsWithEditorState Samples.twoParagraphs
         [Samples.orphanedComment]) !! 0%nat
  = Some Samples.orphanedComment.
Proof.
  refine (proj1 (sync_orphaned_rebinds_only_on_marker Samples.twoParagraphs
            [Samples.orphanedComment] 0 Samples.orphanedComment _ _) _);
    try reflexivity.
  by exists (mkPosition (Some (str "[ORPHANED] ab")) None None None None None).
Defined.

(** C3, as stated, fails: an orphaned comment whose marker is in the
    document again gets numeric [from] and [to] from the next run. *)
Lemma sync_rebinds_orphaned_comment :
  isOrphaned Samples.orphanedComment
  /\ syncCommentPositionsWithEditorState Samples.markedParagraph
       [Samples.orphanedComment]
     = ([withPosition Samples.orphanedComment
           (mkPosition (Some (str "ab")) (Some 1) (Some 3) None None None)],
        true).
Proof.
  split; [|reflexivity].
  by exists (mkPosition (Some (str "[ORPHANED] ab")) None None None None None).
Qed.

End SyncFacts.

(** ** Loading persisted comments *)

Module StorageFacts.
Import Storage StorageSamples.

Lemma hasTyped_spec (value : Json) (key : jsstring) (t : JsType) :
  hasProp key value && isType t (getProp value key) = true
  <-> hasTyped value key t.
Proof.
  unfold hasProp, isType, hasTyped. destruct (getProp value key) as [v|]; simpl.
  - rewrite bool_decide_eq_true. split; [eauto|]. by intros (v' & [= <-] & ?).
  - split; [done|]. by intros (v' & ? & _).
Qed.

Lemma optionalField_spec (position : Json) (key : jsstring) (t : JsType) :
  optionalField position key t = true <-> absentOrTyped position key t.
Proof.
  unfold optionalField, absentOrTyped, hasProp, isType, hasTyped.
  destruct (getProp position key) as [v|]; simpl.
  - rewrite bool_decide_eq_true. split; [eauto|].
    intros [?|(v' & [= <-] & ?)]; done.
  - split; [by left | done].
Qed.

Lemma hasTyped_object (value : Json) (key : jsstring) (t : JsType) :
  hasTyped value key t ->
  isType TObject (Some value) = true /\ isNull value = false.
Proof. intros (v & H & _). by destruct value. Qed.

(** The loader's condition is structural validity. *)
Lemma validCommentData_spec (record : Json) :
  validCommentData record = true <-> StructurallyValid record.
Proof.
  unfold validCommentData, StructurallyValid.
  assert (Hp : hasProp (str "position") record = false
               \/ match getProp record (str "position") with
                  | Some position =>
                      isType TObject (Some position)
                      && negb (isNull position)
                      && optionalField position (str "from") TNumber
                      && optionalField position (str "to") TNumber
                      && optionalField position (str "textFragment") TString
                      && optionalField position (str "path") TString
                      && optionalField position (str "startOffset") TNumber
                      && optionalField position (str "endOffset") TNumber
                  | None => false
                  end = true
               <-> getProp record (str "position") = None
                   \/ exists position,
                        getProp record (str "position") = Some position
                        /\ typeOf (Some position) = TObject /\ position <> JNull
                        /\ absentOrTyped position (str "from") TNumber
                        /\ absentOrTyped position (str "to") TNumber
                        /\ absentOrTyped position (str "textFragment") TString
                        /\ absentOrTyped position (str "path") TString
                        /\ absentOrTyped position (str "startOffset") TNumber
                        /\ absentOrTyped position (str "endOffset") TNumber).
  { unfold hasProp. destruct (getProp record (str "position")) as [position|].
    - rewrite !andb_true_iff, !optionalField_spec, negb_true_iff.
      unfold isType. rewrite bool_decide_eq_true.
      split.
      + intros [?|H]; [done|].
        destruct H as [[[[[[[Ht Hn] ?] ?] ?] ?] ?] ?].
        right. exists position. repeat split; try done.
        intros ->. done.
      + intros [?|(p' & [= <-] & Ht & Hn & ? & ? & ? & ? & ? & ?)]; [done|].
        right. repeat split; try done. by destruct position.
    - split; [by left | intros _; by left]. }
  split.
  - intros H.
    repeat match type of H with
           | _ && _ = true => apply andb_true_iff in H as [H ?]
           end.
    repeat split.
    + apply hasTyped_spec. by apply andb_true_iff.
    + apply hasTyped_spec. by apply andb_true_iff.
    + apply hasTyped_spec. by apply andb_true_iff.
    + rewrite <- !hasTyped_spec, !andb_true_iff.
      match goal with
      | Hc : _ || _ = true |- context [str "createdAt"] =>
          apply orb_true_iff in Hc as [Hc|Hc]; [left | right]; by split
      end.
    + apply Hp.
      match goal with
      | Hq : negb _ || _ = true |- _ =>
          apply orb_true_iff in Hq as [Hq|Hq];
            [left; by apply negb_true_iff in Hq | by right]
      end.
  - intros (Hid & Hau & Htx & Hcr & Hpos).
    destruct (hasTyped_object _ _ _ Hid) as [Ho Hn].
    apply hasTyped_spec, andb_true_iff in Hid as [Hid1 Hid2].
    apply hasTyped_spec, andb_true_iff in Hau as [Hau1 Hau2].
    apply hasTyped_spec, andb_true_iff in Htx as [Htx1 Htx2].
    apply Hp in Hpos.
    rewrite Ho, Hn, Hid1, Hid2, Hau1, Hau2, Htx1, Htx2. simpl.
    apply andb_true_iff. split.
    + destruct Hcr as [Hcr|Hcr];
        apply hasTyped_spec, andb_true_iff in Hcr as [-> ->]; simpl;
        [done | by rewrite orb_true_r].
    + apply orb_true_iff.
      destruct Hpos as [Hpos|Hpos]; [left; by rewrite Hpos | by right].
Qed.

(** The loader that validates keeps exactly the structurally valid records,
    in their order, each turned into a comment; a record that is not valid
    is dropped and the others are still returned. *)
Lemma loadCommentsFromStorage_keeps_valid (records : list Json) :
  loadCommentsFromStorage (Parsed (JArray records))
  = map buildComment (filter (fun r => validCommentData r = true) records).
Proof.
  cbn [loadCommentsFromStorage].
  induction records as [|r rs IH]; [done|].
  rewrite filter_cons. cbn [omap list_omap]. unfold loadValidated at 1.
  destruct (validCommentData r) eqn:Hv.
  - rewrite decide_True by done. cbn. by rewrite <- IH.
  - by rewrite decide_False by congruence.
Qed.

Lemma loadCommentsFromStorage_app (l1 l2 : list Json) :
  loadCommentsFromStorage (Parsed (JArray (l1 ++ l2)))
  = loadCommentsFromStorage (Parsed (JArray l1))
    ++ loadCommentsFromStorage (Parsed (JArray l2)).
Proof. simpl. apply omap_app. Qed.

Lemma loadCommentsFromStorage_drops_invalid (l1 l2 : list Json) (r : Json) :
  ~ StructurallyValid r ->
  loadCommentsFromStorage (Parsed (JArray (l1 ++ r :: l2)))
  = loadCommentsFromStorage (Parsed (JArray (l1 ++ l2))).
Proof.
  intros Hr. rewrite !loadCommentsFromStorage_keeps_valid, !filter_app, filter_cons.
  rewrite decide_False; [done|]. by rewrite validCommentData_spec.
Qed.

(** C9 against the code.  The loader of the second file asks of a record
    only that its type be object: on the batch [[null, record]] the read of
    a property of [null] throws, the [catch] returns the empty list and the
    valid record is lost; on [[{}, record]] the malformed record is returned,
    with every field undefined.  The loader of the first file drops the
    malformed record and returns the valid one on both. *)
Theorem unchecked_loader_aborts_or_keeps_malformed :
  StructurallyValid validRecord
  /\ ~ StructurallyValid JNull /\ ~ StructurallyValid (JObject [])
  /\ loadCommentsFromStorage_unchecked (Parsed (JArray [JNull; validRecord])) = []
  /\ loadCommentsFromStorage_unchecked (Parsed (JArray [JObject []; validRecord]))
     = [mkLoaded None None None None None; buildComment validRecord]
  /\ loadCommentsFromStorage (Parsed (JArray [JNull; validRecord]))
     = [buildComment validRecord]
  /\ loadCommentsFromStorage (Parsed (JArray [JObject []; validRecord]))
     = [buildComment validRecord].
Proof.
  split; [by apply validCommentData_spec|].
  split; [by rewrite <- validCommentData_spec|].
  split; [by rewrite <- validCommentData_spec|].
  repeat split; reflexivity.
Qed.

End StorageFacts.

(** ** The document tree, its cells and the steps over it *)

Module TreeFacts.
Import ProseMirror Transform TiptapUtils SyncSpec DocSpec.

(** Induction over the tree, with the hypothesis for every child. *)
Lemma Node_ind_nested (P : Node -> Prop) :
  (forall t marks, P (Text t marks)) ->
  (forall k, P (Leaf k)) ->
  (forall k content, Forall P content -> P (Elem k content)) ->
  forall n, P n.
Proof.
  intros HT HL HE. fix IH 1. intros [t marks|k|k content].
  - apply HT.
  - apply HL.
  - apply HE. induction content as [|c r IHr]; constructor; [apply IH | apply IHr].
Qed.

(** *** Unfolding *)

Lemma nodeSize_Elem k (cs : list Node) :
  nodeSize (Elem k cs) = 2 + fragmentSize cs.
Proof. reflexivity. Qed.

Lemma fragmentSize_cons (c : Node) (r : list Node) :
  fragmentSize (c :: r) = nodeSize c + fragmentSize r.
Proof. reflexivity. Qed.

Lemma contentSize_Elem k (cs : list Node) :
  contentSize (Elem k cs) = fragmentSize cs.
Proof. reflexivity. Qed.

Lemma allNodes_Elem k (cs : list Node) (s : Z) :
  allNodes (Elem k cs) s = allNodesFragment cs s.
Proof. reflexivity. Qed.

Lemma allNodesFragment_cons (c : Node) (r : list Node) (p : Z) :
  allNodesFragment (c :: r) p
  = (c, p) :: allNodes c (p + 1) ++ allNodesFragment r (p + nodeSize c).
Proof. reflexivity. Qed.

Lemma nodesBetween_Elem k (cs : list Node) (f t s : Z) :
  nodesBetween (Elem k cs) f t s = fragmentBetween cs f t s 0.
Proof. reflexivity. Qed.

Lemma fragmentBetween_cons (c : Node) (r : list Node) (f t s p : Z) :
  fragmentBetween (c :: r) f t s p
  = if decide (p < t) then
      (if decide (f < p + nodeSize c) then
         (c, s + p) ::
         (if decide (0 < contentSize c) then
            nodesBetween c (Z.max 0 (f - (p + 1)))
              (Z.min (contentSize c) (t - (p + 1))) (s + (p + 1))
          else [])
       else [])
      ++ fragmentBetween r f t s (p + nodeSize c)
    else [].
Proof. reflexivity. Qed.

Lemma stepNode_Elem change (F T pos : Z) k (cs : list Node) :
  stepNode change F T pos (Elem k cs)
  = [Elem k (stepFragment change F T cs (pos + 1))].
Proof. reflexivity. Qed.

Lemma stepFragment_cons change (F T : Z) (c : Node) (r : list Node) (p : Z) :
  stepFragment change F T (c :: r) p
  = stepNode change F T p c ++ stepFragment change F T r (p + nodeSize c).
Proof. reflexivity. Qed.

Lemma wellFormed_Elem k (cs : list Node) :
  wellFormed (Elem k cs) = wellFormedFragment cs.
Proof. reflexivity. Qed.

Lemma wellFormedFragment_cons (c : Node) (r : list Node) :
  wellFormedFragment (c :: r) = true
  <-> wellFormed c = true /\ wellFormedFragment r = true.
Proof. apply andb_true_iff. Qed.

Lemma wellFormedFragment_app (l r : list Node) :
  wellFormedFragment (l ++ r) = true
  <-> wellFormedFragment l = true /\ wellFormedFragment r = true.
Proof. unfold wellFormedFragment. rewrite forallb_app. apply andb_true_iff. Qed.

(** *** Sizes and bounds *)

Lemma fragmentSize_app (l r : list Node) :
  fragmentSize (l ++ r) = fragmentSize l + fragmentSize r.
Proof.
  induction l as [|c l IH]; [done|].
  rewrite <- app_comm_cons, !fragmentSize_cons, IH. lia.
Qed.

(** A well-formed node takes up at least one position. *)
Lemma nodeSize_pos (n : Node) : wellFormed n = true -> 1 <= nodeSize n.
Proof.
  induction n as [t marks|k|k cs IH] using Node_ind_nested; intros Hwf.
  - destruct t; [done|]. cbn [nodeSize length]. lia.
  - cbn. lia.
  - rewrite nodeSize_Elem. rewrite wellFormed_Elem in Hwf.
    assert (0 <= fragmentSize cs); [|lia].
    induction cs as [|c r IHr]; [done|].
    apply wellFormedFragment_cons in Hwf as [Hc Hr].
    apply Forall_cons in IH as [IHc IHrest].
    rewrite fragmentSize_cons. specialize (IHc Hc). specialize (IHr IHrest Hr). lia.
Qed.

Lemma fragmentSize_nonneg (cs : list Node) :
  wellFormedFragment cs = true -> 0 <= fragmentSize cs.
Proof.
  induction cs as [|c r IH]; intros Hwf; [done|].
  apply wellFormedFragment_cons in Hwf as [Hc Hr]. rewrite fragmentSize_cons.
  pose proof (nodeSize_pos c Hc). specialize (IH Hr). lia.
Qed.

Lemma wellFormed_children (n : Node) :
  wellFormed n = true -> wellFormedFragment (children n) = true.
Proof. by destruct n. Qed.

Lemma nodeSize_content (n : Node) :
  wellFormed n = true -> contentSize n + 1 <= nodeSize n.
Proof.
  intros Hwf. pose proof (nodeSize_pos n Hwf).
  destruct n as [t ms|k|k cs]; [done | done |].
  rewrite nodeSize_Elem, contentSize_Elem. lia.
Qed.

(** Every descendant lies inside its ancestor. *)
Lemma allNodes_bounds (n : Node) :
  wellFormed n = true ->
  forall s v, v ∈ allNodes n s ->
    s <= snd v /\ snd v + nodeSize (fst v) <= s + contentSize n.
Proof.
  induction n as [t marks|k|k cs IH] using Node_ind_nested; intros Hwf s v Hv.
  - by inversion Hv.
  - by inversion Hv.
  - rewrite allNodes_Elem in Hv. rewrite wellFormed_Elem in Hwf.
    rewrite contentSize_Elem.
    revert s Hv. induction cs as [|c r IHr]; intros s Hv; [by inversion Hv|].
    apply wellFormedFragment_cons in Hwf as [Hc Hr].
    apply Forall_cons in IH as [IHc IHrest].
    rewrite allNodesFragment_cons in Hv. rewrite fragmentSize_cons.
    pose proof (nodeSize_content c Hc).
    pose proof (fragmentSize_nonneg r Hr).
    pose proof (fragmentSize_nonneg _ (wellFormed_children c Hc)).
    apply elem_of_cons in Hv as [->|Hv]; [cbn [fst snd]; lia|].
    apply elem_of_app in Hv as [Hv|Hv].
    + apply (IHc Hc) in Hv. lia.
    + apply (IHr IHrest Hr) in Hv. pose proof (nodeSize_pos c Hc). lia.
Qed.

Lemma allNodesFragment_bounds (cs : list Node) (p : Z) v :
  wellFormedFragment cs = true -> v ∈ allNodesFragment cs p ->
  p <= snd v /\ snd v + nodeSize (fst v) <= p + fragmentSize cs.
Proof.
  intros Hwf Hv.
  apply (allNodes_bounds (Elem (mkKind [] None true false []) cs) Hwf p v Hv).
Qed.

(** The descendants of a well-formed node are well-formed. *)
Lemma allNodes_wellFormed (n : Node) :
  wellFormed n = true ->
  forall s v, v ∈ allNodes n s -> wellFormed (fst v) = true.
Proof.
  induction n as [t marks|k|k cs IH] using Node_ind_nested; intros Hwf s v Hv.
  - by inversion Hv.
  - by inversion Hv.
  - rewrite allNodes_Elem in Hv. rewrite wellFormed_Elem in Hwf.
    revert s Hv. induction cs as [|c r IHr]; intros s Hv; [by inversion Hv|].
    apply wellFormedFragment_cons in Hwf as [Hc Hr].
    apply Forall_cons in IH as [IHc IHrest].
    rewrite allNodesFragment_cons in Hv.
    apply elem_of_cons in Hv as [->|Hv]; [done|].
    apply elem_of_app in Hv as [Hv|Hv]; [by apply (IHc Hc) in Hv | by apply (IHr IHrest Hr) in Hv].
Qed.

Lemma allNodes_nil_content (n : Node) (s : Z) :
  wellFormed n = true -> ~ 0 < contentSize n -> allNodes n s = [].
Proof.
  intros Hwf Hs. destruct n as [t ms|k|k [|c r]]; try done.
  exfalso. apply Hs. rewrite contentSize_Elem, fragmentSize_cons.
  rewrite wellFormed_Elem in Hwf. apply wellFormedFragment_cons in Hwf as [Hc Hr].
  pose proof (nodeSize_pos c Hc). pose proof (fragmentSize_nonneg r Hr). lia.
Qed.

(** *** [nodesBetween] visits the nodes that meet the range *)

Lemma filter_nil_not {A} (P : A -> Prop) `{forall x, Decision (P x)} (l : list A) :
  (forall x, x ∈ l -> ~ P x) -> filter P l = [].
Proof.
  induction l as [|x l IH]; intros Hl; [done|].
  rewrite filter_cons, decide_False by (apply Hl; left).
  apply IH. intros y Hy. apply Hl. by right.
Qed.

Lemma nodesBetween_filter (n : Node) :
  wellFormed n = true ->
  forall f t fr tr s,
    (forall x, 0 < x -> (fr < x <-> f - s < x)) ->
    (forall y, y < contentSize n -> (y < tr <-> y < t - s)) ->
    nodesBetween n fr tr s = filter (overlaps f t) (allNodes n s).
Proof.
  induction n as [tx marks|k|k cs IH] using Node_ind_nested;
    intros Hwf f t fr tr s Hfr Htr; [done | done |].
  rewrite nodesBetween_Elem, allNodes_Elem. rewrite wellFormed_Elem in Hwf.
  rewrite contentSize_Elem in Htr.
  assert (Hgen : forall p, 0 <= p ->
            (forall y, y < p + fragmentSize cs -> (y < tr <-> y < t - s)) ->
            fragmentBetween cs fr tr s p
            = filter (overlaps f t) (allNodesFragment cs (s + p))).
  { clear Htr. induction cs as [|c r IHr]; intros p Hp Htr; [done|].
    apply wellFormedFragment_cons in Hwf as [Hc Hr].
    apply Forall_cons in IH as [IHc IHrest].
    rewrite fragmentBetween_cons, allNodesFragment_cons.
    rewrite fragmentSize_cons in Htr.
    pose proof (nodeSize_content c Hc) as Hsz.
    pose proof (fragmentSize_nonneg r Hr) as Hrs.
    pose proof (nodeSize_pos c Hc) as Hpos.
    assert (Hcs : 0 <= contentSize c)
      by apply (fragmentSize_nonneg _ (wellFormed_children c Hc)).
    destruct (decide (p < tr)) as [Hlt|Hge].
    - (* the loop goes on *)
      rewrite filter_cons, filter_app.
      rewrite (IHr IHrest Hr (p + nodeSize c)) by (intros; try apply Htr; lia).
      replace (s + (p + nodeSize c)) with (s + p + nodeSize c) by lia.
      destruct (decide (fr < p + nodeSize c)) as [Hin|Hout].
      + rewrite (decide_True (P := overlaps f t (c, s + p))).
        2:{ unfold overlaps. cbn [fst snd]. apply Htr in Hlt; [|lia].
            apply Hfr in Hin; lia. }
        rewrite <- app_comm_cons. do 2 f_equal.
        replace (s + p + 1) with (s + (p + 1)) by lia.
        destruct (decide (0 < contentSize c)) as [Hne|He].
        * apply (IHc Hc f t).
          -- intros x Hx. pose proof (Hfr (x + (p + 1)) ltac:(lia)). lia.
          -- intros y Hy. pose proof (Htr (y + (p + 1)) ltac:(lia)). lia.
        * rewrite allNodes_nil_content by done. done.
      + rewrite (decide_False (P := overlaps f t (c, s + p))).
        2:{ unfold overlaps. cbn [fst snd]. intros [_ H]. apply Hout, Hfr; lia. }
        rewrite (filter_nil_not _ (allNodes c _)); [done|].
        intros v Hv [_ H].
        apply (allNodes_bounds c Hc) in Hv. apply Hout, Hfr; lia.
    - (* the loop stops: nothing further meets the range *)
      symmetry. apply filter_nil_not. intros v Hv [H _].
      assert (s + p <= snd v).
      { apply elem_of_cons in Hv as [->|Hv]; [cbn [fst snd]; lia|].
        apply elem_of_app in Hv as [Hv|Hv].
        - apply (allNodes_bounds c Hc) in Hv. lia.
        - apply allNodesFragment_bounds in Hv; [lia | done]. }
      apply Hge, Htr; lia. }
  rewrite (Hgen 0); [by rewrite Z.add_0_r | lia |].
  intros y Hy. apply Htr. lia.
Qed.

(** On a well-formed document [nodesBetween] hands over exactly the
    descendants that meet the range. *)
Lemma nodesBetween_overlaps (doc : Node) (f t : Z) :
  wellFormed doc = true ->
  nodesBetween doc f t 0 = filter (overlaps f t) (allNodes doc 0).
Proof.
  intros Hwf. apply nodesBetween_filter; [done | |]; intros; lia.
Qed.

Lemma descendants_all (doc : Node) :
  wellFormed doc = true -> descendants doc = allNodes doc 0.
Proof.
  intros Hwf. unfold descendants. rewrite nodesBetween_overlaps by done.
  pose proof (allNodes_bounds doc Hwf 0) as Hb.
  pose proof (allNodes_wellFormed doc Hwf 0) as Hw.
  induction (allNodes doc 0) as [|v l IHl]; [done|].
  pose proof (Hb v (list_elem_of_here _ _)) as Hv.
  pose proof (nodeSize_pos _ (Hw v (list_elem_of_here _ _))) as Hs.
  rewrite filter_cons, decide_True, IHl; [done | | |].
  - intros w Hin. apply Hb. by right.
  - intros w Hin. apply Hw. by right.
  - unfold overlaps. lia.
Qed.

(** *** Fragments of text nodes *)

Lemma allNodesFragment_app (l r : list Node) (p : Z) :
  allNodesFragment (l ++ r) p
  = allNodesFragment l p ++ allNodesFragment r (p + fragmentSize l).
Proof.
  revert p. induction l as [|c l IH]; intros p.
  - simpl. f_equal. unfold fragmentSize. simpl. lia.
  - rewrite <- app_comm_cons, !allNodesFragment_cons, IH, fragmentSize_cons.
    rewrite <- app_comm_cons, <- app_assoc.
    by replace (p + (nodeSize c + fragmentSize l))
      with (p + nodeSize c + fragmentSize l) by lia.
Qed.

Lemma cellsOf_app (l r : list (Node * Z)) :
  cellsOf (l ++ r) = cellsOf l ++ cellsOf r.
Proof. unfold cellsOf. apply bind_app. Qed.

Lemma cellsOf_nil (p : Z) : cellsOf (allNodesFragment [] p) = [].
Proof. reflexivity. Qed.

Lemma cellsOf_cons (v : Node * Z) (l : list (Node * Z)) :
  cellsOf (v :: l) = cellsOfNode v ++ cellsOf l.
Proof. reflexivity. Qed.

Lemma textCells_app (t1 t2 : jsstring) (p : Z) (marks : list Mark) :
  textCells p (t1 ++ t2) marks
  = textCells p t1 marks ++ textCells (p + Z.of_nat (length t1)) t2 marks.
Proof.
  revert p. induction t1 as [|c t1 IH]; intros p.
  - simpl. f_equal. lia.
  - cbn [app textCells length]. rewrite IH. do 3 f_equal. lia.
Qed.

Lemma textCells_bounds (t : jsstring) (p : Z) (marks : list Mark) c :
  c ∈ textCells p t marks ->
  p <= fst c < p + Z.of_nat (length t) /\ snd c = marks.
Proof.
  revert p. induction t as [|a t IH]; intros p Hc; [by inversion Hc|].
  cbn [textCells length] in *. apply elem_of_cons in Hc as [->|Hc].
  - split; [cbn [fst]; lia | done].
  - apply IH in Hc as [? ?]. split; [lia | done].
Qed.

Lemma textCells_elem (t : jsstring) (p x : Z) (marks : list Mark) :
  p <= x < p + Z.of_nat (length t) -> (x, marks) ∈ textCells p t marks.
Proof.
  revert p. induction t as [|a t IH]; intros p Hx; cbn [textCells length] in *; [lia|].
  destruct (decide (x = p)) as [->|Hne]; [left|].
  right. apply IH. lia.
Qed.

(** What a step does to the cells of one text node. *)
Lemma stepMarks_inside change (F T p : Z) (t : jsstring) (marks : list Mark) :
  F <= p -> p + Z.of_nat (length t) <= T ->
  map (stepMarks change F T) (textCells p t marks)
  = textCells p t (default marks (change marks)).
Proof.
  revert p. induction t as [|a t IH]; intros p H1 H2; [done|].
  cbn [textCells length map] in *. rewrite IH by lia. f_equal.
  unfold stepMarks. simpl. rewrite decide_True; [done | lia].
Qed.

Lemma stepMarks_outside change (F T p : Z) (t : jsstring) (marks : list Mark) :
  length t = 0%nat \/ p + Z.of_nat (length t) <= F \/ T <= p \/ T <= F ->
  map (stepMarks change F T) (textCells p t marks) = textCells p t marks.
Proof.
  revert p. induction t as [|a t IH]; intros p H; [done|].
  cbn [textCells length map] in *. rewrite IH by lia. f_equal.
  unfold stepMarks. simpl. rewrite decide_False; [done | lia].
Qed.

Lemma allNodesFragment_Text (t : jsstring) (marks : list Mark) (r : list Node) (p : Z) :
  allNodesFragment (Text t marks :: r) p
  = (Text t marks, p) :: allNodesFragment r (p + Z.of_nat (length t)).
Proof. reflexivity. Qed.

(** The pieces [remarkText] cuts a text node into: their sizes add up, and
    their cells are the cells of the node with the marks changed inside the
    range. *)
Lemma remarkText_size (F T p : Z) (t : jsstring) (marks marks' : list Mark) :
  fragmentSize (remarkText F T p t marks marks') = Z.of_nat (length t).
Proof.
  unfold remarkText.
  destruct (decide (Z.max F p - p < Z.min T (p + Z.of_nat (length t)) - p)) as [Hab|];
    [|unfold fragmentSize; simpl; lia].
  repeat case_decide; unfold fragmentSize; simpl;
    rewrite ?length_take, ?length_drop; lia.
Qed.

Lemma remarkText_wellFormed (F T p : Z) (t : jsstring) (marks marks' : list Mark) :
  nonEmpty t = true ->
  wellFormedFragment (remarkText F T p t marks marks') = true.
Proof.
  intros Ht. unfold remarkText.
  assert (Hne : forall s : jsstring, (0 < length s)%nat -> nonEmpty s = true)
    by (intros [|? ?] ?; simpl in *; [lia | done]).
  destruct (decide (Z.max F p - p < Z.min T (p + Z.of_nat (length t)) - p)) as [Hab|].
  - repeat case_decide; unfold wellFormedFragment; simpl;
      rewrite ?andb_true_r, ?andb_true_iff; repeat split;
      apply Hne; rewrite ?length_take, ?length_drop; lia.
  - unfold wellFormedFragment. simpl. by rewrite Ht.
Qed.

Lemma remarkText_cells change (F T p : Z) (t : jsstring) (marks : list Mark) :
  cellsOf (allNodesFragment
             (remarkText F T p t marks (default marks (change marks))) p)
  = map (stepMarks change F T) (textCells p t marks).
Proof.
  unfold remarkText.
  remember (Z.of_nat (length t)) as len eqn:Elen.
  remember (Z.max F p - p) as a eqn:Ea.
  remember (Z.min T (p + len) - p) as b eqn:Eb.
  destruct (decide (a < b)) as [Hab|Hab].
  - assert (Ht : t = take (Z.to_nat a) t
                     ++ take (Z.to_nat (b - a)) (drop (Z.to_nat a) t)
                     ++ drop (Z.to_nat b) t).
    { rewrite <- (take_drop (Z.to_nat a) t) at 1. f_equal.
      rewrite <- (take_drop (Z.to_nat (b - a)) (drop (Z.to_nat a) t)) at 1.
      f_equal. rewrite drop_drop. f_equal. lia. }
    transitivity (map (stepMarks change F T)
                    (textCells p (take (Z.to_nat a) t
                                  ++ take (Z.to_nat (b - a)) (drop (Z.to_nat a) t)
                                  ++ drop (Z.to_nat b) t) marks));
      [|by rewrite <- Ht].
    clear Ht. rewrite !textCells_app, !map_app.
    assert (La : Z.of_nat (length (take (Z.to_nat a) t)) = a).
    { rewrite length_take. lia. }
    assert (Lm : Z.of_nat (length (take (Z.to_nat (b - a)) (drop (Z.to_nat a) t))) = b - a).
    { clear La. rewrite length_take, length_drop. lia. }
    rewrite stepMarks_outside by lia.
    rewrite La, Lm.
    rewrite stepMarks_inside by lia.
    rewrite stepMarks_outside by (rewrite length_drop; lia).
    replace (p + a + (b - a)) with (p + b) by lia.
    destruct (decide (0 < a)) as [Ha|Ha]; destruct (decide (b < len)) as [Hb|Hb];
      cbn [app]; rewrite ?allNodesFragment_Text, ?cellsOf_cons, ?La, ?Lm;
      unfold cellsOfNode; cbn [fst snd];
      replace (p + a + (b - a)) with (p + b) by lia;
      rewrite ?cellsOf_nil, ?app_nil_r.
    + done.
    + rewrite (drop_ge t (Z.to_nat b)) by lia. by rewrite ?app_nil_r.
    + assert (a = 0) as Ha0 by lia. rewrite Ha0.
      change (Z.to_nat 0) with 0%nat.
      by rewrite take_0, Z.sub_0_r, Z.add_0_r.
    + assert (a = 0) as Ha0 by lia. rewrite Ha0.
      change (Z.to_nat 0) with 0%nat.
      rewrite (drop_ge t (Z.to_nat b)) by lia.
      by rewrite take_0, Z.sub_0_r, Z.add_0_r, ?app_nil_r.
  - rewrite allNodesFragment_Text, cellsOf_cons. unfold cellsOfNode. cbn [fst snd].
    rewrite stepMarks_outside; [by rewrite app_nil_r|]. lia.
Qed.

Lemma cellsOfNode_Text (t : jsstring) (marks : list Mark) (p : Z) :
  cellsOfNode (Text t marks, p) = textCells p t marks.
Proof. reflexivity. Qed.

Lemma cellsOfNode_Elem k (cs : list Node) (p : Z) :
  cellsOfNode (Elem k cs, p) = [].
Proof. reflexivity. Qed.

Lemma allNodesFragment_nil (p : Z) : allNodesFragment [] p = [].
Proof. reflexivity. Qed.

Lemma stepMarks_unchanged chg (F T p : Z) (t : jsstring) (marks : list Mark) :
  chg marks = None ->
  map (stepMarks chg F T) (textCells p t marks) = textCells p t marks.
Proof.
  intros Hc. revert p. induction t as [|a t IH]; intros p; [done|].
  cbn [textCells map]. rewrite IH. f_equal.
  unfold stepMarks. cbn [fst snd]. rewrite Hc. by destruct (decide _).
Qed.

(** *** A step keeps sizes and well-formedness *)

Lemma stepNode_size chg (F T : Z) (n : Node) (p : Z) :
  fragmentSize (stepNode chg F T p n) = nodeSize n.
Proof.
  revert p. induction n as [t marks|k|k cs IH] using Node_ind_nested; intros p.
  - cbn [stepNode]. destruct (chg marks); [apply remarkText_size|].
    unfold fragmentSize. simpl. lia.
  - unfold fragmentSize. simpl. lia.
  - rewrite stepNode_Elem. unfold fragmentSize at 1. cbn [sumSizes].
    rewrite !nodeSize_Elem.
    assert (fragmentSize (stepFragment chg F T cs (p + 1)) = fragmentSize cs) as ->;
      [|lia].
    generalize (p + 1). induction cs as [|c r IHr]; intros q; [done|].
    apply Forall_cons in IH as [IHc IHrest].
    rewrite stepFragment_cons, fragmentSize_app, fragmentSize_cons, IHc, IHr; done.
Qed.

Lemma stepFragment_size chg (F T : Z) (cs : list Node) (p : Z) :
  fragmentSize (stepFragment chg F T cs p) = fragmentSize cs.
Proof.
  revert p. induction cs as [|c r IH]; intros p; [done|].
  by rewrite stepFragment_cons, fragmentSize_app, fragmentSize_cons, stepNode_size, IH.
Qed.

Lemma stepNode_wellFormed chg (F T : Z) (n : Node) (p : Z) :
  wellFormed n = true -> wellFormedFragment (stepNode chg F T p n) = true.
Proof.
  revert p. induction n as [t marks|k|k cs IH] using Node_ind_nested; intros p Hwf.
  - cbn [stepNode]. destruct (chg marks); [by apply remarkText_wellFormed|].
    unfold wellFormedFragment. simpl in *. by rewrite Hwf.
  - done.
  - rewrite stepNode_Elem. unfold wellFormedFragment. cbn [forallb].
    rewrite andb_true_r, wellFormed_Elem. rewrite wellFormed_Elem in Hwf.
    generalize (p + 1). induction cs as [|c r IHr]; intros q; [done|].
    apply Forall_cons in IH as [IHc IHrest].
    apply wellFormedFragment_cons in Hwf as [Hc Hr].
    rewrite stepFragment_cons. apply wellFormedFragment_app. split; auto.
Qed.

Lemma stepDoc_wellFormed chg (F T : Z) (doc : Node) :
  wellFormed doc = true -> wellFormed (stepDoc chg F T doc) = true.
Proof.
  destruct doc as [t ms|k|k cs]; [done | done |]. intros Hwf.
  pose proof (stepNode_wellFormed chg F T (Elem k cs) (-1) Hwf) as H.
  rewrite stepNode_Elem in H. unfold wellFormedFragment in H. cbn [forallb] in H.
  rewrite andb_true_r in H. exact H.
Qed.

(** *** A step changes the marks of the cells in its range, nothing else *)

Lemma stepNode_cells chg (F T : Z) (n : Node) (p : Z) :
  cellsOf (allNodesFragment (stepNode chg F T p n) p)
  = map (stepMarks chg F T) (cellsOf ((n, p) :: allNodes n (p + 1))).
Proof.
  revert p. induction n as [t marks|k|k cs IH] using Node_ind_nested; intros p.
  - cbn [stepNode allNodes]. rewrite cellsOf_cons, cellsOfNode_Text.
    change (cellsOf []) with (@nil (Z * list Mark)).
    rewrite app_nil_r. destruct (chg marks) as [marks'|] eqn:Hc.
    + rewrite <- remarkText_cells. by rewrite Hc.
    + rewrite stepMarks_unchanged by done.
      rewrite allNodesFragment_Text, cellsOf_cons, cellsOfNode_Text.
      by rewrite cellsOf_nil, app_nil_r.
  - done.
  - rewrite stepNode_Elem, allNodes_Elem, cellsOf_cons, cellsOfNode_Elem.
    rewrite allNodesFragment_cons, allNodes_Elem, cellsOf_cons, cellsOfNode_Elem.
    rewrite allNodesFragment_nil, app_nil_r. cbn [app].
    generalize (p + 1). induction cs as [|c r IHr]; intros q; [done|].
    apply Forall_cons in IH as [IHc IHrest].
    rewrite stepFragment_cons, allNodesFragment_app, cellsOf_app.
    rewrite stepNode_size, IHc, (IHr IHrest).
    rewrite allNodesFragment_cons, <- map_app. f_equal.
    by rewrite !cellsOf_cons, cellsOf_app, app_assoc.
Qed.

Lemma stepDoc_cells chg (F T : Z) (doc : Node) :
  cells (stepDoc chg F T doc) = map (stepMarks chg F T) (cells doc).
Proof.
  destruct doc as [t ms|k|k cs]; [done | done |].
  pose proof (stepNode_cells chg F T (Elem k cs) (-1)) as H.
  rewrite stepNode_Elem, allNodesFragment_cons, !cellsOf_cons in H.
  rewrite !cellsOfNode_Elem, allNodesFragment_nil, app_nil_r in H.
  exact H.
Qed.

(** *** A step leaves the text of every range alone *)

Lemma window_app (lo hi : Z) (t1 t2 : jsstring) :
  window lo hi (t1 ++ t2)
  = window lo hi t1
    ++ window (lo - Z.of_nat (length t1)) (hi - Z.of_nat (length t1)) t2.
Proof.
  unfold window. rewrite drop_app, take_app, length_drop.
  f_equal.
  replace (Z.to_nat (lo - Z.of_nat (length t1)))
    with (Z.to_nat lo - length t1)%nat by lia.
  f_equal. lia.
Qed.

Lemma window_nil (lo hi : Z) : window lo hi [] = [].
Proof. unfold window. by rewrite drop_nil, take_nil. Qed.

Lemma take_same_min {A} (n m : nat) (l : list A) :
  (n `min` length l = m `min` length l)%nat -> take n l = take m l.
Proof.
  revert n m. induction l as [|a l IH]; intros [|n] [|m] H; simpl in *;
    try done; try lia.
  f_equal. apply IH. lia.
Qed.

Lemma foldl_filter_tb (f t : Z) (sep : jsstring) (l : list (Node * Z)) st :
  foldl (textBetweenStep f t sep) st (filter (overlaps f t) l)
  = foldl (tbAll f t sep) st l.
Proof.
  revert st. induction l as [|v l IH]; intros st; [done|].
  rewrite filter_cons. cbn [foldl]. unfold tbAll at 2.
  destruct (decide (overlaps f t v)); [cbn [foldl]|]; apply IH.
Qed.

Lemma tbAll_Text (f t : Z) (sep : jsstring) st (tx : jsstring)
    (marks : list Mark) (p : Z) :
  tbAll f t sep st (Text tx marks, p)
  = (fst st ++ window (f - p) (t - p) tx, snd st).
Proof.
  unfold tbAll, overlaps. cbn [fst snd nodeSize]. destruct st as [text first].
  destruct (decide (p < t /\ f < p + Z.of_nat (length tx))) as [[H1 H2]|Hno].
  - cbn [textBetweenStep isBlock andb fst snd]. f_equal. f_equal.
    unfold jsSlice, window.
    rewrite !decide_False by lia.
    replace (Z.to_nat (Z.min (Z.max f p - p) (Z.of_nat (length tx))))
      with (Z.to_nat (f - p)) by lia.
    apply take_same_min. rewrite length_drop. lia.
  - cbn [fst snd]. f_equal. unfold window.
    destruct (decide (p < t)) as [Hp|Hp].
    + rewrite drop_ge by lia. by rewrite take_nil, app_nil_r.
    + replace (Z.to_nat (t - p - Z.max 0 (f - p))) with 0%nat by lia.
      by rewrite take_0, app_nil_r.
Qed.

(** A row of text nodes adds the window of their joined text. *)
Lemma tbAll_texts (f t : Z) (sep : jsstring)
    (ps : list (jsstring * list Mark)) (p : Z) st :
  foldl (tbAll f t sep) st
    (allNodesFragment (map (fun x => Text (fst x) (snd x)) ps) p)
  = (fst st ++ window (f - p) (t - p) (concat (map fst ps)), snd st).
Proof.
  revert p st. induction ps as [|[tx ms] ps IH]; intros p st.
  - cbn. rewrite window_nil, app_nil_r. by destruct st.
  - cbn [map concat fst snd]. rewrite allNodesFragment_Text. cbn [foldl].
    rewrite tbAll_Text, IH. cbn [fst snd]. rewrite window_app, app_assoc.
    do 3 f_equal; lia.
Qed.

Lemma remarkText_texts (F T p : Z) (t : jsstring) (marks marks' : list Mark) :
  exists ps : list (jsstring * list Mark),
    remarkText F T p t marks marks' = map (fun x => Text (fst x) (snd x)) ps
    /\ concat (map fst ps) = t.
Proof.
  unfold remarkText.
  remember (Z.max F p - p) as a eqn:Ea.
  remember (Z.min T (p + Z.of_nat (length t)) - p) as b eqn:Eb.
  destruct (decide (a < b)) as [Hab|Hab].
  - assert (Ht : t = take (Z.to_nat a) t
                     ++ take (Z.to_nat (b - a)) (drop (Z.to_nat a) t)
                     ++ drop (Z.to_nat b) t).
    { rewrite <- (take_drop (Z.to_nat a) t) at 1. f_equal.
      rewrite <- (take_drop (Z.to_nat (b - a)) (drop (Z.to_nat a) t)) at 1.
      f_equal. rewrite drop_drop. f_equal. lia. }
    destruct (decide (0 < a)) as [Ha|Ha];
      destruct (decide (b < Z.of_nat (length t))) as [Hb|Hb].
    + exists [(take (Z.to_nat a) t, marks);
              (take (Z.to_nat (b - a)) (drop (Z.to_nat a) t), marks');
              (drop (Z.to_nat b) t, marks)].
      split; [done|]. cbn. by rewrite app_nil_r, <- Ht.
    + exists [(take (Z.to_nat a) t, marks);
              (take (Z.to_nat (b - a)) (drop (Z.to_nat a) t), marks')].
      split; [done|]. cbn. rewrite app_nil_r. rewrite Ht at 3.
      rewrite (drop_ge t (Z.to_nat b)) by lia. by rewrite app_nil_r.
    + exists [(take (Z.to_nat (b - a)) (drop (Z.to_nat a) t), marks');
              (drop (Z.to_nat b) t, marks)].
      split; [done|]. cbn. rewrite app_nil_r. rewrite Ht at 3.
      replace (Z.to_nat a) with 0%nat by lia. by rewrite take_0.
    + exists [(take (Z.to_nat (b - a)) (drop (Z.to_nat a) t), marks')].
      split; [done|]. cbn. rewrite app_nil_r. rewrite Ht at 2.
      rewrite (drop_ge t (Z.to_nat b)) by lia.
      replace (Z.to_nat a) with 0%nat by lia. by rewrite take_0, app_nil_r.
  - exists [(t, marks)]. split; [done|]. cbn. by rewrite app_nil_r.
Qed.

Lemma nodeSize_stepped chg (F T p : Z) k (cs : list Node) :
  nodeSize (Elem k (stepFragment chg F T cs p)) = nodeSize (Elem k cs).
Proof.
  by rewrite (nodeSize_Elem k (stepFragment _ _ _ _ _)), (nodeSize_Elem k cs),
    stepFragment_size.
Qed.

Lemma tbAll_Elem (f t : Z) (sep : jsstring) st k (cs cs' : list Node) (p : Z) :
  fragmentSize cs' = fragmentSize cs ->
  tbAll f t sep st (Elem k cs', p) = tbAll f t sep st (Elem k cs, p).
Proof.
  intros Hs. unfold tbAll.
  assert (Hiff : overlaps f t (Elem k cs', p) <-> overlaps f t (Elem k cs, p)).
  { unfold overlaps. cbn [fst snd].
    by rewrite (nodeSize_Elem k cs'), (nodeSize_Elem k cs), Hs. }
  destruct (decide (overlaps f t (Elem k cs', p))),
    (decide (overlaps f t (Elem k cs, p))); try tauto; by destruct st.
Qed.

Lemma stepNode_textBetween chg (F T f t : Z) (sep : jsstring) (n : Node) :
  forall p st,
    foldl (tbAll f t sep) st (allNodesFragment (stepNode chg F T p n) p)
    = foldl (tbAll f t sep) st ((n, p) :: allNodes n (p + 1)).
Proof.
  induction n as [tx marks|k|k cs IH] using Node_ind_nested; intros p st.
  - assert (Hone : foldl (tbAll f t sep) st
                     ((Text tx marks, p) :: allNodes (Text tx marks) (p + 1))
                   = (fst st ++ window (f - p) (t - p) tx, snd st)).
    { cbn [allNodes foldl]. apply tbAll_Text. }
    rewrite Hone. cbn [stepNode]. destruct (chg marks) as [marks'|].
    + destruct (remarkText_texts F T p tx marks marks') as (ps & -> & Hps).
      by rewrite tbAll_texts, Hps.
    + rewrite allNodesFragment_Text, allNodesFragment_nil. cbn [foldl].
      apply tbAll_Text.
  - done.
  - rewrite stepNode_Elem, allNodesFragment_cons, allNodesFragment_nil, app_nil_r.
    rewrite !allNodes_Elem. cbn [foldl].
    rewrite (tbAll_Elem f t sep st k cs) by apply stepFragment_size.
    generalize (tbAll f t sep st (Elem k cs, p)). generalize (p + 1).
    clear st p. induction cs as [|c r IHr]; intros q st; [done|].
    apply Forall_cons in IH as [IHc IHrest].
    rewrite stepFragment_cons, allNodesFragment_app, foldl_app, IHc.
    rewrite stepNode_size, (IHr IHrest), allNodesFragment_cons.
    by rewrite app_comm_cons, foldl_app.
Qed.

Lemma stepFragment_textBetween chg (F T f t : Z) (sep : jsstring)
    (cs : list Node) :
  forall p st,
    foldl (tbAll f t sep) st (allNodesFragment (stepFragment chg F T cs p) p)
    = foldl (tbAll f t sep) st (allNodesFragment cs p).
Proof.
  induction cs as [|c r IH]; intros p st; [done|].
  rewrite stepFragment_cons, allNodesFragment_app, foldl_app.
  rewrite stepNode_textBetween, stepNode_size, IH, allNodesFragment_cons.
  by rewrite app_comm_cons, foldl_app.
Qed.

(** A step does not change what [textBetween] reads. *)
Lemma stepDoc_textBetween chg (F T f t : Z) (sep : jsstring) (doc : Node) :
  wellFormed doc = true ->
  textBetween (stepDoc chg F T doc) f t sep = textBetween doc f t sep.
Proof.
  intros Hwf. unfold textBetween.
  rewrite !nodesBetween_overlaps by (done || by apply stepDoc_wellFormed).
  rewrite !foldl_filter_tb. f_equal.
  destruct doc as [tx ms|k|k cs]; [done | done |].
  cbn [stepDoc]. rewrite !allNodes_Elem. apply stepFragment_textBetween.
Qed.

(** *** The runs of a marker and the cells it covers *)

Lemma coalesce_textCells (t : jsstring) (marks : list Mark) :
  t <> [] ->
  forall p acc,
    foldl coalesceStep acc (map cellRange (map fst (textCells p t marks)))
    = coalesceStep acc (p, p + Z.of_nat (length t)).
Proof.
  induction t as [|a t IH]; intros Hne p acc; [done|].
  destruct t as [|a' t'].
  - cbn. destruct acc as [[lo hi]|]; done.
  - remember (a' :: t') as t2 eqn:Et.
    cbn [textCells map foldl fst]. rewrite IH by (subst; done).
    unfold cellRange. destruct acc as [[lo hi]|]; cbn [coalesceStep fst snd length];
      f_equal; f_equal; lia.
Qed.

Lemma markedIn_app (i : jsstring) (l r : list (Z * list Mark)) :
  markedIn i (l ++ r) = markedIn i l ++ markedIn i r.
Proof. apply omap_app. Qed.

Lemma markedIn_textCells (i : jsstring) (t : jsstring) (marks : list Mark) (p : Z) :
  markedIn i (textCells p t marks)
  = if bool_decide (commentMark i ∈ marks) then map fst (textCells p t marks)
    else [].
Proof.
  revert p. induction t as [|a t IH]; intros p; [by destruct (bool_decide _)|].
  cbn [textCells]. unfold markedIn in *. cbn [omap list_omap snd fst].
  rewrite IH. by destruct (bool_decide _).
Qed.

Lemma runsIn_cons (i : jsstring) (v : Node * Z) (vs : list (Node * Z)) :
  runsIn i (v :: vs)
  = (if carriesMarker i (fst v) then [(snd v, snd v + nodeSize (fst v))] else [])
    ++ runsIn i vs.
Proof. unfold runsIn. cbn [omap list_omap]. by destruct (carriesMarker _ _). Qed.

(** Coalescing the runs of a marker is coalescing the cells it covers. *)
Lemma runs_cells (i : jsstring) (vs : list (Node * Z)) :
  Forall (fun v => wellFormed (fst v) = true) vs ->
  forall acc,
    foldl coalesceStep acc (runsIn i vs)
    = foldl coalesceStep acc (map cellRange (markedIn i (cellsOf vs))).
Proof.
  induction vs as [|[n p] vs IH]; intros Hwf acc; [done|].
  apply Forall_cons in Hwf as [Hn Hvs].
  rewrite runsIn_cons, cellsOf_cons, markedIn_app, map_app, !foldl_app.
  rewrite <- (IH Hvs). f_equal. cbn [fst snd].
  destruct n as [t marks|k|k cs]; [|done..].
  rewrite cellsOfNode_Text, markedIn_textCells. unfold carriesMarker.
  cbn [isText nodeMarks andb].
  destruct (bool_decide (commentMark i ∈ marks)); [|done].
  cbn [foldl]. rewrite coalesce_textCells; [done|].
  by destruct t.
Qed.

Lemma allNodes_Forall_wellFormed (doc : Node) :
  wellFormed doc = true ->
  Forall (fun v => wellFormed (fst v) = true) (allNodes doc 0).
Proof.
  intros Hwf. apply Forall_forall. intros v Hv.
  by apply (allNodes_wellFormed doc Hwf 0).
Qed.

Lemma markerRuns_cells (i : jsstring) (doc : Node) :
  wellFormed doc = true ->
  coalesce (markerRuns i doc)
  = coalesce (map cellRange (markedPositions i doc)).
Proof.
  intros Hwf. unfold coalesce, markerRuns, markedPositions, cells.
  rewrite descendants_all by done.
  apply runs_cells. by apply allNodes_Forall_wellFormed.
Qed.

Lemma map_cellRange_nil (xs : list Z) : map cellRange xs = [] <-> xs = [].
Proof. destruct xs; split; done. Qed.

(** No text leaf carries the marker exactly when it covers no cell. *)
Lemma markerRuns_nil (i : jsstring) (doc : Node) :
  wellFormed doc = true ->
  markerRuns i doc = [] <-> markedPositions i doc = [].
Proof.
  intros Hwf. rewrite <- SyncFacts.coalesce_None, markerRuns_cells by done.
  rewrite SyncFacts.coalesce_None. apply map_cellRange_nil.
Qed.

(** *** Cells are in the order of their positions *)










End TreeFacts.

(** ** Adding and deleting a comment *)

Module OffsetFacts.
Import ProseMirror Comment Transform TiptapUtils SyncSpec DocSpec OffsetComments
  Samples SyncFacts TreeFacts.

(** *** Cells and nodes *)

Lemma cells_elem (vs : list (Node * Z)) (c : Z * list Mark) :
  c ∈ cellsOf vs <->
  exists t p, (Text t (snd c), p) ∈ vs /\ p <= fst c < p + Z.of_nat (length t).
Proof.
  unfold cellsOf. rewrite list_elem_of_bind. split.
  - intros ([n p] & Hc & Hv). destruct n as [t marks|k|k cs]; try by inversion Hc.
    rewrite cellsOfNode_Text in Hc. apply textCells_bounds in Hc as [Hb <-].
    by exists t, p.
  - intros (t & p & Hv & Hb). exists (Text t (snd c), p). split; [|done].
    rewrite cellsOfNode_Text. destruct c as [x ms]. by apply textCells_elem.
Qed.



(** The cells of a document lie inside its content. *)
Lemma cells_bounds (doc : Node) (c : Z * list Mark) :
  wellFormed doc = true -> c ∈ cells doc -> 0 <= fst c < contentSize doc.
Proof.
  intros Hwf Hc. apply cells_elem in Hc as (t & p & Hv & Hb).
  apply (allNodes_bounds doc Hwf 0) in Hv. cbn [fst snd nodeSize] in Hv. lia.
Qed.

(** *** Removing a marker *)



Lemma stepMarks_remove (type : jsstring) (F T : Z) (c : Z * list Mark) :
  stepMarks (removeChange type) F T c
  = if decide (F <= fst c < T) then (fst c, removeFromSet type (snd c)) else c.
Proof.
  unfold stepMarks, removeChange. destruct (decide (F <= fst c < T)); [|done].
  destruct (decide (removeFromSet type (snd c) = snd c)) as [->|]; done.
Qed.





Lemma exclusive_same_type (marks : list Mark) (i j : jsstring) :
  (length (commentMarks marks) <= 1)%nat ->
  commentMark i ∈ marks -> commentMark j ∈ marks -> i = j.
Proof.
  intros Hlen Hi Hj.
  assert (Hin : forall k, commentMark k ∈ marks -> commentMark k ∈ commentMarks marks)
    by (intros k Hk; by apply list_elem_of_filter).
  apply Hin in Hi, Hj.
  destruct (commentMarks marks) as [|m [|m' l]]; [by inversion Hi | | simpl in Hlen; lia].
  apply list_elem_of_singleton in Hi, Hj. unfold commentMark in *. congruence.
Qed.


(** *** Adding a marker *)

Lemma addChange_elem (m : Mark) (marks : list Mark) :
  m ∈ default marks (addChange m marks).
Proof.
  unfold addChange. destruct (decide (m ∈ marks)) as [H|H]; [done|].
  cbn [default]. unfold addToSet. rewrite decide_False by done.
  apply elem_of_app. right. apply list_elem_of_here.
Qed.






(** The scan records, for a marker, the range from the least start to the
    greatest end of its runs. *)
Lemma scan_span (doc : Node) (i : jsstring) (lo hi : Z) :
  scanCommentMarks doc !! i = Some (lo, hi) ->
  i <> [] /\ isSpanOf (markerRuns i doc) lo hi.
Proof.
  intros H. destruct (decide (i = [])) as [->|Hi].
  - exfalso. revert H. unfold scanCommentMarks.
    assert (Hnone : forall vs acc, acc !! ([] : jsstring) = None ->
              foldl scanNode acc vs !! ([] : jsstring) = None).
    { induction vs as [|[n p] vs IH]; intros acc Hacc; [done|].
      cbn [foldl]. apply IH. unfold scanNode. destruct (isText n); [|done].
      generalize (nodeMarks n). intros ms. revert acc Hacc.
      induction ms as [|m ms IHm]; intros acc Hacc; [done|].
      cbn [foldl]. apply IHm. unfold scanMark.
      destruct (decide _); [|done]. destruct (commentIdAttr m) as [cid|]; [|done].
      destruct cid as [|c0 cid]; [done|]. cbn [nonEmpty].
      destruct (acc !! (c0 :: cid)); by rewrite lookup_insert_ne. }
    rewrite Hnone; [done | apply lookup_empty].
  - split; [done|]. rewrite scan_lookup in H by done. by apply coalesce_span.
Qed.





(** *** The documents the framework builds stay so under [addMark] *)

Lemma addToSet_commentMarks (i : jsstring) (marks : list Mark) :
  commentMark i ∉ marks ->
  commentMarks (addToSet (commentMark i) marks) = [commentMark i].
Proof.
  intros Hi. unfold addToSet, commentMarks. rewrite decide_False by done.
  rewrite filter_app, filter_cons, decide_True by done.
  rewrite filter_nil. cbn [markType commentMark].
  induction marks as [|m ms IH]; [done|].
  rewrite filter_cons. apply not_elem_of_cons in Hi as [_ Hms].
  destruct (decide (markType m <> CommentMark_name)) as [H|H]; [|by apply IH].
  rewrite filter_cons, decide_False by done. by apply IH.
Qed.


End OffsetFacts.
(** ** NodePath restoration *)

Module NodePathFacts.
Import ProseMirror Comment Transform TiptapUtils DocSpec TiptapNodePath Samples
  TreeFacts OffsetFacts.

(** *** Whatever pattern reads the segments *)

Section AnyPattern.
Variable matcher : jsstring -> option (jsstring * jsstring).

(** A call that returns [false] has applied no mark. *)
Lemma restore_failure_keeps_doc (doc : Node) (comment : InlineComment)
    (markName : jsstring) :
  restored (restoreMarkFromNodePathWith matcher doc comment markName) = false ->
  editorDoc (restoreMarkFromNodePathWith matcher doc comment markName) = doc.
Proof.
  unfold restoreMarkFromNodePathWith.
  destruct (position comment) as [p|]; [|done].
  destruct (path p) as [[|c s]|]; [| |done].
  - by destruct (_ && _).
  - destruct (descend matcher _ doc true 0) as [ws [[n pos]|]]; [|done].
    by destruct (_ || _).
Qed.

(** A segment the pattern does not read stops the descent. *)
Lemma descend_invalid_segment (segments : list jsstring) (segment : jsstring)
    (n : Node) (atRoot : bool) (pos : Z) :
  segment ∈ segments -> matcher segment = None ->
  snd (descend matcher segments n atRoot pos) = None.
Proof.
  intros Hin Hm. revert n atRoot pos.
  induction segments as [|s rest IH]; intros n atRoot pos; [by inversion Hin|].
  cbn [descend]. destruct (matcher s) as [[tag idx]|] eqn:Hs; [|done].
  destruct (_ || _); [done|].
  destruct (child n _) as [next|]; [|done].
  assert (Hrest : segment ∈ rest).
  { apply elem_of_cons in Hin as [->|?]; [congruence | done]. }
  specialize (IH Hrest next false
                (pos + (if atRoot then 0 else 1) + sizeBefore n (numSub (parseInt10 idx) 1))).
  by destruct (descend matcher rest next false _) as [ws r].
Qed.

(** A child index outside [1 .. childCount] stops the descent. *)
Lemma descend_index_out_of_range (segment : jsstring) (rest : list jsstring)
    (tagName childIndexStr : jsstring) (k : Z) (n : Node) (atRoot : bool)
    (pos : Z) :
  matcher segment = Some (tagName, childIndexStr) ->
  parseInt10 childIndexStr = Some k ->
  ~ (1 <= k <= childCount n) ->
  descend matcher (segment :: rest) n atRoot pos
  = ([IndexOutOfRange segment], None).
Proof.
  intros Hm Hk Hr. cbn [descend]. rewrite Hm, Hk. simpl.
  destruct (bool_decide (k - 1 < 0)) eqn:H1; [done|].
  destruct (bool_decide (childCount n <= k - 1)) eqn:H2; [done|].
  apply bool_decide_eq_false_1 in H1, H2. lia.
Qed.

(** The tag name of a segment has no part in where the descent goes. *)
Lemma descend_ignores_tag (s s' : jsstring) (rest : list jsstring)
    (tagName tagName' childIndexStr : jsstring) (n : Node) (atRoot : bool)
    (pos : Z) :
  matcher s = Some (tagName, childIndexStr) ->
  matcher s' = Some (tagName', childIndexStr) ->
  snd (descend matcher (s :: rest) n atRoot pos)
  = snd (descend matcher (s' :: rest) n atRoot pos).
Proof.
  intros Hs Hs'. cbn [descend]. rewrite Hs, Hs'.
  destruct (_ || _); [done|].
  destruct (child n _) as [next|]; [|done].
  by destruct (descend matcher rest next false _) as [ws r].
Qed.

(** A comment whose restoration fails leaves the batch as it would be
    without it. *)
Lemma restoreAll_skips_failure (doc : Node) (comment : InlineComment)
    (rest : list InlineComment) (markName : jsstring) :
  restored (restoreMarkFromNodePathWith matcher doc comment markName) = false ->
  fst (restoreAllWith matcher doc (comment :: rest) markName)
  = fst (restoreAllWith matcher doc rest markName).
Proof.
  intros Hf. cbn [restoreAllWith].
  rewrite (restore_failure_keeps_doc doc comment markName Hf), Hf.
  by destruct (restoreAllWith matcher doc rest markName) as [[d k] ws].
Qed.

End AnyPattern.

(** *** The pattern of the source *)

Lemma span_app_fst (p : N -> bool) (s : jsstring) :
  fst (span p s) ++ snd (span p s) = s.
Proof.
  induction s as [|c r IH]; [done|]. simpl.
  destruct (p c); [|done]. destruct (span p r) as [a b]. simpl in *.
  by rewrite IH.
Qed.

(** What the source's pattern captures as the index is no number. *)
Lemma matchSegment_index_NaN (segment tagName childIndexStr : jsstring) :
  matchSegment segment = Some (tagName, childIndexStr) ->
  parseInt10 childIndexStr = None.
Proof.
  unfold matchSegment. destruct (span isTagChar segment) as [tag r1].
  destruct (nonEmpty tag); [|done].
  destruct (stripPrefix _ r1) as [r2|]; [|done].
  destruct (span _ r2) as [ds r3].
  destruct (nonEmpty ds && _); [|done].
  by intros [= _ <-].
Qed.

Lemma stripPrefix_Some (prefix s r : jsstring) :
  stripPrefix prefix s = Some r -> s = prefix ++ r.
Proof.
  revert s. induction prefix as [|a prefix IH]; intros s H; simpl in H.
  - by inversion H.
  - destruct s as [|c s]; [done|]. destruct (decide (a = c)) as [->|]; [|done].
    simpl. f_equal. by apply IH.
Qed.

(** The source's pattern reads no segment of the form the path is written
    in, [tagName:nth-child(N)]. *)
Lemma matchSegment_rejects_spec_form (segment : jsstring) :
  is_Some (matchSegment_spec segment) -> matchSegment segment = None.
Proof.
  unfold matchSegment_spec, matchSegment.
  destruct (span isTagChar segment) as [tag r1].
  destruct (nonEmpty tag); [|by intros [? ?]].
  destruct (stripPrefix (str ":nth-child(") r1) as [r2|] eqn:Hr; [|by intros [? ?]].
  apply stripPrefix_Some in Hr as ->. intros _. reflexivity.
Qed.

Lemma descend_source_fails (segments : list jsstring) (n : Node)
    (atRoot : bool) (pos : Z) :
  segments <> [] -> snd (descend matchSegment segments n atRoot pos) = None.
Proof.
  destruct segments as [|s rest]; [done|]. intros _. cbn [descend].
  destruct (matchSegment s) as [[tag idx]|] eqn:Hs; [|done].
  by rewrite (matchSegment_index_NaN _ _ _ Hs).
Qed.

Lemma splitLoop_nonempty (sep s cur : jsstring) (skip : nat) :
  splitLoop sep s cur skip <> [].
Proof.
  revert cur skip. induction s as [|c r IH]; intros cur skip; [done|].
  simpl. destruct skip; [|apply IH]. destruct (bool_decide _); [done | apply IH].
Qed.

(** With the pattern as the source writes it, no path that is not empty is
    ever restored. *)
Lemma restore_path_never_succeeds (doc : Node) (comment : InlineComment)
    (markName : jsstring) (p : Position) (c : N) (s : jsstring) :
  position comment = Some p -> path p = Some (c :: s) ->
  restored (restoreMarkFromNodePath doc comment markName) = false
  /\ editorDoc (restoreMarkFromNodePath doc comment markName) = doc.
Proof.
  intros Hp Hpath.
  assert (H : restored (restoreMarkFromNodePath doc comment markName) = false).
  { unfold restoreMarkFromNodePath, restoreMarkFromNodePathWith.
    rewrite Hp, Hpath.
    pose proof (descend_source_fails (split (str " > ") (c :: s)) doc true 0
                  (splitLoop_nonempty _ _ _ _)) as Hd.
    destruct (descend matchSegment _ doc true 0) as [ws r]. simpl in Hd.
    by subst r. }
  split; [done|]. by apply restore_failure_keeps_doc.
Qed.




(** C8 against the code.  In [<p>ab</p><p>cd</p>] the path
    [div:nth-child(2)] names the second child under a tag that is not its
    own.  Read with the pattern the paths are written in, the mismatch is
    logged and the mark is applied over [4, 8).  The source's pattern, whose
    backslashes are doubled, reads no segment of that form: the call logs an
    invalid segment, applies nothing and returns [false]; so it does for the
    path [p:nth-child(2)], whose tag matches. *)
Theorem restore_rejects_well_formed_path :
  restoreMarkFromNodePathWith matchSegment_spec twoParagraphs
    (pathComment "div:nth-child(2)") CommentMark_name
  = mkRestored (addMark 4 8 (commentMark (str "c1")) twoParagraphs) true
      [TagMismatch (str "div:nth-child(2)") (str "p")]
  /\ restoreMarkFromNodePath twoParagraphs (pathComment "div:nth-child(2)")
       CommentMark_name
     = mkRestored twoParagraphs false [InvalidSegment (str "div:nth-child(2)")]
  /\ restoreMarkFromNodePath twoParagraphs (pathComment "p:nth-child(2)")
       CommentMark_name
     = mkRestored twoParagraphs false [InvalidSegment (str "p:nth-child(2)")].
Proof. repeat split; reflexivity. Qed.

End NodePathFacts.

(** ** More on the synchronizer and the offset editor *)

Module EditorFacts.
Import ProseMirror Comment Transform TiptapUtils SyncSpec DocSpec OffsetComments
  OffsetEditor EditorSpec Samples.

(** *** The change flag *)

Lemma syncComment_flag doc m (c : InlineComment) :
  snd (syncComment doc m c) = false <-> fst (syncComment doc m c) = c.
Proof.
  unfold syncComment. destruct (nonEmpty (id c)); [|done].
  destruct (m !! id c) as [[lo hi]|].
  - cbn [fst snd].
    destruct (isAlreadyOrphaned c || _) eqn:Hc; cbn [fst snd]; [|done].
    split; [done|]. intros Heq. exfalso.
    apply (f_equal position) in Heq. cbn [withPosition position] in Heq.
    unfold isAlreadyOrphaned in Hc. rewrite <- Heq in Hc.
    cbn [from to textFragment] in Hc.
    by rewrite !bool_decide_eq_true_2 in Hc.
  - destruct (position c) as [p|] eqn:Hp; [|done].
    destruct (negb (isAlreadyOrphaned c) && _) eqn:Hc; cbn [fst snd]; [|done].
    split; [done|]. intros Heq. exfalso.
    apply (f_equal position) in Heq. cbn [withPosition position] in Heq.
    rewrite Hp in Heq. injection Heq as Heq. rewrite <- Heq in Hc.
    cbn [from] in Hc. by rewrite andb_comm in Hc.
Qed.

Lemma map_fixed {A} (f : A -> A) (l : list A) :
  map f l = l <-> Forall (fun x => f x = x) l.
Proof.
  induction l as [|x l IH]; [by split; [constructor|]|].
  cbn [map]. split.
  - intros H. injection H as Hx Hl. constructor; [done | by apply IH].
  - intros H. inversion H as [|? ? Hx Hl]; subst. rewrite Hx. f_equal. by apply IH.
Qed.

(** X1.  The change flag of the synchronizer is exact: it is false exactly
    when the list returned equals the list given.  So the state update of
    [onUpdate], which keeps the previous list when the flag is false, always
    leaves the synchronizer's list in the state, and a second update on the
    same document changes nothing. *)
Theorem sync_flag_exact :
  forall (editorDoc : Node) (prevComments : list InlineComment),
    (snd (syncCommentPositionsWithEditorState editorDoc prevComments) = false
     <-> fst (syncCommentPositionsWithEditorState editorDoc prevComments)
         = prevComments)
    /\ onUpdate editorDoc true prevComments
       = fst (syncCommentPositionsWithEditorState editorDoc prevComments)
    /\ onUpdate editorDoc true (onUpdate editorDoc true prevComments)
       = onUpdate editorDoc true prevComments
    /\ onUpdate editorDoc false prevComments = prevComments.
Proof.
  intros doc prev.
  assert (Hflag : forall cs,
    snd (syncCommentPositionsWithEditorState doc cs) = false
    <-> fst (syncCommentPositionsWithEditorState doc cs) = cs).
  { intros cs. rewrite SyncFacts.sync_fst, SyncFacts.sync_snd, map_fixed.
    rewrite <- not_true_iff_false, existsb_exists, Forall_forall.
    split.
    - intros H c Hc. apply syncComment_flag, not_true_iff_false.
      intros Ht. apply H. exists c. split; [by apply list_elem_of_In | done].
    - intros H [c [Hc Ht]]. apply list_elem_of_In, H, syncComment_flag in Hc.
      congruence. }
  assert (Hup : forall cs,
    onUpdate doc true cs = fst (syncCommentPositionsWithEditorState doc cs)).
  { intros cs. unfold onUpdate.
    destruct (syncCommentPositionsWithEditorState doc cs) as [u ch] eqn:Hs.
    destruct ch; [done|]. symmetry.
    change u with (fst (u, false)). rewrite <- Hs. apply Hflag. by rewrite Hs. }
  split; [apply Hflag|]. split; [apply Hup|]. split; [|done].
  rewrite !Hup. apply Hflag.
  rewrite SyncFacts.sync_snd, <- not_true_iff_false, existsb_exists.
  intros [c [Hc Ht]]. apply list_elem_of_In in Hc.
  rewrite SyncFacts.sync_fst in Hc. apply list_elem_of_fmap in Hc as [c0 [-> _]].
  by rewrite SyncFacts.syncComment_idempotent in Ht.
Qed.

(** *** What the synchronizer establishes *)

(** X2.  After a run of the synchronizer every comment with an id is
    anchored as the document says: where the scan found its marker, [from],
    [to] and [textFragment] are the scanned range and the text of that
    range; where it found none, no numeric [from] is stored.  A comment
    without an id is handed back as it was. *)
Theorem sync_establishes_anchors :
  forall (editorDoc : Node) (prevComments : list InlineComment),
    Forall (fun c : InlineComment =>
              id c <> [] ->
              match scanCommentMarks editorDoc !! id c with
              | Some range =>
                  exists p, position c = Some p
                    /\ from p = Some (fst range) /\ to p = Some (snd range)
                    /\ textFragment p
                       = Some (textBetween editorDoc (fst range) (snd range)
                                 (str " "))
              | None => position c ≫= from = None
              end)
      (fst (syncCommentPositionsWithEditorState editorDoc prevComments))
    /\ Forall2 (fun c c' : InlineComment => id c = [] -> c' = c)
         prevComments
         (fst (syncCommentPositionsWithEditorState editorDoc prevComments)).
Proof.
  intros doc prev. rewrite SyncFacts.sync_fst. split.
  - apply Forall_fmap, Forall_forall. intros c _. cbn [compose].
    pose proof (SyncFacts.syncComment_sameButPosition doc (scanCommentMarks doc) c)
      as [Hid _].
    rewrite Hid. intros Hne. unfold syncComment.
    rewrite (proj2 (SyncFacts.nonEmpty_spec _) Hne).
    destruct (scanCommentMarks doc !! id c) as [[lo hi]|] eqn:Hs.
    + cbn [fst snd].
      destruct (isAlreadyOrphaned c || _) eqn:Hc; cbn [fst].
      * by eexists.
      * apply orb_false_iff in Hc as [_ Hc].
        destruct (position c) as [p|]; [|done]. exists p. split; [done|].
        apply orb_false_iff in Hc as [Hc Ht].
        apply orb_false_iff in Hc as [Hf Hto].
        apply negb_false_iff, bool_decide_eq_true in Hf, Hto, Ht. done.
    + destruct (position c) as [p|] eqn:Hp; [|by cbn; rewrite Hp].
      destruct (negb (isAlreadyOrphaned c) && _) eqn:Hc; cbn [fst]; [done|].
      rewrite Hp. cbn. unfold isAlreadyOrphaned in Hc. rewrite Hp in Hc.
      by destruct (from p).
  - apply Forall2_fmap_r, Forall_Forall2_diag, Forall_forall. intros c _ Hid.
    unfold syncComment. by rewrite Hid.
Qed.

Lemma markedIn_elem (i : jsstring) (cs : list (Z * list Mark)) (x : Z) :
  x ∈ markedIn i cs <-> exists ms, (x, ms) ∈ cs /\ commentMark i ∈ ms.
Proof.
  unfold markedIn. rewrite list_elem_of_omap. split.
  - intros [[y ms] [Hin Hy]]. cbn [fst snd] in Hy.
    destruct (bool_decide _) eqn:Hb; [|done]. injection Hy as ->.
    exists ms. split; [done | by apply bool_decide_eq_true in Hb].
  - intros [ms [Hin Hm]]. exists (x, ms). split; [done|]. cbn [fst snd].
    by rewrite bool_decide_eq_true_2.
Qed.

Lemma coalesce_cells_span (xs : list Z) (lo hi : Z) :
  coalesce (map cellRange xs) = Some (lo, hi) ->
  lo ∈ xs /\ hi - 1 ∈ xs /\ (forall x, x ∈ xs -> lo <= x < hi).
Proof.
  intros H. apply SyncFacts.coalesce_span in H as (Hlo & Hhi & Hall).
  rewrite <- list_fmap_compose in Hlo, Hhi.
  apply list_elem_of_fmap in Hlo as [x [-> Hx]].
  apply list_elem_of_fmap in Hhi as [y [-> Hy]].
  cbn [compose cellRange fst snd]. replace (y + 1 - 1) with y by lia.
  split; [done|]. split; [done|]. intros z Hz.
  rewrite Forall_fmap, Forall_forall in Hall. specialize (Hall z Hz).
  cbn [compose cellRange fst snd] in Hall. lia.
Qed.

Lemma scan_empty_id (doc : Node) : scanCommentMarks doc !! ([] : jsstring) = None.
Proof.
  destruct (scanCommentMarks doc !! ([] : jsstring)) as [[lo hi]|] eqn:H; [|done].
  by apply OffsetFacts.scan_span in H as [? _].
Qed.

Lemma scan_marked (doc : Node) (i : jsstring) :
  wellFormed doc = true -> i <> [] ->
  scanCommentMarks doc !! i = coalesce (map cellRange (markedPositions i doc)).
Proof.
  intros Hwf Hi. rewrite SyncFacts.scan_lookup by done.
  by apply TreeFacts.markerRuns_cells.
Qed.

Lemma markedPositions_text (doc : Node) (i : jsstring) (x : Z) :
  x ∈ markedPositions i doc -> x ∈ map fst (cells doc).
Proof.
  intros H. apply markedIn_elem in H as [ms [Hin _]].
  apply list_elem_of_fmap. by exists (x, ms).
Qed.

Lemma scan_None (doc : Node) (i : jsstring) :
  wellFormed doc = true ->
  scanCommentMarks doc !! i = None <-> i = [] \/ markedPositions i doc = [].
Proof.
  intros Hwf. destruct (decide (i = [])) as [->|Hi].
  - split; [by left | intros _; apply scan_empty_id].
  - rewrite scan_marked by done. unfold coalesce.
    rewrite SyncFacts.coalesce_None, TreeFacts.map_cellRange_nil.
    split; [by right | by intros [?|?]].
Qed.

(** X3.  On a document without empty text nodes, a range the marker scan
    records lies in the document, is not empty, starts and ends on text that
    carries the marker and holds every position the marker covers; so it
    passes the range check of [restoreCommentMarksInEditor].  The scan has no
    entry for an id exactly when the id is empty or no text carries its
    marker. *)
Theorem scan_range_in_document :
  forall (doc : Node) (i : jsstring),
    wellFormed doc = true ->
    (forall lo hi,
        scanCommentMarks doc !! i = Some (lo, hi) ->
        0 <= lo /\ lo < hi /\ hi <= contentSize doc
        /\ lo ∈ markedPositions i doc /\ hi - 1 ∈ markedPositions i doc
        /\ (forall x, x ∈ markedPositions i doc -> lo <= x < hi)
        /\ inDocument (contentSize doc) (lo, hi) = true)
    /\ (scanCommentMarks doc !! i = None
        <-> i = [] \/ markedPositions i doc = []).
Proof.
  intros doc i Hwf. split.
  - intros lo hi Hs.
    pose proof (OffsetFacts.scan_span _ _ _ _ Hs) as [Hi _].
    rewrite scan_marked in Hs by done.
    apply coalesce_cells_span in Hs as (Hlo & Hhi & Hall).
    assert (Hb : forall x, x ∈ markedPositions i doc -> 0 <= x < contentSize doc).
    { intros x Hx. apply markedPositions_text, list_elem_of_fmap in Hx as [c [-> Hc]].
      by apply OffsetFacts.cells_bounds. }
    pose proof (Hb _ Hlo). pose proof (Hb _ Hhi). pose proof (Hall _ Hlo).
    split; [lia|]. split; [lia|]. split; [lia|]. split; [done|].
    split; [done|]. split; [done|].
    unfold inDocument. cbn [fst snd].
    rewrite !bool_decide_eq_true_2 by lia. done.
  - by apply scan_None.
Qed.

Lemma scan_range_in_document_witness :
  inDocument (contentSize twoMarkers) (3, 5) = true
  /\ 3 ∈ markedPositions (str "c2") twoMarkers.
Proof.
  pose proof (proj1 (scan_range_in_document twoMarkers (str "c2") eq_refl) 3 5
                eq_refl) as (_ & _ & _ & H3 & _ & _ & Hin).
  split; [exact Hin | exact H3].
Defined.

End EditorFacts.

(** ** Deleting every comment *)

Module DeleteAllFacts.
Import ProseMirror Comment Transform TiptapUtils SyncSpec DocSpec OffsetComments
  OffsetEditor EditorSpec Samples.



Lemma removeFromSet_commentMarks (marks : list Mark) :
  commentMarks (removeFromSet CommentMark_name marks) = [].
Proof.
  unfold commentMarks, removeFromSet. induction marks as [|m ms IH]; [done|].
  rewrite filter_cons.
  destruct (decide (markType m <> CommentMark_name)) as [H|H]; [|done].
  by rewrite filter_cons, decide_False.
Qed.











End DeleteAllFacts.

(** ** Restoring the markers of stored comments *)

Module RestoreFacts.
Import ProseMirror Comment Transform TiptapUtils SyncSpec DocSpec OffsetComments
  OffsetEditor EditorSpec Samples EditorSamples.








(** *** One cell *)




Lemma added_commentMarks (i : jsstring) (ms : list Mark) :
  (length (commentMarks ms) <= 1)%nat ->
  (length (commentMarks (default ms (addChange (commentMark i) ms))) <= 1)%nat.
Proof.
  intros H. unfold addChange.
  destruct (decide (commentMark i ∈ ms)); [done|].
  cbn [default from_option]. unfold Datatypes.id.
  by rewrite OffsetFacts.addToSet_commentMarks.
Qed.

Lemma added_elem (i j : jsstring) (ms : list Mark) :
  (length (commentMarks ms) <= 1)%nat ->
  commentMark i ∈ default ms (addChange (commentMark j) ms) <-> j = i.
Proof.
  intros H. split.
  - intros Hi. pose proof (OffsetFacts.addChange_elem (commentMark j) ms) as Hj.
    symmetry. eapply OffsetFacts.exclusive_same_type; [|exact Hi|exact Hj].
    by apply added_commentMarks.
  - intros ->. apply OffsetFacts.addChange_elem.
Qed.





Lemma exclusive_cell (doc : Node) (c : Z * list Mark) :
  exclusiveMarks doc = true -> c ∈ cells doc ->
  (length (commentMarks (snd c)) <= 1)%nat.
Proof.
  unfold exclusiveMarks. rewrite forallb_forall. intros H Hc.
  apply list_elem_of_In, H in Hc. by apply bool_decide_eq_true in Hc.
Qed.




(** *** Reloading: restore, then synchronize *)








Lemma omap_cons_eq {A B} (f : A -> option B) (x : A) (l : list A) :
  omap f (x :: l) = match f x with Some y => y :: omap f l | None => omap f l end.
Proof. done. Qed.









End RestoreFacts.

(** ** Commenting on text that is commented already *)

Module TakeoverFacts.
Import ProseMirror Comment Transform TiptapUtils SyncSpec DocSpec OffsetComments
  OffsetEditor EditorSpec Samples EditorSamples.

Lemma markedIn_cons (i : jsstring) (c : Z * list Mark) (cs : list (Z * list Mark)) :
  markedIn i (c :: cs)
  = (if bool_decide (commentMark i ∈ snd c) then [fst c] else []) ++ markedIn i cs.
Proof. unfold markedIn. cbn. by destruct (bool_decide _). Qed.

(** Another comment's marker gives way on the cells the new mark reaches. *)
Lemma added_markedIn (i j : jsstring) (F T : Z) (cs : list (Z * list Mark)) :
  i <> j ->
  Forall (fun c : Z * list Mark => (length (commentMarks (snd c)) <= 1)%nat) cs ->
  markedIn i (map (stepMarks (addChange (commentMark j)) F T) cs)
  = filter (fun x => ~ F <= x < T) (markedIn i cs).
Proof.
  intros Hne. induction 1 as [|c cs Hc Hcs IH]; [done|].
  cbn [map]. rewrite !markedIn_cons, filter_app, IH. f_equal.
  unfold stepMarks. destruct (decide (F <= fst c < T)) as [Hin|Hout]; cbn [fst snd].
  - rewrite bool_decide_eq_false_2
      by (rewrite RestoreFacts.added_elem by done; congruence).
    destruct (bool_decide _); [|done].
    by rewrite filter_cons, decide_False by tauto.
  - destruct (bool_decide _); [|done].
    by rewrite filter_cons, decide_True by done.
Qed.

Lemma filter_all {A} (P : A -> Prop) `{forall x, Decision (P x)} (l : list A) :
  (forall x, x ∈ l -> P x) -> filter P l = l.
Proof.
  induction l as [|x l IH]; intros Hall; [done|].
  rewrite filter_cons, decide_True by (apply Hall, list_elem_of_here).
  f_equal. apply IH. intros y Hy. by apply Hall, list_elem_of_further.
Qed.

Lemma exclusive_cells (doc : Node) :
  exclusiveMarks doc = true ->
  Forall (fun c : Z * list Mark => (length (commentMarks (snd c)) <= 1)%nat)
    (cells doc).
Proof.
  intros H. apply Forall_forall. intros c Hc.
  by apply RestoreFacts.exclusive_cell with doc.
Qed.

(** X7.  A comment added over text that another comment marks takes that
    text over, on a document in which no text carries two comment marks:
    each other marker keeps exactly its positions outside the selection.
    When the selection holds every position of the marker of a bound
    comment, the next run of the synchronizer orphans that comment. *)
Theorem add_comment_takes_over_marked_text :
  forall (doc : Node) (comments : list InlineComment) (from to : Z)
         (now : N) (random : jsstring) (created : Z),
    wellFormed doc = true -> exclusiveMarks doc = true ->
    let doc' := fst (handleAddComment doc comments from to now random created) in
    let comments' :=
      snd (handleAddComment doc comments from to now random created) in
    (forall other, other <> newCommentId now random ->
        markedPositions other doc'
        = filter (fun x => ~ from <= x < to) (markedPositions other doc))
    /\ (forall (k : nat) (c : InlineComment) (p : Position) (f : Z),
          comments !! k = Some c ->
          id c <> [] -> id c <> newCommentId now random ->
          position c = Some p -> Comment.from p = Some f ->
          (forall x, x ∈ markedPositions (id c) doc -> from <= x < to) ->
          fst (syncCommentPositionsWithEditorState doc' comments') !! k
          = Some (withPosition c
                    (orphanPosition
                       match textFragment p with
                       | Some fragment =>
                           if nonEmpty fragment then fragment else NoOriginalText
                       | None => NoOriginalText
                       end))).
Proof.
  intros doc comments F T now random created Hwf Hex. cbn zeta.
  assert (Hmarked : forall other, other <> newCommentId now random ->
    markedPositions other
      (fst (handleAddComment doc comments F T now random created))
    = filter (fun x => ~ F <= x < T) (markedPositions other doc)).
  { intros other Hne. unfold handleAddComment.
    destruct (decide (F = T)) as [->|Hft]; cbn [fst].
    - symmetry. apply filter_all. intros x _. lia.
    - unfold applyCommentMarkToSelection, addMark, markedPositions.
      rewrite TreeFacts.stepDoc_cells.
      by apply added_markedIn; [|apply exclusive_cells]. }
  split; [done|].
  intros k c p f Hk Hid Hne Hp Hf Hall.
  assert (Hwf' : wellFormed (fst (handleAddComment doc comments F T now random created))
                 = true).
  { unfold handleAddComment. destruct (decide (F = T)); cbn [fst]; [done|].
    by apply TreeFacts.stepDoc_wellFormed. }
  assert (Hnone : markerRuns (id c)
                    (fst (handleAddComment doc comments F T now random created)) = []).
  { apply TreeFacts.markerRuns_nil; [done|]. rewrite Hmarked by done.
    apply TreeFacts.filter_nil_not. intros x Hx Hout. by apply Hout, Hall. }
  assert (Hk' : snd (handleAddComment doc comments F T now random created) !! k
                = Some c).
  { unfold handleAddComment. destruct (decide (F = T)); cbn [snd]; [done|].
    by apply lookup_app_l_Some. }
  rewrite (SyncFacts.sync_lookup _ _ _ _ Hk').
  by rewrite (SyncFacts.syncComment_no_marker _ c p f Hid Hp Hf Hnone).
Qed.

Lemma add_comment_takes_over_marked_text_witness :
  fst (syncCommentPositionsWithEditorState
         (fst (handleAddComment twoMarkers [firstComment; secondComment] 1 3 0
                 (str "abcde") 0))
         (snd (handleAddComment twoMarkers [firstComment; secondComment] 1 3 0
                 (str "abcde") 0))) !! 0%nat
  = Some (withPosition firstComment (orphanPosition (str "ab"))).
Proof.
  refine (proj2 (add_comment_takes_over_marked_text twoMarkers
                   [firstComment; secondComment] 1 3 0%N (str "abcde") 0
                   eq_refl eq_refl)
            0%nat firstComment _ 1 eq_refl _ _ eq_refl eq_refl _).
  - intros H; vm_compute in H; discriminate H.
  - intros H; vm_compute in H; discriminate H.
  - intros x Hx. vm_compute in Hx.
    apply elem_of_cons in Hx as [->|Hx]; [lia|].
    apply elem_of_cons in Hx as [->|Hx]; [lia | by inversion Hx].
Defined.

End TakeoverFacts.

(** ** The space normalization on strings and on pasted content *)

Module PasteFacts.
Import ProseMirror PreserveSpaces PreserveSpacesPaste PasteSpec.

(** *** The normalization, unfolded *)

Lemma replace_normalize (s : jsstring) :
  replaceConsecutiveSpacesWithNbsp s = normalizeSpec s.
Proof. apply PreserveSpacesFacts.replaceLoop_spec. lia. Qed.

Lemma replace_nil : replaceConsecutiveSpacesWithNbsp [] = [].
Proof. done. Qed.

Lemma replace_match (s : jsstring) (n : nat) :
  matchSpaces s = Some n ->
  replaceConsecutiveSpacesWithNbsp s
  = replicate n NBSP ++ replaceConsecutiveSpacesWithNbsp (drop n s).
Proof.
  unfold matchSpaces. destruct (decide (2 <= leadingSpaces s)%nat) as [Hn|]; [|done].
  intros H. injection H as <-. rewrite !replace_normalize.
  rewrite (PreserveSpacesFacts.leadingSpaces_split s) at 1.
  apply PreserveSpacesFacts.normalizeSpec_spaces; [done|].
  apply PreserveSpacesFacts.leadingSpaces_drop.
Qed.

Lemma replace_copy (c : N) (r : jsstring) :
  matchSpaces (c :: r) = None ->
  replaceConsecutiveSpacesWithNbsp (c :: r)
  = c :: replaceConsecutiveSpacesWithNbsp r.
Proof.
  intros H. rewrite !replace_normalize.
  by apply PreserveSpacesFacts.normalizeSpec_copy.
Qed.

Lemma hasDoubleSpace_other (a : N) (v : jsstring) :
  a <> SPACE -> hasDoubleSpace (a :: v) = hasDoubleSpace v.
Proof.
  intros Ha. destruct v as [|b v]; [done|].
  cbn [hasDoubleSpace]. by rewrite (bool_decide_eq_false_2 (a = SPACE)).
Qed.

Lemma hasDoubleSpace_nbsp (n : nat) (v : jsstring) :
  hasDoubleSpace (replicate n NBSP ++ v) = hasDoubleSpace v.
Proof.
  induction n as [|n IH]; [done|].
  cbn [replicate app]. by rewrite hasDoubleSpace_other.
Qed.

Lemma hasDoubleSpace_space (b : N) (v : jsstring) :
  hasDoubleSpace (SPACE :: b :: v)
  = bool_decide (b = SPACE) || hasDoubleSpace (b :: v).
Proof. cbn [hasDoubleSpace]. by rewrite (bool_decide_eq_true_2 (SPACE = SPACE)). Qed.

Lemma matchSpaces_Some (s : jsstring) (k : nat) :
  matchSpaces s = Some k -> k = leadingSpaces s /\ (2 <= k <= length s)%nat.
Proof.
  unfold matchSpaces. destruct (decide (2 <= leadingSpaces s)%nat) as [Hk|]; [|done].
  intros H. assert (k = leadingSpaces s) as -> by congruence.
  pose proof (PreserveSpacesFacts.leadingSpaces_length s). split; [done | lia].
Qed.

Lemma length_replace (s : jsstring) :
  length (replaceConsecutiveSpacesWithNbsp s) = length s.
Proof.
  remember (length s) as n eqn:Hn. revert s Hn.
  induction n as [n IH] using lt_wf_ind. intros s Hn.
  destruct s as [|c r]; [done|].
  destruct (matchSpaces (c :: r)) as [k|] eqn:Hm.
  - rewrite (replace_match _ _ Hm), length_app, length_replicate.
    apply matchSpaces_Some in Hm as [_ Hk].
    rewrite (IH (length (drop k (c :: r))) ltac:(rewrite length_drop; lia)
               (drop k (c :: r)) eq_refl).
    rewrite length_drop. lia.
  - rewrite (replace_copy _ _ Hm). subst n. cbn [length]. f_equal.
    apply (IH (length r)); [cbn; lia | done].
Qed.

(** What the normalization leaves behind, and what it leaves alone. *)
Lemma replace_facts (s : jsstring) :
  hasDoubleSpace (replaceConsecutiveSpacesWithNbsp s) = false
  /\ (replaceConsecutiveSpacesWithNbsp s = s <-> hasDoubleSpace s = false).
Proof.
  remember (length s) as n eqn:Hn. revert s Hn.
  induction n as [n IH] using lt_wf_ind. intros s Hn.
  destruct s as [|c r]; [done|].
  destruct (matchSpaces (c :: r)) as [k|] eqn:Hm.
  - rewrite (replace_match _ _ Hm), hasDoubleSpace_nbsp.
    apply matchSpaces_Some in Hm as [-> Hk].
    destruct (IH (length (drop (leadingSpaces (c :: r)) (c :: r)))
                ltac:(rewrite length_drop; lia)
                (drop (leadingSpaces (c :: r)) (c :: r)) eq_refl) as [IH1 _].
    split; [done|].
    destruct Hk as [Hk _]. clear IH1. cbn [leadingSpaces] in *.
    destruct (decide (c = SPACE)) as [->|]; [|lia].
    destruct r as [|c2 r2]; [cbn in Hk; lia|].
    cbn [leadingSpaces] in *.
    destruct (decide (c2 = SPACE)) as [->|]; [|lia].
    rewrite hasDoubleSpace_space, bool_decide_eq_true_2 by done.
    cbn [replicate app]. split; [by inversion 1 | done].
  - rewrite (replace_copy _ _ Hm).
    destruct (IH (length r) ltac:(subst n; cbn; lia) r eq_refl) as [IH1 IH2].
    unfold matchSpaces in Hm.
    destruct (decide (2 <= leadingSpaces (c :: r))%nat) as [|Hk]; [done|].
    clear Hm. cbn [leadingSpaces] in Hk.
    destruct (decide (c = SPACE)) as [->|Hc].
    + destruct r as [|c2 r2]; [done|].
      cbn [leadingSpaces] in Hk.
      destruct (decide (c2 = SPACE)) as [|Hc2]; [lia|].
      assert (Hm2 : matchSpaces (c2 :: r2) = None).
      { unfold matchSpaces. cbn [leadingSpaces].
        rewrite (decide_False (P := c2 = SPACE)) by done.
        by rewrite decide_False by lia. }
      rewrite (replace_copy _ _ Hm2) in *.
      rewrite !hasDoubleSpace_space, !bool_decide_eq_false_2 by done.
      cbn [orb]. split; [done|]. rewrite <- IH2. split; congruence.
    + rewrite !hasDoubleSpace_other by done. split; [done|].
      rewrite <- IH2. split; congruence.
Qed.

(** X8.  The space normalization, as a function on strings: its result
    never holds two plain spaces side by side; it hands back its input
    exactly when the input holds no two plain spaces side by side; applied
    twice it gives what it gives applied once; and it keeps the length, so
    no position moves. *)
Theorem replaceConsecutiveSpacesWithNbsp_idempotent :
  forall text : jsstring,
    hasDoubleSpace (replaceConsecutiveSpacesWithNbsp text) = false
    /\ (replaceConsecutiveSpacesWithNbsp text = text
        <-> hasDoubleSpace text = false)
    /\ replaceConsecutiveSpacesWithNbsp (replaceConsecutiveSpacesWithNbsp text)
       = replaceConsecutiveSpacesWithNbsp text
    /\ length (replaceConsecutiveSpacesWithNbsp text) = length text.
Proof.
  intros text. destruct (replace_facts text) as [H1 H2].
  split; [done|]. split; [done|]. split; [|apply length_replace].
  by apply replace_facts.
Qed.

(** *** The pasted content *)

Lemma processLoop_map (cs : list Node) :
  processLoop processNode cs
  = (map (fun c => fst (processNode c)) cs,
     existsb (fun c => snd (processNode c)) cs).
Proof.
  induction cs as [|c cs IH]; [done|].
  cbn [processLoop map existsb] in *. rewrite IH. by destruct (processNode c).
Qed.

Lemma mapLoop_map (f : Node -> Node) (cs : list Node) : mapLoop f cs = map f cs.
Proof. induction cs as [|c cs IH]; [done|]. cbn [mapLoop map] in *. by rewrite IH. Qed.

Lemma allLoopb_forallb (p : Node -> bool) (cs : list Node) :
  allLoopb p cs = forallb p cs.
Proof. induction cs as [|c cs IH]; [done|]. cbn [allLoopb forallb] in *. by rewrite IH. Qed.

Lemma processNode_Elem k (cs : list Node) :
  processNode (Elem k cs)
  = if decide (0 < fragmentSize cs) then
      if existsb (fun c => snd (processNode c)) cs
      then (Elem k (fromArray (map (fun c => fst (processNode c)) cs)), true)
      else (Elem k cs, false)
    else (Elem k cs, false).
Proof.
  cbn [processNode]. destruct (decide (0 < fragmentSize cs)); [|done].
  by rewrite processLoop_map.
Qed.

Lemma mapTexts_Elem g k (cs : list Node) :
  mapTexts g (Elem k cs) = Elem k (map (mapTexts g) cs).
Proof. cbn [mapTexts]. by rewrite mapLoop_map. Qed.

Lemma allTexts_Elem p k (cs : list Node) :
  allTexts p (Elem k cs) = forallb (allTexts p) cs.
Proof. cbn [allTexts]. by rewrite allLoopb_forallb. Qed.

Lemma normalized_Elem k (cs : list Node) :
  normalized (Elem k cs) = noEqualNeighbours cs && forallb normalized cs.
Proof. cbn [normalized]. by rewrite allLoopb_forallb. Qed.

Lemma nodeSize_nonneg (n : Node) : 0 <= nodeSize n.
Proof.
  induction n as [t ms|k|k cs IH] using TreeFacts.Node_ind_nested.
  - cbn. lia.
  - cbn. lia.
  - rewrite TreeFacts.nodeSize_Elem.
    enough (0 <= fragmentSize cs) by lia.
    induction IH as [|c cs Hc _ IHcs]; [done|].
    rewrite TreeFacts.fragmentSize_cons. lia.
Qed.

Lemma fragmentSize_ge0 (cs : list Node) : 0 <= fragmentSize cs.
Proof.
  induction cs as [|c cs IH]; [done|].
  rewrite TreeFacts.fragmentSize_cons. pose proof (nodeSize_nonneg c). lia.
Qed.

(** A fragment of size 0 holds empty text nodes only. *)
Lemma fragment_empty (cs : list Node) :
  ~ 0 < fragmentSize cs -> Forall (fun c => exists ms, c = Text [] ms) cs.
Proof.
  induction cs as [|c cs IH]; [constructor|].
  rewrite TreeFacts.fragmentSize_cons. intros H.
  pose proof (nodeSize_nonneg c). pose proof (fragmentSize_ge0 cs).
  constructor; [|apply IH; lia].
  destruct c as [t ms|k|k cs']; [|cbn in *; lia|].
  - destruct t; [by exists ms | cbn in *; lia].
  - rewrite TreeFacts.nodeSize_Elem in *. pose proof (fragmentSize_ge0 cs'). lia.
Qed.

Lemma fragmentSize_fromArray (cs : list Node) :
  fragmentSize (fromArray cs) = fragmentSize cs.
Proof.
  induction cs as [|c cs IH]; [done|].
  cbn [fromArray]. rewrite TreeFacts.fragmentSize_cons, <- IH.
  destruct c as [t ms|k|k cs']; try by rewrite TreeFacts.fragmentSize_cons.
  destruct (fromArray cs) as [|[t' ms'|k'|k' cs''] joined];
    try by rewrite TreeFacts.fragmentSize_cons.
  destruct (decide (ms = ms')); [|by rewrite TreeFacts.fragmentSize_cons].
  rewrite !TreeFacts.fragmentSize_cons. cbn [nodeSize]. rewrite length_app. lia.
Qed.

Lemma noEqualNeighbours_tail (c : Node) (cs : list Node) :
  noEqualNeighbours (c :: cs) = true -> noEqualNeighbours cs = true.
Proof.
  destruct c as [t ms|k|k cs']; try done.
  destruct cs as [|[t' ms'|k'|k' cs''] r]; try done.
  cbn [noEqualNeighbours]. by intros [_ ?]%andb_true_iff.
Qed.

Lemma fromArray_id (cs : list Node) :
  noEqualNeighbours cs = true -> fromArray cs = cs.
Proof.
  induction cs as [|c cs IH]; [done|]. intros H.
  cbn [fromArray]. rewrite IH by (by apply noEqualNeighbours_tail in H).
  destruct c as [t ms|k|k cs']; try done.
  destruct cs as [|[t' ms'|k'|k' cs''] r]; try done.
  cbn [noEqualNeighbours] in H. apply andb_true_iff in H as [H _].
  apply negb_true_iff, bool_decide_eq_false in H. by rewrite decide_False.
Qed.

Lemma noEqualNeighbours_mapTexts g (cs : list Node) :
  noEqualNeighbours (map (mapTexts g) cs) = noEqualNeighbours cs.
Proof.
  induction cs as [|c cs IH]; [done|].
  destruct c as [t ms|k|k cs']; try done.
  destruct cs as [|[t' ms'|k'|k' cs''] r]; try done.
  cbn [map mapTexts noEqualNeighbours] in *. by rewrite IH.
Qed.

Lemma nodeSize_mapTexts g (n : Node) :
  (forall t, length (g t) = length t) -> nodeSize (mapTexts g n) = nodeSize n.
Proof.
  intros Hg. induction n as [t ms|k|k cs IH] using TreeFacts.Node_ind_nested.
  - cbn. by rewrite Hg.
  - done.
  - rewrite mapTexts_Elem, !TreeFacts.nodeSize_Elem. f_equal.
    induction IH as [|c cs Hc _ IHcs]; [done|].
    cbn [map]. rewrite !TreeFacts.fragmentSize_cons. lia.
Qed.

Lemma normalized_mapTexts g (n : Node) :
  normalized (mapTexts g n) = normalized n.
Proof.
  induction n as [t ms|k|k cs IH] using TreeFacts.Node_ind_nested; try done.
  rewrite mapTexts_Elem, !normalized_Elem, noEqualNeighbours_mapTexts. f_equal.
  induction IH as [|c cs Hc _ IHcs]; [done|].
  cbn [map forallb]. by rewrite Hc, IHcs.
Qed.

(** Texts without two spaces side by side are left as they are. *)
Lemma mapTexts_fixed (n : Node) :
  allTexts singleSpaced n = true ->
  mapTexts replaceConsecutiveSpacesWithNbsp n = n.
Proof.
  induction n as [t ms|k|k cs IH] using TreeFacts.Node_ind_nested; try done.
  - cbn [allTexts mapTexts]. unfold singleSpaced. intros H.
    apply negb_true_iff in H. by rewrite (proj2 (proj2 (replace_facts t)) H).
  - rewrite allTexts_Elem, mapTexts_Elem. intros H. f_equal.
    induction IH as [|c cs Hc _ IHcs]; [done|].
    cbn [forallb map] in *. apply andb_true_iff in H as [H1 H2].
    by rewrite Hc, IHcs.
Qed.

Lemma allTexts_mapTexts (n : Node) :
  allTexts singleSpaced (mapTexts replaceConsecutiveSpacesWithNbsp n) = true.
Proof.
  induction n as [t ms|k|k cs IH] using TreeFacts.Node_ind_nested; try done.
  - cbn [allTexts mapTexts]. unfold singleSpaced.
    by rewrite (proj1 (replace_facts t)).
  - rewrite mapTexts_Elem, allTexts_Elem.
    induction IH as [|c cs Hc _ IHcs]; [done|].
    cbn [forallb map]. by rewrite Hc, IHcs.
Qed.

Lemma existsb_negb {A} (p : A -> bool) (l : list A) :
  existsb (fun x => negb (p x)) l = negb (forallb p l).
Proof.
  induction l as [|x l IH]; [done|].
  cbn [existsb forallb]. rewrite IH. by destruct (p x).
Qed.

(** On a node as the framework keeps it, [processNode] rewrites every text,
    and returns a new node exactly when some text holds two spaces side by
    side. *)
Lemma processNode_spec (n : Node) :
  normalized n = true ->
  processNode n
  = (mapTexts replaceConsecutiveSpacesWithNbsp n,
     negb (allTexts singleSpaced n)).
Proof.
  induction n as [t ms|k|k cs IH] using TreeFacts.Node_ind_nested; intros Hn.
  - cbn [processNode mapTexts allTexts]. unfold singleSpaced.
    destruct (replace_facts t) as [_ Hfix].
    destruct (decide (replaceConsecutiveSpacesWithNbsp t = t)) as [E|E].
    + rewrite (proj1 Hfix E). cbn. by rewrite E.
    + destruct (hasDoubleSpace t) eqn:Hd; [done|]. exfalso. by apply E, Hfix.
  - done.
  - rewrite normalized_Elem in Hn. apply andb_true_iff in Hn as [Hnb Hall].
    rewrite processNode_Elem, mapTexts_Elem, allTexts_Elem.
    assert (Hmap : map (fun c => fst (processNode c)) cs
                   = map (mapTexts replaceConsecutiveSpacesWithNbsp) cs
                   /\ existsb (fun c => snd (processNode c)) cs
                      = negb (forallb (allTexts singleSpaced) cs)).
    { rewrite <- existsb_negb. clear Hnb.
      induction IH as [|c cs' Hc _ IHcs]; [done|].
      cbn [forallb map existsb] in *. apply andb_true_iff in Hall as [H1 H2].
      destruct (IHcs H2) as [-> ->]. by rewrite (Hc H1). }
    destruct Hmap as [-> ->].
    destruct (decide (0 < fragmentSize cs)) as [Hpos|Hzero].
    + destruct (forallb (allTexts singleSpaced) cs) eqn:Hs; cbn [negb].
      * f_equal. symmetry.
        rewrite <- mapTexts_Elem. apply mapTexts_fixed. by rewrite allTexts_Elem.
      * by rewrite fromArray_id by (by rewrite noEqualNeighbours_mapTexts).
    + apply fragment_empty in Hzero.
      assert (Hs : forallb (allTexts singleSpaced) cs = true).
      { apply forallb_forall. intros c Hc. apply list_elem_of_In in Hc.
        rewrite Forall_forall in Hzero. by destruct (Hzero c Hc) as [ms ->]. }
      rewrite Hs. cbn [negb]. f_equal. symmetry.
      rewrite <- mapTexts_Elem. apply mapTexts_fixed. by rewrite allTexts_Elem.
Qed.

Lemma nodeSize_processNode (n : Node) :
  nodeSize (fst (processNode n)) = nodeSize n.
Proof.
  induction n as [t ms|k|k cs IH] using TreeFacts.Node_ind_nested; try done.
  - cbn [processNode]. destruct (decide _) as [|]; [done|].
    cbn. by rewrite length_replace.
  - rewrite processNode_Elem.
    destruct (decide (0 < fragmentSize cs)) as [Hpos|]; [|done]. clear Hpos.
    destruct (existsb _ cs); [|done]. cbn [fst].
    rewrite !TreeFacts.nodeSize_Elem, fragmentSize_fromArray. f_equal.
    induction IH as [|c cs' Hc _ IHcs]; [done|].
    cbn [map]. rewrite !TreeFacts.fragmentSize_cons. lia.
Qed.

Lemma handlePaste_fold (sliceContent : list Node) :
  handlePaste sliceContent
  = if existsb (fun c => snd (processNode c)) sliceContent
    then Some (fromArray (map (fun c => fst (processNode c)) sliceContent))
    else None.
Proof. unfold handlePaste. by rewrite processLoop_map. Qed.

Lemma processed_slice (cs : list Node) :
  forallb normalized cs = true ->
  map (fun c => fst (processNode c)) cs
  = map (mapTexts replaceConsecutiveSpacesWithNbsp) cs
  /\ existsb (fun c => snd (processNode c)) cs
     = negb (forallb (allTexts singleSpaced) cs).
Proof.
  rewrite <- existsb_negb. induction cs as [|c cs IH]; [done|].
  cbn [forallb map existsb]. intros [H1 H2]%andb_true_iff.
  destruct (IH H2) as [-> ->]. by rewrite (processNode_spec c H1).
Qed.

(** X9.  What the paste handler inserts (the slice it builds, or the pasted
    slice itself where it leaves the paste to the default handling) has the
    size of the pasted slice.  On a slice as the framework keeps it, it is
    the pasted slice with every text normalized, marks and structure as
    they were, and no text of it holds two plain spaces side by side; the
    handler takes the paste over exactly when some text of the slice holds
    two plain spaces side by side, and what it inserts it would leave alone
    if it were pasted again. *)
Theorem handlePaste_normalizes_slice :
  (forall sliceContent : list Node,
      fragmentSize (default sliceContent (handlePaste sliceContent))
      = fragmentSize sliceContent)
  /\ (forall sliceContent : list Node,
        noEqualNeighbours sliceContent = true ->
        forallb normalized sliceContent = true ->
        let pasted := default sliceContent (handlePaste sliceContent) in
        pasted = map (mapTexts replaceConsecutiveSpacesWithNbsp) sliceContent
        /\ forallb (allTexts singleSpaced) pasted = true
        /\ (handlePaste sliceContent = None
            <-> forallb (allTexts singleSpaced) sliceContent = true)
        /\ noEqualNeighbours pasted = true
        /\ forallb normalized pasted = true
        /\ handlePaste pasted = None).
Proof.
  split.
  - intros cs. rewrite handlePaste_fold.
    destruct (existsb _ cs); [|done]. cbn [default from_option].
    unfold Datatypes.id. rewrite fragmentSize_fromArray.
    induction cs as [|c cs IH]; [done|].
    cbn [map]. rewrite !TreeFacts.fragmentSize_cons, nodeSize_processNode. lia.
  - intros cs Hnb Hall. cbn zeta.
    assert (Hpasted : default cs (handlePaste cs)
                      = map (mapTexts replaceConsecutiveSpacesWithNbsp) cs).
    { rewrite handlePaste_fold. destruct (processed_slice cs Hall) as [-> ->].
      destruct (forallb (allTexts singleSpaced) cs) eqn:Hs; cbn.
      - symmetry. clear Hnb Hall. induction cs as [|c cs IH]; [done|].
        cbn [forallb map] in *. apply andb_true_iff in Hs as [H1 H2].
        by rewrite (mapTexts_fixed c H1), IH.
      - unfold Datatypes.id.
        by rewrite fromArray_id by (by rewrite noEqualNeighbours_mapTexts). }
    assert (Hsingle : forallb (allTexts singleSpaced)
                        (map (mapTexts replaceConsecutiveSpacesWithNbsp) cs) = true).
    { apply forallb_forall. intros c Hc.
      apply list_elem_of_In, list_elem_of_fmap in Hc as (c0 & -> & _).
      apply allTexts_mapTexts. }
    assert (Hnorm : forallb normalized
                      (map (mapTexts replaceConsecutiveSpacesWithNbsp) cs) = true).
    { apply forallb_forall. intros c Hc.
      apply list_elem_of_In, list_elem_of_fmap in Hc as (c0 & -> & Hc0).
      rewrite normalized_mapTexts. rewrite forallb_forall in Hall.
      by apply Hall, list_elem_of_In. }
    rewrite Hpasted.
    split; [done|]. split; [done|]. split.
    { rewrite handlePaste_fold. destruct (processed_slice cs Hall) as [_ ->].
      by destruct (forallb (allTexts singleSpaced) cs). }
    split; [by rewrite noEqualNeighbours_mapTexts|]. split; [done|].
    rewrite handlePaste_fold. destruct (processed_slice _ Hnorm) as [_ ->].
    by rewrite Hsingle.
Qed.

Lemma handlePaste_normalizes_slice_witness :
  default [Elem Samples.paragraph [Text (str "a   b") []]]
    (handlePaste [Elem Samples.paragraph [Text (str "a   b") []]])
  = [Elem Samples.paragraph [Text (str "a" ++ [NBSP; NBSP; NBSP] ++ str "b") []]].
Proof.
  destruct (proj2 handlePaste_normalizes_slice
              [Elem Samples.paragraph [Text (str "a   b") []]] eq_refl eq_refl)
    as (H & _).
  rewrite H. reflexivity.
Defined.

End PasteFacts.

(** ** Computing a NodePath *)

Module ResolveFacts.
Import ProseMirror Comment Transform TiptapUtils DocSpec TiptapNodePath
  NodePathCalc NodePathSpec NodePathEditor Samples.

(** *** [findIndex] *)

Lemma fragmentSize_snoc (pre : list Node) (c : Node) :
  fragmentSize (pre ++ [c]) = fragmentSize pre + nodeSize c.
Proof.
  rewrite TreeFacts.fragmentSize_app, TreeFacts.fragmentSize_cons.
  change (fragmentSize []) with 0. lia.
Qed.

Lemma findIndexLoop_spec (rest : list Node) :
  forall (pre : list Node) (pos : Z),
    fragmentSize pre < pos <= fragmentSize pre + fragmentSize rest ->
    exists i off,
      findIndexLoop rest pos (Z.of_nat (length pre)) (fragmentSize pre)
      = Some (i, off)
      /\ 0 <= i <= Z.of_nat (length (pre ++ rest))
      /\ off = fragmentSize (take (Z.to_nat i) (pre ++ rest))
      /\ (off = pos
          \/ exists cur, (pre ++ rest) !! Z.to_nat i = Some cur
                         /\ off < pos < off + nodeSize cur).
Proof.
  induction rest as [|cur rest IH]; intros pre pos Hpos.
  - change (fragmentSize []) with 0 in Hpos. lia.
  - rewrite TreeFacts.fragmentSize_cons in Hpos. cbn [findIndexLoop].
    destruct (decide (fragmentSize pre + nodeSize cur >= pos)) as [Hge|Hlt].
    + destruct (decide (fragmentSize pre + nodeSize cur = pos)) as [He|Hne].
      * exists (Z.of_nat (length pre) + 1), (fragmentSize pre + nodeSize cur).
        split; [done|]. rewrite length_app. cbn [length].
        split; [lia|]. split; [|by left].
        replace (Z.to_nat (Z.of_nat (length pre) + 1)) with (length (pre ++ [cur]))
          by (rewrite length_app; cbn; lia).
        rewrite (cons_middle cur pre rest), app_assoc, take_app_length.
        by rewrite fragmentSize_snoc.
      * exists (Z.of_nat (length pre)), (fragmentSize pre).
        split; [done|]. rewrite length_app. cbn [length].
        split; [lia|]. rewrite Nat2Z.id, take_app_length. split; [done|].
        right. exists cur. split; [|lia].
        by rewrite lookup_app_r, Nat.sub_diag by lia.
    + specialize (IH (pre ++ [cur]) pos).
      rewrite fragmentSize_snoc, length_app in IH. cbn [length] in IH.
      replace (Z.of_nat (length pre + 1)) with (Z.of_nat (length pre) + 1) in IH
        by lia.
      rewrite <- app_assoc in IH. cbn [app] in IH. apply IH. lia.
Qed.

Lemma findIndex_spec (content : list Node) (pos : Z) :
  0 <= pos <= fragmentSize content ->
  exists i off,
    findIndex content pos = Some (i, off)
    /\ 0 <= i <= Z.of_nat (length content)
    /\ off = fragmentSize (take (Z.to_nat i) content)
    /\ (off = pos
        \/ exists cur, content !! Z.to_nat i = Some cur
                       /\ off < pos < off + nodeSize cur).
Proof.
  intros Hpos. unfold findIndex.
  destruct (decide (pos = 0)) as [->|H0].
  - exists 0, 0. split; [done|]. split; [lia|]. split; [done | by left].
  - destruct (decide (pos = fragmentSize content)) as [->|Hs].
    + exists (Z.of_nat (length content)), (fragmentSize content).
      split; [done|]. split; [lia|]. rewrite Nat2Z.id, firstn_all.
      split; [done | by left].
    + rewrite decide_False by lia.
      apply (findIndexLoop_spec content [] pos).
      change (fragmentSize []) with 0. lia.
Qed.

Lemma findIndex_None (content : list Node) (pos : Z) :
  ~ 0 <= pos <= fragmentSize content -> findIndex content pos = None.
Proof.
  intros H. unfold findIndex. pose proof (PasteFacts.fragmentSize_ge0 content).
  rewrite decide_False by lia. rewrite decide_False by lia.
  by rewrite decide_True by lia.
Qed.

(** *** [resolve] *)

Lemma elem_size (cs : list Node) (i : nat) (c : Node) :
  cs !! i = Some c -> nodeSize c <= fragmentSize cs.
Proof.
  revert i. induction cs as [|c0 cs IH]; intros i Hi; [done|].
  rewrite TreeFacts.fragmentSize_cons.
  pose proof (PasteFacts.nodeSize_nonneg c0).
  pose proof (PasteFacts.fragmentSize_ge0 cs).
  destruct i as [|i]; cbn in Hi.
  - injection Hi as ->. lia.
  - specialize (IH i Hi). lia.
Qed.

Lemma contentSize_child (n : Node) (i : nat) (c : Node) :
  children n !! i = Some c -> contentSize n + 2 = nodeSize n.
Proof.
  destruct n as [t ms|k|k cs]; [by inversion 1 | by inversion 1 | intros _].
  rewrite TreeFacts.contentSize_Elem, TreeFacts.nodeSize_Elem. lia.
Qed.

Lemma child_lookup (n : Node) (i : Z) (c : Node) :
  0 <= i -> children n !! Z.to_nat i = Some c -> child n (Some i) = Some c.
Proof. intros Hi Hc. unfold child. by rewrite decide_True. Qed.

Lemma resolveLoop_spec (fuel : nat) :
  forall (node : Node) (po start : Z),
    nodeSize node < Z.of_nat fuel -> 0 <= po <= contentSize node ->
    exists path,
      resolveLoop fuel node po start = Some path
      /\ leadsTo node start (start + po) path.
Proof.
  induction fuel as [|fuel IH]; intros node po start Hfuel Hpo.
  - pose proof (PasteFacts.nodeSize_nonneg node). lia.
  - cbn [resolveLoop].
    destruct (findIndex_spec (children node) po Hpo) as (i & off & -> & Hi & Hoff & Hcase).
    assert (Hp : start + off = start + sizeBefore node (Some i))
      by (unfold sizeBefore; lia).
    assert (Hcount : 0 <= i <= childCount node) by (unfold childCount; lia).
    destruct (decide (po - off = 0)) as [Hrem|Hrem].
    + eexists. split; [done|]. cbn [leadsTo].
      split; [done|]. split; [done|]. split; [done|]. left. lia.
    + destruct Hcase as [?|(cur & Hcur & Hin)]; [lia|].
      rewrite (child_lookup node i cur) by (lia || done).
      destruct cur as [t ms|k|k cs] eqn:Ecur.
      * cbn [isText]. eexists. split; [done|]. cbn [leadsTo].
        split; [done|]. split; [done|]. split; [done|]. right.
        exists t, ms. split; [by apply child_lookup; [lia|]|].
        cbn [nodeSize] in Hin. lia.
      * cbn [nodeSize] in Hin. lia.
      * cbn [isText].
        pose proof (elem_size _ _ _ Hcur) as Hsize.
        pose proof (contentSize_child _ _ _ Hcur) as Hle. unfold contentSize in Hle.
        assert (Hfuel' : nodeSize (Elem k cs) < Z.of_nat fuel) by lia.
        assert (Hpo' : 0 <= po - off - 1 <= contentSize (Elem k cs)).
        { rewrite TreeFacts.contentSize_Elem.
          rewrite TreeFacts.nodeSize_Elem in Hin. lia. }
        destruct (IH (Elem k cs) (po - off - 1) (start + off + 1) Hfuel' Hpo')
          as (path & -> & Hpath).
        eexists. split; [done|].
        destruct path as [|[[n' i'] p'] rest]; [done|].
        pose proof Hpath as Hhead. cbn [leadsTo] in Hhead. destruct Hhead as [-> _].
        cbn [leadsTo]. split; [done|]. split; [done|]. split; [done|].
        split; [by apply child_lookup; [lia|]|]. split; [done|].
        split; [lia|].
        replace (start + off + 1 + (po - off - 1)) with (start + po) in Hpath by lia.
        exact Hpath.
Qed.

Lemma resolve_spec (doc : Node) (pos : Z) :
  0 <= pos <= contentSize doc ->
  exists path, resolve doc pos = Some path /\ leadsTo doc 0 pos path.
Proof.
  intros Hpos. unfold resolve. rewrite decide_True by done.
  destruct (resolveLoop_spec (S (Z.to_nat (nodeSize doc))) doc pos 0
              ltac:(pose proof (PasteFacts.nodeSize_nonneg doc); lia) Hpos)
    as (path & Hr & Hl).
  by exists path.
Qed.

Lemma resolve_None (doc : Node) (pos : Z) :
  ~ 0 <= pos <= contentSize doc -> resolve doc pos = None.
Proof. intros H. unfold resolve. by rewrite decide_False. Qed.

(** *** The path and its segments *)

Lemma nodeAt_lookup (path : list (Node * Z * Z)) (d : nat) :
  nodeAt path (Z.of_nat d) = fst <$> (fst <$> path !! d).
Proof. unfold nodeAt. rewrite decide_True by lia. by rewrite Nat2Z.id. Qed.

Lemma indexAt_lookup (path : list (Node * Z * Z)) (d : nat) :
  indexAt path (Z.of_nat d) = snd <$> (fst <$> path !! d).
Proof. unfold indexAt. rewrite decide_True by lia. by rewrite Nat2Z.id. Qed.

Lemma segmentsOf_length (path : list (Node * Z * Z)) :
  length (segmentsOf path) = (length path - 1)%nat.
Proof.
  induction path as [|[[n i] p] rest IH]; [done|].
  destruct rest as [|[[n' i'] p'] rest']; [done|].
  cbn [segmentsOf length] in *. rewrite IH. lia.
Qed.

Lemma segmentsOf_lookup (path : list (Node * Z * Z)) :
  forall (d : nat) (e1 e2 : Node * Z * Z),
    path !! d = Some e1 -> path !! S d = Some e2 ->
    segmentsOf path !! d
    = Some (segment (prosemirrorTypeToTagName (nodeTypeName (fst (fst e2)))
                       (nodeLevel (fst (fst e2))))
              (snd (fst e1))).
Proof.
  induction path as [|[[n i] p] rest IH]; intros d e1 e2 H1 H2; [done|].
  destruct rest as [|[[n' i'] p'] rest']; [done|].
  destruct d as [|d].
  - cbn in H1, H2. injection H1 as <-. injection H2 as <-. done.
  - cbn [segmentsOf]. rewrite lookup_cons_ne_0 by lia. cbn [Nat.pred].
    apply IH; [exact H1 | exact H2].
Qed.

Lemma segmentsFrom_spec (path : list (Node * Z * Z)) (d : nat) :
  forall acc,
    (d <= length path - 1)%nat ->
    segmentsFrom path d acc = Some (take d (segmentsOf path) ++ acc).
Proof.
  induction d as [|d IH]; intros acc Hd; [done|].
  cbn [segmentsFrom].
  replace (Z.of_nat (S d) - 1) with (Z.of_nat d) by lia.
  rewrite nodeAt_lookup, indexAt_lookup.
  destruct (path !! S d) as [e2|] eqn:H2;
    [|apply lookup_ge_None in H2; lia].
  destruct (path !! d) as [e1|] eqn:H1;
    [|apply lookup_ge_None in H1; lia].
  cbn [fmap option_fmap option_map].
  rewrite IH by lia.
  rewrite (take_S_r _ _ _ (segmentsOf_lookup path d e1 e2 H1 H2)).
  by rewrite <- app_assoc.
Qed.

Lemma leadsTo_nonempty (node : Node) (s pos : Z) (path : list (Node * Z * Z)) :
  leadsTo node s pos path -> (1 <= length path)%nat.
Proof. destruct path; [done | cbn; lia]. Qed.

(** The node at the greatest depth is the one the path ends in; below the
    root it is no text node. *)
Lemma leadsTo_last (path : list (Node * Z * Z)) :
  forall (node : Node) (s pos rootStart : Z),
    leadsTo node s pos path ->
    nodeAt path (depth path) = Some (fst (targetOf node rootStart path))
    /\ (depth path > 0 -> isText (fst (targetOf node rootStart path)) = false).
Proof.
  induction path as [|[[n i] p] rest IH]; intros node s pos rootStart H; [done|].
  destruct rest as [|[[n' i'] p'] rest'].
  - cbn in H. destruct H as [-> _]. unfold depth. cbn. split; [done | lia].
  - cbn [leadsTo] in H. destruct H as (-> & _ & _ & Hc & Ht & _ & Hrest).
    destruct (IH n' (p + 1) pos p Hrest) as [IH1 IH2].
    cbn [targetOf]. unfold depth in *. cbn [length] in *.
    replace (Z.of_nat (S (S (length rest'))) - 1)
      with (Z.of_nat (S (length rest'))) by lia.
    rewrite nodeAt_lookup. cbn [lookup list_lookup].
    replace (Z.of_nat (S (length rest')) - 1)
      with (Z.of_nat (length rest')) in IH1, IH2 by lia.
    rewrite nodeAt_lookup in IH1. split; [exact IH1|]. intros _.
    destruct rest' as [|e rest'']; [done|]. apply IH2. cbn [length]. lia.
Qed.

Lemma calculate_spec (doc : Node) (from to : Z) :
  0 <= from <= contentSize doc ->
  exists path,
    leadsTo doc 0 from path
    /\ calculateNodePathForProseMirrorSelection doc from to
       = Some (mkNodePath (join (str " > ") (segmentsOf path)) 0
                 (nodeSize (fst (targetOf doc 0 path)))
                 (trim (textContent (fst (targetOf doc 0 path))))).
Proof.
  intros Hfrom. destruct (resolve_spec doc from Hfrom) as (path & Hr & Hl).
  exists path. split; [done|].
  unfold calculateNodePathForProseMirrorSelection. rewrite Hr.
  destruct (leadsTo_last path doc 0 from 0 Hl) as [Hlast Htext].
  pose proof (leadsTo_nonempty _ _ _ _ Hl) as Hlen.
  rewrite Hlast.
  assert (Htarget : (if bool_decide (depth path > 0)
                        && isText (fst (targetOf doc 0 path))
                     then depth path - 1 else depth path) = depth path).
  { destruct (bool_decide (depth path > 0)) eqn:Hd; [|done].
    apply bool_decide_eq_true in Hd. by rewrite (Htext Hd). }
  rewrite Htarget. unfold depth in *.
  rewrite decide_False by lia.
  rewrite segmentsFrom_spec by lia.
  rewrite firstn_all2 by (rewrite segmentsOf_length; lia).
  by rewrite app_nil_r, Hlast.
Qed.

Lemma calculate_None (doc : Node) (from to : Z) :
  ~ 0 <= from <= contentSize doc ->
  calculateNodePathForProseMirrorSelection doc from to = None.
Proof.
  intros H. unfold calculateNodePathForProseMirrorSelection.
  by rewrite resolve_None.
Qed.

(** *** The node a path ends in *)

Lemma allNodes_child (node : Node) (s : Z) (i : nat) (c : Node) :
  children node !! i = Some c ->
  (c, s + fragmentSize (take i (children node))) ∈ allNodes node s
  /\ forall v,
       v ∈ allNodes c (s + fragmentSize (take i (children node)) + 1) ->
       v ∈ allNodes node s.
Proof.
  destruct node as [t ms|k|k cs]; [by inversion 1 | by inversion 1 |].
  cbn [children]. intros Hc. rewrite TreeFacts.allNodes_Elem.
  assert (Hall : allNodesFragment cs s
                 = allNodesFragment (take i cs) s
                   ++ (c, s + fragmentSize (take i cs))
                      :: allNodes c (s + fragmentSize (take i cs) + 1)
                      ++ allNodesFragment (drop (S i) cs)
                           (s + fragmentSize (take i cs) + nodeSize c)).
  { rewrite <- (take_drop_middle cs i c Hc) at 1.
    by rewrite TreeFacts.allNodesFragment_app, TreeFacts.allNodesFragment_cons. }
  rewrite Hall. split.
  - apply elem_of_app. right. apply list_elem_of_here.
  - intros v Hv. apply elem_of_app. right. apply list_elem_of_further.
    apply elem_of_app. by left.
Qed.

Lemma child_Some (node : Node) (index : Z) (c : Node) :
  child node (Some index) = Some c ->
  0 <= index /\ children node !! Z.to_nat index = Some c.
Proof. unfold child. by destruct (decide (0 <= index)). Qed.

Lemma leadsTo_target (path : list (Node * Z * Z)) :
  forall (node : Node) (s pos rootStart : Z),
    leadsTo node s pos path ->
    (segmentsOf path = [] /\ targetOf node rootStart path = (node, rootStart))
    \/ (segmentsOf path <> []
        /\ isText (fst (targetOf node rootStart path)) = false
        /\ snd (targetOf node rootStart path) < pos
           < snd (targetOf node rootStart path)
             + nodeSize (fst (targetOf node rootStart path))
        /\ targetOf node rootStart path ∈ allNodes node s).
Proof.
  induction path as [|[[n i] p] rest IH]; intros node s pos rootStart H; [done|].
  destruct rest as [|[[n' i'] p'] rest']; [by left|]. right.
  cbn [leadsTo] in H. destruct H as (-> & _ & Hp & Hc & Ht & Hin & Hrest).
  apply child_Some in Hc as [Hi Hc]. unfold sizeBefore in Hp.
  destruct (allNodes_child node s _ _ Hc) as [Hself Hbelow]. rewrite <- Hp in *.
  change (targetOf node rootStart ((node, i, p) :: (n', i', p') :: rest'))
    with (targetOf n' p ((n', i', p') :: rest')).
  split; [done|].
  destruct (IH n' (p + 1) pos p Hrest) as [[_ ->]|(_ & H1 & H2 & H3)].
  - done.
  - split; [done|]. split; [done|]. by apply Hbelow.
Qed.





(** *** When the path is empty *)






(** When [restoreMarkFromNodePath] succeeds, and what it does then. *)
Lemma restore_succeeds_iff (doc : Node) (comment : InlineComment)
    (markName : jsstring) :
  (restored (restoreMarkFromNodePath doc comment markName) = true
   <-> (exists p, position comment = Some p /\ path p = Some [])
       /\ 0 < contentSize doc)
  /\ (restored (restoreMarkFromNodePath doc comment markName) = false ->
      editorDoc (restoreMarkFromNodePath doc comment markName) = doc)
  /\ (restored (restoreMarkFromNodePath doc comment markName) = true ->
      editorDoc (restoreMarkFromNodePath doc comment markName)
      = setMarkOver doc 0 (contentSize doc) markName (id comment)).
Proof.
  destruct (position comment) as [p|] eqn:Hpos.
  - destruct (path p) as [[|c s]|] eqn:Hpath.
    + unfold restoreMarkFromNodePath, restoreMarkFromNodePathWith.
      rewrite Hpos, Hpath.
      destruct (decide (0 < contentSize doc)) as [Hs|Hs].
      * rewrite !bool_decide_eq_true_2 by lia. cbn [andb restored editorDoc].
        split; [split; [intros _; split; [by exists p | done] | done]|].
        by split.
      * rewrite bool_decide_eq_false_2 by lia. cbn [andb restored editorDoc].
        split; [split; [done | by intros [_ ?]]|]. by split.
    + destruct (NodePathFacts.restore_path_never_succeeds doc comment markName
                  p c s Hpos Hpath) as [Hr Hd].
      rewrite Hr. split; [|by split].
      split; [done|]. intros [(p' & Hp' & Hpath') _].
      injection Hp' as <-. by rewrite Hpath in Hpath'.
    + unfold restoreMarkFromNodePath, restoreMarkFromNodePathWith.
      rewrite Hpos, Hpath. cbn [restored editorDoc].
      split; [|by split].
      split; [done|]. intros [(p' & Hp' & Hpath') _].
      injection Hp' as <-. by rewrite Hpath in Hpath'.
  - unfold restoreMarkFromNodePath, restoreMarkFromNodePathWith.
    rewrite Hpos. cbn [restored editorDoc].
    split; [|by split].
    split; [done|]. by intros [(p' & Hp' & _) _].
Qed.

(** X11.  When [restoreMarkFromNodePath] succeeds: exactly for a comment
    whose stored path is the empty string, on a document that is not empty;
    it then marks the whole content.  In every other case it returns
    [false] and leaves the document as it was.  So of the anchors the
    repository computes only the whole-document anchor is ever restored. *)
Theorem computed_path_restores_whole_document_only :
  forall (doc : Node) (comment : InlineComment) (markName : jsstring),
    let r := restoreMarkFromNodePath doc comment markName in
    (restored r = true
     <-> (exists p, position comment = Some p /\ path p = Some [])
         /\ 0 < contentSize doc)
    /\ (restored r = false -> editorDoc r = doc)
    /\ (restored r = true ->
        editorDoc r
        = setMarkOver doc 0 (contentSize doc) markName (id comment))
    /\ (forall from to np,
          calculateNodePathForProseMirrorSelection doc from to = Some np ->
          position comment = Some (positionOf np) ->
          restored r = true <-> np_path np = [] /\ 0 < contentSize doc).
Proof.
  intros doc comment markName. cbn zeta.
  destruct (restore_succeeds_iff doc comment markName) as (H1 & H2 & H3).
  split; [done|]. split; [done|]. split; [done|].
  intros from to np _ Hpos. rewrite H1. split.
  - intros [(p & Hp & Hpath) Hs]. rewrite Hpos in Hp. injection Hp as <-.
    cbn [positionOf path] in Hpath. by injection Hpath as ->.
  - intros [Hpath Hs]. split; [|done]. exists (positionOf np).
    split; [done|]. cbn [positionOf path]. by rewrite Hpath.
Qed.

End ResolveFacts.

(** ** The path written and the grammar [tagName:nth-child(N)] *)

Module PathGrammarFacts.
Import ProseMirror Comment Transform TiptapUtils DocSpec TiptapNodePath
  NodePathCalc NodePathSpec NodePathEditor Samples.

(** *** Numbers *)

Lemma str_String (a : ascii) (s : string) :
  str (String a s) = N_of_ascii a :: str s.
Proof. done. Qed.

Lemma str_pretty_go (x : N) :
  forall s : string,
    str (pretty_N_go x s) = str (pretty_N_go x "") ++ str s.
Proof.
  induction x as [x IH] using (well_founded_induction N.lt_wf_0). intros s.
  destruct (decide (0 < x)%N) as [Hx|Hx].
  - rewrite !(pretty_N_go_step x) by done.
    assert (Hlt : (x `div` 10 < x)%N) by (apply N.div_lt; lia).
    rewrite (IH _ Hlt (String _ s)), (IH _ Hlt (String _ "")).
    rewrite !str_String. change (str "") with (@nil N).
    by rewrite <- app_assoc.
  - assert (x = 0%N) as -> by lia. by rewrite !pretty_N_go_0.
Qed.

Lemma digits_step (x : N) :
  (0 < x)%N ->
  str (pretty_N_go x "")
  = str (pretty_N_go (x `div` 10) "") ++ [N_of_ascii (pretty_N_char (x `mod` 10))].
Proof.
  intros Hx. rewrite (pretty_N_go_step x) by done.
  by rewrite str_pretty_go, str_String.
Qed.

Lemma digit_code (d : N) :
  (d < 10)%N -> N_of_ascii (pretty_N_char d) = (48 + d)%N.
Proof.
  intros Hd. destruct d as [|p]; [done|].
  do 4 (destruct p as [p|p|]; try reflexivity; try lia).
Qed.

Lemma digitsValue_snoc (l : jsstring) (c : N) :
  forall acc, digitsValue acc (l ++ [c]) = 10 * digitsValue acc l + (Z.of_N c - 48).
Proof. induction l as [|a l IH]; intros acc; [done|]. cbn. apply IH. Qed.

(** The decimal digits of a number that is not 0. *)
Lemma digits_spec (x : N) :
  (0 < x)%N ->
  str (pretty_N_go x "") <> []
  /\ forallb isDigit (str (pretty_N_go x "")) = true
  /\ digitsValue 0 (str (pretty_N_go x "")) = Z.of_N x.
Proof.
  induction x as [x IH] using (well_founded_induction N.lt_wf_0). intros Hx.
  rewrite digits_step by done.
  assert (Hd : (x `mod` 10 < 10)%N) by (apply N.mod_lt; lia).
  rewrite digit_code by done.
  pose proof (N.div_mod x 10 ltac:(lia)) as Hdm.
  assert (Hlt : (x `div` 10 < x)%N) by (apply N.div_lt; lia).
  specialize (IH (x `div` 10)%N Hlt).
  remember (x `mod` 10)%N as d eqn:Ed. remember (x `div` 10)%N as q eqn:Eq.
  split; [by destruct (str _)|].
  rewrite forallb_app, digitsValue_snoc.
  assert (Hlast : isDigit (48 + d) = true).
  { unfold isDigit, inRange. apply andb_true_iff.
    split; apply bool_decide_eq_true; lia. }
  cbn [forallb]. rewrite Hlast.
  destruct (decide (0 < q)%N) as [Hq|Hq].
  - destruct (IH Hq) as (_ & H1 & H2). rewrite H1, H2. split; [done | lia].
  - assert (Hz : q = 0%N) by lia. rewrite Hz, pretty_N_go_0.
    change (str "") with (@nil N). split; [done|]. cbn [digitsValue]. lia.
Qed.

Lemma numberToString_pos (n : Z) :
  0 < n -> numberToString n = str (pretty_N_go (Z.to_N n) "").
Proof.
  intros Hn. destruct n as [|p|p]; [lia| |lia].
  unfold numberToString, pretty, pretty_Z, pretty, pretty_positive, pretty,
    pretty_N. by rewrite decide_False.
Qed.

Lemma span_all (p : N -> bool) (l r : jsstring) :
  forallb p l = true ->
  match r with [] => True | c :: _ => p c = false end ->
  span p (l ++ r) = (l, r).
Proof.
  intros Hl Hr. induction l as [|a l IH].
  - destruct r as [|c r]; [done|]. cbn. by rewrite Hr.
  - cbn [forallb] in Hl. apply andb_true_iff in Hl as [Ha Hl].
    cbn [app span]. by rewrite Ha, (IH Hl).
Qed.

Lemma span_none (p : N -> bool) (c : N) (r : jsstring) :
  p c = false -> span p (c :: r) = ([], c :: r).
Proof. intros H. cbn. by rewrite H. Qed.

Lemma digit_not_space (c : N) : isDigit c = true -> isWhiteSpace c = false.
Proof.
  unfold isDigit, isWhiteSpace, inRange. intros H.
  apply andb_true_iff in H as [H1 H2]. apply bool_decide_eq_true in H1, H2.
  rewrite !(bool_decide_eq_false_2 (c = _)) by lia.
  rewrite (bool_decide_eq_false_2 (c <= 13)%N) by lia.
  rewrite (bool_decide_eq_false_2 (8192 <= c)%N) by lia.
  by rewrite !andb_false_r.
Qed.

(** [parseInt] reads back what the template literal wrote. *)
Lemma parseInt_numberToString (n : Z) :
  0 < n ->
  parseInt10 (numberToString n) = Some n
  /\ numberToString n <> []
  /\ forallb isDigit (numberToString n) = true.
Proof.
  intros Hn. rewrite numberToString_pos by done.
  destruct (digits_spec (Z.to_N n) ltac:(lia)) as (Hne & Hds & Hval).
  split; [|by split].
  unfold parseInt10.
  destruct (str (pretty_N_go (Z.to_N n) "")) as [|c ds] eqn:E; [done|].
  cbn [forallb] in Hds. apply andb_true_iff in Hds as [Hc Hds].
  rewrite (span_none isWhiteSpace c ds (digit_not_space c Hc)). cbn [snd].
  assert (Hsign : c <> 45%N /\ c <> 43%N).
  { unfold isDigit, inRange in Hc. apply andb_true_iff in Hc as [H1 H2].
    apply bool_decide_eq_true in H1, H2. lia. }
  rewrite !decide_False by tauto.
  assert (Hspan : span isDigit (c :: ds) = (c :: ds, [])).
  { rewrite <- (app_nil_r (c :: ds)) at 1.
    apply span_all; [by cbn [forallb]; rewrite Hc, Hds | done]. }
  rewrite Hspan. cbn [fst]. rewrite Hval. f_equal. lia.
Qed.

(** *** One segment *)

Lemma stripPrefix_app (prefix r : jsstring) :
  stripPrefix prefix (prefix ++ r) = Some r.
Proof.
  induction prefix as [|a prefix IH]; [by destruct r|].
  cbn. by rewrite decide_True.
Qed.

Lemma digit_tagChar (c : N) : isDigit c = true -> isTagChar c = true.
Proof. unfold isDigit, isTagChar. intros ->. by rewrite orb_true_r. Qed.

Lemma digits_tagChars (ds : jsstring) :
  forallb isDigit ds = true -> forallb isTagChar ds = true.
Proof.
  induction ds as [|c ds IH]; [done|]. cbn [forallb].
  intros [Hc Hds]%andb_true_iff. by rewrite (digit_tagChar c Hc), IH.
Qed.

(** The intended pattern reads a segment the repository writes. *)
Lemma matchSegment_spec_segment (tagName : jsstring) (i : Z) :
  nonEmpty tagName = true -> forallb isTagChar tagName = true -> 0 <= i ->
  matchSegment_spec (segment tagName i)
  = Some (tagName, numberToString (i + 1)).
Proof.
  intros Hne Htag Hi.
  destruct (parseInt_numberToString (i + 1) ltac:(lia)) as (_ & Hds & Hall).
  unfold matchSegment_spec, segment.
  rewrite (span_all isTagChar tagName _ Htag); [|done].
  rewrite Hne, stripPrefix_app.
  rewrite (span_all isDigit _ (str ")") Hall); [|done].
  destruct (numberToString (i + 1)) eqn:E; [done|].
  cbn [nonEmpty andb]. by rewrite bool_decide_eq_true_2.
Qed.

(** The tag of a node whose type name can stand in a segment. *)
Lemma tag_ok (n : Node) :
  tagNameOk n = true ->
  nonEmpty (prosemirrorTypeToTagName (nodeTypeName n) (nodeLevel n)) = true
  /\ forallb isTagChar (prosemirrorTypeToTagName (nodeTypeName n) (nodeLevel n))
     = true.
Proof.
  intros Hok. unfold prosemirrorTypeToTagName.
  destruct (decide (nodeTypeName n = str "paragraph")); [done|].
  destruct (decide (nodeTypeName n = str "heading")).
  { set (l := match nodeLevel n with
              | Some l => if decide (l = 0%N) then 1%N else l
              | None => 1%N
              end).
    assert (Hl : (0 < l)%N).
    { subst l. destruct (nodeLevel n) as [l|]; [|done].
      destruct (decide (l = 0%N)); lia. }
    unfold pretty, pretty_N. rewrite decide_False by lia.
    destruct (digits_spec l Hl) as (_ & Hds & _).
    split; [done|]. rewrite forallb_app, (digits_tagChars _ Hds). done. }
  destruct (decide (nodeTypeName n = str "listItem")); [done|].
  destruct (decide (nodeTypeName n = str "bulletList")); [done|].
  destruct (decide (nodeTypeName n = str "orderedList")); [done|].
  destruct (decide (nodeTypeName n = str "blockquote")); [done|].
  destruct n as [t ms|k|k cs]; [done | |];
    cbn [tagNameOk nodeTypeName] in *; by apply andb_true_iff in Hok.
Qed.

Lemma tagChar_no_space (c : N) : isTagChar c = true -> c <> SPACE.
Proof. intros H ->. by vm_compute in H. Qed.

Lemma segment_no_space (tagName : jsstring) (i : Z) :
  forallb isTagChar tagName = true -> 0 <= i ->
  Forall (fun c => c <> SPACE) (segment tagName i).
Proof.
  intros Htag Hi.
  destruct (parseInt_numberToString (i + 1) ltac:(lia)) as (_ & _ & Hall).
  assert (Hchars : forall l, forallb isTagChar l = true ->
                     Forall (fun c => c <> SPACE) l).
  { intros l Hl. apply Forall_forall. intros c Hc. apply tagChar_no_space.
    rewrite forallb_forall in Hl. by apply Hl, list_elem_of_In. }
  assert (Hlit : forall l,
            forallb (fun c => negb (bool_decide (c = SPACE))) l = true ->
            Forall (fun c => c <> SPACE) l).
  { intros l Hl. apply Forall_forall. intros c Hc.
    rewrite forallb_forall in Hl. apply list_elem_of_In, Hl in Hc.
    by apply negb_true_iff, bool_decide_eq_false in Hc. }
  unfold segment. repeat apply Forall_app_2.
  - by apply Hchars.
  - by apply Hlit.
  - by apply Hchars, digits_tagChars.
  - by apply Hlit.
Qed.

(** *** Splitting the joined path *)

Lemma splitLoop_nosep (a : N) (sep' s rest cur : jsstring) :
  Forall (fun c => c <> a) s ->
  splitLoop (a :: sep') (s ++ rest) cur O
  = splitLoop (a :: sep') rest (reverse s ++ cur) O.
Proof.
  revert cur. induction s as [|c s IH]; intros cur Hs; [done|].
  inversion Hs as [|? ? Hc Hs']; subst.
  cbn [app splitLoop length take].
  rewrite bool_decide_eq_false_2 by congruence.
  rewrite IH by done. by rewrite reverse_cons, <- app_assoc.
Qed.

Lemma splitLoop_at_sep (rest cur : jsstring) :
  splitLoop (str " > ") (str " > " ++ rest) cur O
  = reverse cur :: splitLoop (str " > ") rest [] O.
Proof.
  change (str " > ") with [32%N; 62%N; 32%N].
  cbn [app splitLoop length take Nat.sub].
  by rewrite bool_decide_eq_true_2.
Qed.

Lemma split_join (segments : list jsstring) :
  segments <> [] ->
  Forall (Forall (fun c => c <> SPACE)) segments ->
  split (str " > ") (join (str " > ") segments) = segments.
Proof.
  unfold split. induction segments as [|p rest IH]; [done|]. intros _ Hall.
  inversion Hall as [|? ? Hp Hrest]; subst.
  destruct rest as [|q rest'].
  - cbn [join]. rewrite <- (app_nil_r p) at 1.
    change (str " > ") with (32%N :: [62%N; 32%N]).
    rewrite splitLoop_nosep by done. cbn [splitLoop].
    by rewrite app_nil_r, reverse_involutive.
  - change (join (str " > ") (p :: q :: rest'))
      with (p ++ str " > " ++ join (str " > ") (q :: rest')).
    change (str " > ") with (32%N :: [62%N; 32%N]) at 1.
    rewrite splitLoop_nosep by done.
    change (32%N :: [62%N; 32%N]) with (str " > ").
    rewrite splitLoop_at_sep, app_nil_r, reverse_involutive.
    f_equal. by apply IH.
Qed.

(** *** The descent along the path written *)

Lemma descend_path (path : list (Node * Z * Z)) :
  forall (node : Node) (atRoot : bool) (cur pos : Z),
    leadsTo node (cur + (if atRoot then 0 else 1)) pos path ->
    (forall v, v ∈ allNodes node (cur + (if atRoot then 0 else 1)) ->
               tagNameOk (fst v) = true) ->
    descend matchSegment_spec (segmentsOf path) node atRoot cur
    = ([], Some (targetOf node cur path)).
Proof.
  induction path as [|[[n i] p] rest IH]; intros node atRoot cur pos Hl Hok;
    [done|].
  destruct rest as [|[[n' i'] p'] rest']; [done|].
  cbn [leadsTo] in Hl. destruct Hl as (-> & Hi & Hp & Hc & Ht & Hin & Hrest).
  pose proof (ResolveFacts.child_Some _ _ _ Hc) as [Hi0 Hlook].
  destruct (ResolveFacts.allNodes_child node (cur + (if atRoot then 0 else 1))
              _ _ Hlook) as [Hself Hbelow].
  unfold sizeBefore in Hp. rewrite <- Hp in Hself, Hbelow.
  destruct (tag_ok n' (Hok _ Hself)) as [Hne Htag].
  change (segmentsOf ((node, i, p) :: (n', i', p') :: rest'))
    with (segment (prosemirrorTypeToTagName (nodeTypeName n') (nodeLevel n')) i
          :: segmentsOf ((n', i', p') :: rest')).
  change (targetOf node cur ((node, i, p) :: (n', i', p') :: rest'))
    with (targetOf n' p ((n', i', p') :: rest')).
  cbn [descend]. rewrite (matchSegment_spec_segment _ i Hne Htag Hi0).
  destruct (parseInt_numberToString (i + 1) ltac:(lia)) as (-> & _ & _).
  cbn [numSub]. replace (i + 1 - 1) with i by lia.
  assert (Hlt : i < childCount node).
  { apply lookup_lt_Some in Hlook. unfold childCount. lia. }
  cbn [numLt numGe].
  rewrite !bool_decide_eq_false_2 by lia. cbn [orb].
  rewrite Hc. rewrite decide_True by done.
  replace (cur + (if atRoot then 0 else 1) + sizeBefore node (Some i)) with p
    by (unfold sizeBefore; lia).
  rewrite (IH n' false p pos); [done | exact Hrest |].
  intros v Hv. by apply Hok, Hbelow.
Qed.

Lemma leadsTo_segments_no_space (path : list (Node * Z * Z)) :
  forall (node : Node) (s pos : Z),
    leadsTo node s pos path ->
    (forall v, v ∈ allNodes node s -> tagNameOk (fst v) = true) ->
    Forall (Forall (fun c => c <> SPACE)) (segmentsOf path).
Proof.
  induction path as [|[[n i] p] rest IH]; intros node s pos Hl Hok;
    [constructor|].
  destruct rest as [|[[n' i'] p'] rest']; [constructor|].
  cbn [leadsTo] in Hl. destruct Hl as (-> & Hi & Hp & Hc & Ht & Hin & Hrest).
  pose proof (ResolveFacts.child_Some _ _ _ Hc) as [Hi0 Hlook].
  destruct (ResolveFacts.allNodes_child node s _ _ Hlook) as [Hself Hbelow].
  unfold sizeBefore in Hp. rewrite <- Hp in Hself, Hbelow.
  destruct (tag_ok n' (Hok _ Hself)) as [Hne Htag].
  change (segmentsOf ((node, i, p) :: (n', i', p') :: rest'))
    with (segment (prosemirrorTypeToTagName (nodeTypeName n') (nodeLevel n')) i
          :: segmentsOf ((n', i', p') :: rest')).
  constructor; [by apply segment_no_space|].
  apply (IH n' (p + 1) pos Hrest). intros v Hv. by apply Hok, Hbelow.
Qed.

(** X12.  The path the repository writes follows the grammar
    [tagName:nth-child(N)], on a document whose node types have names made
    of the characters [a-zA-Z0-9_-].  Split at [" > "] and read with that
    pattern, the descent of [restoreMarkFromNodePath] goes down the path
    without a warning and ends at the node the anchor stands for: a node of
    the document that is no text node, that holds [from] strictly inside
    and whose size is [endOffset].  With that pattern the restoration marks
    exactly the extent of that node. *)
Theorem computed_path_follows_the_grammar :
  forall (doc : Node) (from to : Z) (np : NodePathPosition),
    tagNamesOk doc = true ->
    calculateNodePathForProseMirrorSelection doc from to = Some np ->
    np_path np <> [] ->
    exists (target : Node) (start : Z),
      descend matchSegment_spec (split (str " > ") (np_path np)) doc true 0
      = ([], Some (target, start))
      /\ (target, start) ∈ allNodes doc 0
      /\ isText target = false
      /\ start < from < start + nodeSize target
      /\ np_endOffset np = nodeSize target
      /\ (forall (comment : InlineComment) (markName : jsstring),
            wellFormed doc = true ->
            position comment = Some (positionOf np) ->
            restoreMarkFromNodePathWith matchSegment_spec doc comment markName
            = mkRestored
                (setMarkOver doc start (start + nodeSize target) markName
                   (id comment))
                true []).
Proof.
  intros doc from to np Hok Hnp Hpath.
  destruct (decide (0 <= from <= contentSize doc)) as [Hin|Hout];
    [|by rewrite ResolveFacts.calculate_None in Hnp].
  destruct (ResolveFacts.calculate_spec doc from to Hin) as (path & Hl & Hc).
  rewrite Hc in Hnp. injection Hnp as <-.
  cbn [np_path np_endOffset] in *.
  assert (Hall : forall v, v ∈ allNodes doc 0 -> tagNameOk (fst v) = true).
  { intros v Hv. unfold tagNamesOk in Hok. rewrite forallb_forall in Hok.
    by apply Hok, list_elem_of_In. }
  assert (Hsegs : segmentsOf path <> [])
    by (intros He; apply Hpath; by rewrite He).
  destruct (ResolveFacts.leadsTo_target path doc 0 from 0 Hl)
    as [[He _]|(_ & Ht & Hbounds & Hmem)]; [done|].
  destruct (targetOf doc 0 path) as [target start] eqn:Etarget.
  cbn [fst snd] in *.
  assert (Hdescend :
    descend matchSegment_spec
      (split (str " > ") (join (str " > ") (segmentsOf path))) doc true 0
    = ([], Some (target, start))).
  { rewrite split_join;
      [|done | by apply (leadsTo_segments_no_space path doc 0 from)].
    rewrite (descend_path path doc true 0 from); [by rewrite Etarget | |].
    - by replace (0 + 0) with 0 by lia.
    - by replace (0 + 0) with 0 by lia. }
  exists target, start.
  split; [done|]. split; [done|]. split; [done|]. split; [done|]. split; [done|].
  intros comment markName Hwf Hpos.
  unfold restoreMarkFromNodePathWith. rewrite Hpos.
  cbn [positionOf Comment.path np_path].
  destruct (join (str " > ") (segmentsOf path)) as [|c s] eqn:Ej; [done|].
  rewrite Hdescend.
  pose proof (TreeFacts.allNodes_bounds doc Hwf 0 _ Hmem) as Hb.
  cbn [fst snd] in Hb.
  by rewrite !bool_decide_eq_false_2 by lia.
Qed.

Lemma computed_path_follows_the_grammar_witness :
  exists (target : Node) (start : Z),
    descend matchSegment_spec (split (str " > ") (str "p:nth-child(2)"))
      twoParagraphs true 0
    = ([], Some (target, start))
    /\ start < 6 < start + nodeSize target.
Proof.
  destruct (computed_path_follows_the_grammar twoParagraphs 6 7
              (mkNodePath (str "p:nth-child(2)") 0 4 (str "cd"))
              eq_refl eq_refl ltac:(discriminate))
    as (target & start & H1 & _ & _ & H4 & _).
  by exists target, start.
Defined.

End PathGrammarFacts.

(** ** More on loading and saving the comments *)

Module PersistenceFacts.
Import Storage Comment Persistence LoadedSpec StorageSamples.

(** *** The loader that validates *)

Lemma optionalField_undefinedOr (position : Json) (key : jsstring) (t : JsType) :
  optionalField position key t = true ->
  undefinedOr t (getProp position key) = true.
Proof.
  unfold optionalField, hasProp, undefinedOr.
  by destruct (getProp position key).
Qed.

Lemma valid_wellTyped (record : Json) :
  validCommentData record = true -> wellTyped (buildComment record) = true.
Proof.
  unfold validCommentData. intros H.
  repeat match type of H with
         | _ && _ = true => apply andb_true_iff in H as [H ?]
         end.
  unfold wellTyped, buildComment.
  cbn [loaded_id loaded_author loaded_text loaded_createdAt loaded_position].
  repeat (apply andb_true_iff; split); try done.
  unfold hasProp in *.
  destruct (getProp record (str "position")) as [position|] eqn:Hp; [|done].
  destruct (truthy (Some position)); [|done].
  match goal with
  | Hpos : negb _ || _ = true |- _ => cbn [negb orb] in Hpos; rename Hpos into Hv
  end.
  repeat match type of Hv with
         | _ && _ = true => apply andb_true_iff in Hv as [Hv ?]
         end.
  unfold wellTypedPosition.
  cbn [loaded_from loaded_to loaded_textFragment loaded_path loaded_startOffset
       loaded_endOffset].
  repeat (apply andb_true_iff; split); by apply optionalField_undefinedOr.
Qed.

(** X13.  The loader that validates hands back well-typed comments only:
    whatever the storage holds, every comment it returns has strings for
    [id], [author] and [text], a string or a number for [createdAt], and a
    position whose fields, where present, are of their declared types.  From
    an array it returns the records that pass the validation, each built
    from its record, in the order of the array and no others; from anything
    else it returns the empty list. *)
Theorem loadCommentsFromStorage_well_typed :
  forall stored : Stored,
    forallb wellTyped (loadCommentsFromStorage stored) = true
    /\ (forall records,
          stored = Parsed (JArray records) ->
          loadCommentsFromStorage stored
          = buildComment <$> filter (fun r => validCommentData r = true) records)
    /\ ((forall records, stored <> Parsed (JArray records)) ->
        loadCommentsFromStorage stored = []).
Proof.
  intros stored. split; [|split].
  - destruct stored as [| |[| | | |records|]]; try done.
    rewrite StorageFacts.loadCommentsFromStorage_keeps_valid.
    apply forallb_forall. intros c Hc.
    apply list_elem_of_In, list_elem_of_fmap in Hc as (r & -> & Hr).
    apply list_elem_of_filter in Hr as [Hr _]. by apply valid_wellTyped.
  - intros records ->. apply StorageFacts.loadCommentsFromStorage_keeps_valid.
  - intros Hne. destruct stored as [| |[| | | |records|]]; try done.
    by destruct (Hne records).
Qed.

(** *** The loader that does not validate *)

Lemma mapUnchecked_null (records : list Json) :
  JNull ∈ records -> mapUnchecked records = inl tt.
Proof.
  induction records as [|r records IH]; [by inversion 1|].
  intros [<-|Hin]%elem_of_cons; [done|].
  cbn [mapUnchecked]. destruct (loadUnchecked r) as [[]|c]; [done|].
  by rewrite (IH Hin).
Qed.

Lemma mapUnchecked_objects (records : list Json) :
  JNull ∉ records ->
  mapUnchecked records
  = inr ((fun r => if isType TObject (Some r) then Some (buildComment r) else None)
         <$> records).
Proof.
  induction records as [|r records IH]; [done|].
  intros [Hr Hrest]%not_elem_of_cons.
  cbn [mapUnchecked fmap list_fmap]. rewrite (IH Hrest). fold (@fmap list _).
  unfold loadUnchecked. destruct (isType TObject (Some r)); [|done].
  by destruct r.
Qed.

Lemma omap_id_fmap {A B} (p : A -> bool) (f : A -> B) (l : list A) :
  omap (fun c => c) ((fun r => if p r then Some (f r) else None) <$> l)
  = f <$> filter (fun r => p r = true) l.
Proof.
  induction l as [|x l IH]; [done|].
  rewrite fmap_cons, filter_cons. destruct (p x) eqn:Hp.
  - rewrite decide_True by done. rewrite fmap_cons, <- IH. done.
  - rewrite decide_False by done. rewrite <- IH. done.
Qed.

Lemma valid_object (r : Json) :
  validCommentData r = true -> isType TObject (Some r) = true /\ r <> JNull.
Proof.
  unfold validCommentData. intros H.
  repeat match type of H with
         | _ && _ = true => apply andb_true_iff in H as [H ?]
         end.
  split; [done|]. by destruct r.
Qed.

(** X14.  The loader that does not validate, on an array: one [null] among
    the records loses the whole batch; without a [null] it returns a comment
    for every record that is an object or an array, whatever its fields, and
    passes over the others.  The two loaders agree on every batch whose
    records all pass the validation. *)
Theorem unchecked_loader_on_arrays :
  forall records : list Json,
    (JNull ∈ records ->
     loadCommentsFromStorage_unchecked (Parsed (JArray records)) = [])
    /\ (JNull ∉ records ->
        loadCommentsFromStorage_unchecked (Parsed (JArray records))
        = buildComment
          <$> filter (fun r => isType TObject (Some r) = true) records)
    /\ (forallb validCommentData records = true ->
        loadCommentsFromStorage_unchecked (Parsed (JArray records))
        = loadCommentsFromStorage (Parsed (JArray records))
        /\ loadCommentsFromStorage (Parsed (JArray records))
           = buildComment <$> records).
Proof.
  intros records.
  assert (Hobj : JNull ∉ records ->
            loadCommentsFromStorage_unchecked (Parsed (JArray records))
            = buildComment
              <$> filter (fun r => isType TObject (Some r) = true) records).
  { intros Hn. cbn [loadCommentsFromStorage_unchecked].
    rewrite (mapUnchecked_objects records Hn). apply omap_id_fmap. }
  split; [|split; [done|]].
  - intros Hn. cbn [loadCommentsFromStorage_unchecked].
    by rewrite (mapUnchecked_null records Hn).
  - intros Hall. rewrite forallb_forall in Hall.
    assert (Hn : JNull ∉ records).
    { intros Hin. apply list_elem_of_In, Hall in Hin. done. }
    rewrite (Hobj Hn), StorageFacts.loadCommentsFromStorage_keeps_valid.
    rewrite !TakeoverFacts.filter_all; [done | |].
    + intros r Hr. by apply Hall, list_elem_of_In.
    + intros r Hr. by apply valid_object, Hall, list_elem_of_In.
Qed.

(** *** Saving, then loading *)

Section SaveLoad.

Variable toISOString : Date -> option jsstring.

Lemma build_saved (c : InlineComment) :
  buildComment (commentJson toISOString c) = loadedOf toISOString c.
Proof.
  destruct c as [i a t d r ty [[tf f to pa so eo]|] rs]; [|by destruct rs].
  destruct tf, f, to, pa, so, eo; reflexivity.
Qed.

Lemma valid_saved (c : InlineComment) :
  validCommentData (commentJson toISOString c)
  = match toISOString (createdAt c) with Some _ => true | None => false end.
Proof.
  destruct c as [i a t d r ty [[tf f to pa so eo]|] rs];
    unfold validCommentData, commentJson, dateJson; cbn [createdAt];
    destruct (toISOString d); try reflexivity.
  - destruct tf, f, to, pa, so, eo; reflexivity.
  - destruct rs; reflexivity.
Qed.

Lemma saved_not_null (comments : list InlineComment) :
  JNull ∉ commentJson toISOString <$> comments.
Proof. intros Hin. by apply list_elem_of_fmap in Hin as (c & Hc & _). Qed.

Lemma load_saved (comments : list InlineComment) :
  map buildComment
    (filter (fun r => validCommentData r = true)
       (map (commentJson toISOString) comments))
  = map (loadedOf toISOString)
      (filter (fun c => is_Some (toISOString (createdAt c))) comments).
Proof.
  induction comments as [|c l IH]; [done|].
  cbn [map]. rewrite !filter_cons, valid_saved.
  destruct (toISOString (createdAt c)) as [s|] eqn:Hd.
  - rewrite decide_True by done. rewrite decide_True by (by eexists).
    cbn [map]. by rewrite IH, build_saved.
  - rewrite decide_False by done.
    by rewrite decide_False by (by intros [? ?]).
Qed.

Lemma load_saved_unchecked (comments : list InlineComment) :
  map buildComment
    (filter (fun r => isType TObject (Some r) = true)
       (map (commentJson toISOString) comments))
  = map (loadedOf toISOString) comments.
Proof.
  induction comments as [|c l IH]; [done|].
  cbn [map]. rewrite filter_cons, decide_True by done.
  cbn [map]. by rewrite IH, build_saved.
Qed.

(** X15.  Saving the comments and loading them again.  Saving touches the
    one key: a list that is not empty is written under it, the empty list
    removes it.  The loader that validates then returns, in their order,
    the comments whose date is valid, each with the [id], [author], [text]
    and position fields it had and with its date as the ISO string; a
    comment whose date is invalid is written with a [null] date and is not
    returned.  The loader that does not validate returns every comment.
    Neither returns [resolved], [type] or [replies], so the NodePath editor,
    which keeps the loaded comments of type ['nodePath'], starts with
    none. *)
Theorem save_then_load :
  forall (key : jsstring) (comments : list InlineComment)
         (storage : LocalStorage),
    let storage' := saveCommentsToStorage toISOString key comments storage in
    (forall k, k <> key -> getItem storage' k = getItem storage k)
    /\ (comments = [] -> storage' !! key = None)
    /\ loadCommentsFromStorage (getItem storage' key)
       = loadedOf toISOString
         <$> filter (fun c => is_Some (toISOString (createdAt c))) comments
    /\ loadCommentsFromStorage_unchecked (getItem storage' key)
       = loadedOf toISOString <$> comments
    /\ initialNodePathComments (loadCommentsFromStorage (getItem storage' key))
       = []
    /\ initialNodePathComments
         (loadCommentsFromStorage_unchecked (getItem storage' key)) = [].
Proof.
  intros key comments storage. cbn zeta.
  assert (Hinit : forall l, initialNodePathComments l = []).
  { intros l. unfold initialNodePathComments. induction l as [|c l IH]; [done|].
    by rewrite filter_cons, decide_False. }
  assert (Hget : getItem (saveCommentsToStorage toISOString key comments storage) key
                 = match comments with
                   | [] => Absent
                   | _ => Parsed (JArray (commentJson toISOString <$> comments))
                   end).
  { unfold getItem. destruct comments as [|c0 cs].
    - change (saveCommentsToStorage toISOString key [] storage)
        with (delete key storage). by rewrite lookup_delete_eq.
    - change (saveCommentsToStorage toISOString key (c0 :: cs) storage)
        with (<[key := Parsed (JArray (commentJson toISOString <$> c0 :: cs))]>
                storage).
      by rewrite lookup_insert_eq. }
  split; [|split; [|split; [|split; [|split; apply Hinit]]]].
  - intros k Hk. unfold getItem. destruct comments as [|c0 cs].
    + change (saveCommentsToStorage toISOString key [] storage)
        with (delete key storage). by rewrite lookup_delete_ne.
    + change (saveCommentsToStorage toISOString key (c0 :: cs) storage)
        with (<[key := Parsed (JArray (commentJson toISOString <$> c0 :: cs))]>
                storage).
      by rewrite lookup_insert_ne.
  - intros ->. apply lookup_delete_eq.
  - rewrite Hget.
    assert (Hload : loadCommentsFromStorage
                      (Parsed (JArray (commentJson toISOString <$> comments)))
                    = loadedOf toISOString
                      <$> filter (fun c => is_Some (toISOString (createdAt c)))
                            comments).
    { etrans; [apply StorageFacts.loadCommentsFromStorage_keeps_valid|].
      apply load_saved. }
    destruct comments as [|c0 cs]; [done | exact Hload].
  - rewrite Hget.
    assert (Hload : loadCommentsFromStorage_unchecked
                      (Parsed (JArray (commentJson toISOString <$> comments)))
                    = loadedOf toISOString <$> comments).
    { cbn [loadCommentsFromStorage_unchecked].
      rewrite (mapUnchecked_objects _ (saved_not_null comments)).
      etrans; [apply omap_id_fmap | apply load_saved_unchecked]. }
    destruct comments as [|c0 cs]; [done | exact Hload].
Qed.

End SaveLoad.

End PersistenceFacts.

(** ** The NodePath editor: restoring and deleting *)

Module NodePathEditorFacts.
Import ProseMirror Comment Transform TiptapUtils SyncSpec DocSpec
  TiptapNodePath NodePathCalc NodePathSpec NodePathEditor OffsetEditor
  EditorSpec Samples EditorSamples.

Lemma COMMENT_MARK_NAME_eq : COMMENT_MARK_NAME = CommentMark_name.
Proof. reflexivity. Qed.







Lemma wholeFold_wellFormed (s : Z) (whole : list InlineComment) (doc : Node) :
  wellFormed doc = true ->
  wellFormed (foldl (fun d c => addMark 0 s (commentMark (id c)) d) doc whole)
  = true.
Proof.
  revert doc. induction whole as [|c cs IH]; intros doc Hwf; [done|].
  cbn [foldl]. apply IH. by apply TreeFacts.stepDoc_wellFormed.
Qed.






(** *** Adding a comment *)




(** *** Deleting all comments *)

Lemma removeAllMarks_cells (doc : Node) :
  wellFormed doc = true ->
  cells (fst (NodePathEditor.handleDeleteAllComments doc []))
  = map otherMarks (cells doc).
Proof.
  intros Hwf. unfold NodePathEditor.handleDeleteAllComments. cbn [fst].
  unfold removeMark. rewrite TreeFacts.stepDoc_cells.
  apply map_ext_in. intros c Hc%list_elem_of_In.
  pose proof (OffsetFacts.cells_bounds doc c Hwf Hc) as Hb.
  rewrite COMMENT_MARK_NAME_eq, OffsetFacts.stepMarks_remove.
  unfold otherMarks. by rewrite decide_True by lia.
Qed.

(** X17.  [handleDeleteAllComments] of the NodePath editor empties the list
    and leaves no comment mark on any text of the document; the texts, their
    positions and their other marks stay, and the restore effect that runs
    next finds the document as the handler left it. *)
Theorem nodepath_delete_all_comments :
  forall (doc : Node) (comments : list InlineComment),
    wellFormed doc = true ->
    let doc' := fst (NodePathEditor.handleDeleteAllComments doc comments) in
    let comments' := snd (NodePathEditor.handleDeleteAllComments doc comments) in
    comments' = []
    /\ clean doc' = true
    /\ cells doc' = map otherMarks (cells doc)
    /\ (forall f t sep, textBetween doc' f t sep = textBetween doc f t sep)
    /\ restoreEffect doc' comments' = doc'.
Proof.
  intros doc comments Hwf. cbn zeta.
  change (fst (NodePathEditor.handleDeleteAllComments doc comments))
    with (fst (NodePathEditor.handleDeleteAllComments doc [])).
  split; [done|]. split; [|split; [by apply removeAllMarks_cells|split]].
  - unfold clean. rewrite removeAllMarks_cells by done.
    apply forallb_forall. intros c (c0 & <- & _)%in_map_iff.
    apply bool_decide_eq_true_2. unfold otherMarks. cbn [snd].
    apply DeleteAllFacts.removeFromSet_commentMarks.
  - intros f t sep. by apply TreeFacts.stepDoc_textBetween.
  - done.
Qed.

Lemma nodepath_delete_all_comments_witness :
  cells (fst (NodePathEditor.handleDeleteAllComments firstMarked [wholeComment]))
  = map otherMarks (cells firstMarked).
Proof.
  by destruct (nodepath_delete_all_comments firstMarked [wholeComment] eq_refl)
    as (_ & _ & H & _).
Defined.

End NodePathEditorFacts.

(** ** The typing plugin *)

Module TypingFacts.
Import ProseMirror PreserveSpaces PreserveSpacesPaste PasteSpec
  PreserveSpacesTyping TypingSpec DocSpec Samples.

(** *** Fragments: [cut], [append] and the step into a child *)

Lemma wf_size (c : Node) (cs : list Node) :
  wellFormedFragment cs = true -> c ∈ cs -> 1 <= nodeSize c.
Proof.
  unfold wellFormedFragment. rewrite forallb_forall. intros H Hc.
  apply TreeFacts.nodeSize_pos, H. by apply list_elem_of_In.
Qed.

Lemma wf_empty (cs : list Node) :
  wellFormedFragment cs = true -> fragmentSize cs <= 0 -> cs = [].
Proof.
  destruct cs as [|c r]; [done|]. intros Hwf Hs. exfalso.
  apply TreeFacts.wellFormedFragment_cons in Hwf as [Hc Hr].
  pose proof (TreeFacts.nodeSize_pos c Hc).
  pose proof (TreeFacts.fragmentSize_nonneg r Hr).
  rewrite TreeFacts.fragmentSize_cons in Hs. lia.
Qed.

Lemma cutLoop_all (from to : Z) (cs : list Node) (pos : Z) :
  wellFormedFragment cs = true ->
  from <= pos -> to = pos + fragmentSize cs ->
  cutLoop cutNode from to cs pos = cs.
Proof.
  revert pos. induction cs as [|c r IH]; intros pos Hwf Hfrom Hto; [done|].
  apply TreeFacts.wellFormedFragment_cons in Hwf as [Hc Hr].
  pose proof (TreeFacts.nodeSize_pos c Hc).
  pose proof (TreeFacts.fragmentSize_nonneg r Hr).
  rewrite TreeFacts.fragmentSize_cons in Hto.
  cbn [cutLoop]. rewrite decide_True by lia. cbn zeta.
  rewrite decide_True by lia. rewrite decide_False by lia.
  cbn [app]. f_equal. apply IH; [done | lia | lia].
Qed.

Lemma cutLoop_suffix (from to : Z) (pre rest : list Node) (pos : Z) :
  wellFormedFragment pre = true -> wellFormedFragment rest = true ->
  from = pos + fragmentSize pre -> to = from + fragmentSize rest ->
  cutLoop cutNode from to (pre ++ rest) pos = rest.
Proof.
  revert pos. induction pre as [|c r IH]; intros pos Hpre Hrest Hfrom Hto.
  - cbn [app]. apply cutLoop_all; [done | |].
    + rewrite Hfrom. unfold fragmentSize. cbn. lia.
    + rewrite Hto, Hfrom. unfold fragmentSize. cbn. lia.
  - apply TreeFacts.wellFormedFragment_cons in Hpre as [Hc Hr].
    pose proof (TreeFacts.nodeSize_pos c Hc).
    pose proof (TreeFacts.fragmentSize_nonneg r Hr).
    pose proof (TreeFacts.fragmentSize_nonneg rest Hrest).
    rewrite TreeFacts.fragmentSize_cons in Hfrom.
    rewrite <- app_comm_cons. cbn [cutLoop].
    destruct (decide (pos < to)) as [Hlt|Hge].
    + cbn zeta. rewrite decide_False by lia. cbn [app].
      apply IH; [done | done | lia | lia].
    + assert (fragmentSize rest <= 0) as Hz by lia.
      by rewrite (wf_empty rest Hrest Hz).
Qed.

Lemma cutLoop_prefix (to : Z) (pre rest : list Node) (pos : Z) :
  wellFormedFragment pre = true ->
  0 <= pos -> to = pos + fragmentSize pre ->
  cutLoop cutNode 0 to (pre ++ rest) pos = pre.
Proof.
  revert pos. induction pre as [|c r IH]; intros pos Hpre Hpos Hto.
  - cbn [app]. destruct rest as [|c r]; [done|]. cbn [cutLoop].
    rewrite decide_False; [done|]. rewrite Hto. unfold fragmentSize. cbn. lia.
  - apply TreeFacts.wellFormedFragment_cons in Hpre as [Hc Hr].
    pose proof (TreeFacts.nodeSize_pos c Hc).
    pose proof (TreeFacts.fragmentSize_nonneg r Hr).
    rewrite TreeFacts.fragmentSize_cons in Hto.
    rewrite <- app_comm_cons. cbn [cutLoop].
    rewrite decide_True by lia. cbn zeta.
    rewrite decide_True by lia. rewrite decide_False by lia.
    cbn [app]. f_equal. apply IH; [done | lia | lia].
Qed.

(** The content before a boundary between two children. *)
Lemma cut_prefix (pre rest : list Node) :
  wellFormedFragment pre = true -> wellFormedFragment rest = true ->
  cut (pre ++ rest) 0 (fragmentSize pre) = pre.
Proof.
  intros Hpre Hrest. unfold cut.
  pose proof (TreeFacts.fragmentSize_nonneg pre Hpre).
  pose proof (TreeFacts.fragmentSize_nonneg rest Hrest).
  rewrite TreeFacts.fragmentSize_app.
  destruct (decide (0 = 0 /\ fragmentSize pre = fragmentSize pre + fragmentSize rest))
    as [[_ He]|Hne].
  - rewrite (wf_empty rest Hrest) by lia. by rewrite app_nil_r.
  - destruct (decide (fragmentSize pre > 0)) as [Hp|Hp].
    + apply cutLoop_prefix; [done | lia | lia].
    + by rewrite (wf_empty pre Hpre) by lia.
Qed.

(** The content after a boundary between two children. *)
Lemma cut_suffix (pre rest : list Node) :
  wellFormedFragment pre = true -> wellFormedFragment rest = true ->
  0 < fragmentSize pre ->
  cut (pre ++ rest) (fragmentSize pre) (fragmentSize (pre ++ rest)) = rest.
Proof.
  intros Hpre Hrest Hp. unfold cut.
  pose proof (TreeFacts.fragmentSize_nonneg rest Hrest).
  rewrite TreeFacts.fragmentSize_app.
  rewrite decide_False by lia.
  destruct (decide (fragmentSize pre + fragmentSize rest > fragmentSize pre))
    as [Hr|Hr].
  - apply cutLoop_suffix; [done | done | lia | lia].
  - by rewrite (wf_empty rest Hrest) by lia.
Qed.

Lemma enterLoop_boundary {A} (visit : nat -> Node -> Z -> A) (x : Z)
    (pre rest : list Node) (index : nat) (pos : Z) :
  wellFormedFragment pre = true -> wellFormedFragment rest = true ->
  x = pos + fragmentSize pre ->
  enterLoop visit x (pre ++ rest) index pos = None.
Proof.
  revert index pos. induction pre as [|c r IH]; intros index pos Hpre Hrest Hx.
  - cbn [app]. destruct rest as [|c r]; [done|].
    apply TreeFacts.wellFormedFragment_cons in Hrest as [Hc Hr].
    pose proof (TreeFacts.nodeSize_pos c Hc).
    assert (x = pos) as -> by (rewrite Hx; unfold fragmentSize; cbn; lia).
    cbn [enterLoop]. rewrite decide_True by lia.
    by rewrite bool_decide_eq_false_2 by lia.
  - apply TreeFacts.wellFormedFragment_cons in Hpre as [Hc Hr].
    pose proof (TreeFacts.fragmentSize_nonneg r Hr).
    rewrite TreeFacts.fragmentSize_cons in Hx.
    rewrite <- app_comm_cons. cbn [enterLoop]. rewrite decide_False by lia.
    apply IH; [done | done | lia].
Qed.

Lemma enterLoop_inside {A} (visit : nat -> Node -> Z -> A) (x : Z)
    (pre : list Node) (c : Node) (post : list Node) (index : nat) (pos : Z) :
  wellFormedFragment pre = true -> isText c = false ->
  pos + fragmentSize pre < x < pos + fragmentSize pre + nodeSize c ->
  enterLoop visit x (pre ++ c :: post) index pos
  = Some (visit (index + length pre)%nat c (pos + fragmentSize pre)).
Proof.
  revert index pos. induction pre as [|c0 r IH]; intros index pos Hpre Hc Hx.
  - cbn [app length]. change (fragmentSize []) with 0 in *.
    cbn [enterLoop]. rewrite decide_True by lia.
    rewrite bool_decide_eq_true_2 by lia. rewrite Hc. cbn [negb andb].
    f_equal. f_equal; [lia | lia].
  - apply TreeFacts.wellFormedFragment_cons in Hpre as [Hc0 Hr].
    pose proof (TreeFacts.fragmentSize_nonneg r Hr).
    rewrite TreeFacts.fragmentSize_cons in *.
    rewrite <- app_comm_cons. cbn [enterLoop length].
    rewrite decide_False by lia.
    rewrite IH by (done || lia). f_equal. f_equal; lia.
Qed.

(** Neighbours with different marks are not joined. *)
Lemma neighbours_middle (pre : list Node) (t : jsstring) (marks : list Mark)
    (post : list Node) :
  noEqualNeighbours (pre ++ Text t marks :: post) = true ->
  (forall t0 marks0, last pre = Some (Text t0 marks0) -> marks0 <> marks)
  /\ (forall t1 marks1 rest, post = Text t1 marks1 :: rest -> marks <> marks1).
Proof.
  induction pre as [|c r IH]; intros Hn.
  - split; [done|]. intros t1 marks1 rest ->. cbn in Hn.
    apply andb_true_iff in Hn as [Hn _]. apply negb_true_iff in Hn.
    by apply bool_decide_eq_false in Hn.
  - rewrite <- app_comm_cons in Hn.
    pose proof (PasteFacts.noEqualNeighbours_tail _ _ Hn) as Hr.
    destruct (IH Hr) as [IH1 IH2]. split; [|done].
    intros t0 marks0 Hlast. destruct r as [|c' r'].
    + cbn in Hlast. injection Hlast as ->. cbn in Hn.
      apply andb_true_iff in Hn as [Hn _]. apply negb_true_iff in Hn.
      by apply bool_decide_eq_false in Hn.
    + apply (IH1 t0). exact Hlast.
Qed.

Lemma append_apart (this other : list Node) :
  wellFormedFragment this = true -> wellFormedFragment other = true ->
  (forall t marks t' marks' rest,
      last this = Some (Text t marks) -> other = Text t' marks' :: rest ->
      marks <> marks') ->
  append this other = this ++ other.
Proof.
  intros Hthis Hother Hne. unfold append.
  pose proof (TreeFacts.fragmentSize_nonneg this Hthis).
  pose proof (TreeFacts.fragmentSize_nonneg other Hother).
  destruct (decide (fragmentSize other = 0)) as [Ho|Ho].
  { rewrite (wf_empty other Hother) by lia. by rewrite app_nil_r. }
  destruct (decide (fragmentSize this = 0)) as [Ht|Ht].
  { by rewrite (wf_empty this Hthis) by lia. }
  destruct (last this) as [[t marks|k|k cs]|] eqn:Hl; try done.
  destruct other as [|[t' marks'|k|k cs] rest]; try done.
  rewrite decide_False; [done|]. by apply (Hne t marks t' marks' rest).
Qed.

(** The flat case of a replacement: a text of the fragment gives way to
    another with the same marks. *)
Lemma replace_text_flat k (pre post : list Node) (t t' : jsstring)
    (marks : list Mark) :
  wellFormedFragment (pre ++ Text t marks :: post) = true ->
  noEqualNeighbours (pre ++ Text t marks :: post) = true ->
  nonEmpty t' = true ->
  replaceOuter (Elem k (pre ++ Text t marks :: post)) (fragmentSize pre)
    (fragmentSize pre + Z.of_nat (length t)) [Text t' marks]
  = Some (Elem k (pre ++ Text t' marks :: post)).
Proof.
  intros Hwf Hn Ht'.
  apply TreeFacts.wellFormedFragment_app in Hwf as [Hpre Hrest].
  pose proof Hrest as Hrest'.
  apply TreeFacts.wellFormedFragment_cons in Hrest' as [Ht Hpost].
  pose proof (TreeFacts.nodeSize_pos _ Ht) as Hsize. cbn [nodeSize] in Hsize.
  pose proof (TreeFacts.fragmentSize_nonneg pre Hpre).
  pose proof (TreeFacts.fragmentSize_nonneg post Hpost).
  assert (wellFormedFragment (pre ++ [Text t marks]) = true) as Hpre'.
  { apply TreeFacts.wellFormedFragment_app. split; [done|].
    apply TreeFacts.wellFormedFragment_cons. by split. }
  assert (fragmentSize (pre ++ [Text t marks])
          = fragmentSize pre + Z.of_nat (length t)) as Hsz.
  { rewrite TreeFacts.fragmentSize_app, TreeFacts.fragmentSize_cons.
    cbn [nodeSize]. change (fragmentSize []) with 0. lia. }
  assert (wellFormedFragment [Text t' marks] = true) as Hnew.
  { apply TreeFacts.wellFormedFragment_cons. by split. }
  cbn [replaceOuter].
  rewrite (enterLoop_boundary _ _ pre (Text t marks :: post)) by (done || lia).
  replace (pre ++ Text t marks :: post) with ((pre ++ [Text t marks]) ++ post)
    by (by rewrite <- app_assoc).
  rewrite (enterLoop_boundary _ _ (pre ++ [Text t marks]) post)
    by (done || lia).
  rewrite TreeFacts.fragmentSize_app, Hsz. rewrite decide_True by lia.
  do 2 f_equal.
  replace (fragmentSize pre + Z.of_nat (length t) + fragmentSize post)
    with (fragmentSize ((pre ++ [Text t marks]) ++ post))
    by (rewrite TreeFacts.fragmentSize_app; lia).
  rewrite <- Hsz at 1. rewrite cut_suffix by (done || lia).
  rewrite <- app_assoc. rewrite cut_prefix by done.
  destruct (neighbours_middle pre t marks post Hn) as [Hleft Hright].
  rewrite (append_apart pre [Text t' marks]); [|done|done|].
  - rewrite append_apart.
    + by rewrite <- app_assoc.
    + apply TreeFacts.wellFormedFragment_app. by split.
    + done.
    + intros t0 marks0 t1 marks1 rest Hlast ->. rewrite last_snoc in Hlast.
      injection Hlast as <- <-. by apply (Hright t1 marks1 rest).
  - intros t0 marks0 t1 marks1 rest Hlast [= <- <- <-].
    by apply (Hleft t0).
Qed.

(** The replacement inside a child. *)
Lemma replace_in_child k (pre post : list Node) kc (cs : list Node)
    (from to : Z) (sliceContent : list Node) :
  wellFormedFragment pre = true ->
  0 <= from -> from <= to -> to <= fragmentSize cs ->
  replaceOuter (Elem k (pre ++ Elem kc cs :: post))
    (fragmentSize pre + 1 + from) (fragmentSize pre + 1 + to) sliceContent
  = inner ← replaceOuter (Elem kc cs) from to sliceContent;
    Some (Elem k (pre ++ inner :: post)).
Proof.
  intros Hpre Hfrom Hle Hto.
  pose proof (TreeFacts.fragmentSize_nonneg pre Hpre).
  change (replaceOuter (Elem k (pre ++ Elem kc cs :: post))
            (fragmentSize pre + 1 + from) (fragmentSize pre + 1 + to)
            sliceContent)
    with (match enterLoop
                  (fun index child pos =>
                     (index, pos + nodeSize child,
                      replaceOuter child (fragmentSize pre + 1 + from - pos - 1)
                        (fragmentSize pre + 1 + to - pos - 1) sliceContent))
                  (fragmentSize pre + 1 + from) (pre ++ Elem kc cs :: post)
                  0%nat 0 with
          | Some (index, e, inner) =>
              if decide (fragmentSize pre + 1 + to < e)
              then inner' ← inner;
                   Some (Elem k (<[index := inner']> (pre ++ Elem kc cs :: post)))
              else None
          | None =>
              match enterLoop (fun _ _ _ => tt) (fragmentSize pre + 1 + to)
                      (pre ++ Elem kc cs :: post) 0%nat 0 with
              | Some _ => None
              | None =>
                  if decide (0 <= fragmentSize pre + 1 + from
                             /\ fragmentSize pre + 1 + to
                                <= fragmentSize (pre ++ Elem kc cs :: post))
                  then Some (Elem k (append
                                       (append
                                          (cut (pre ++ Elem kc cs :: post) 0
                                             (fragmentSize pre + 1 + from))
                                          sliceContent)
                                       (cut (pre ++ Elem kc cs :: post)
                                          (fragmentSize pre + 1 + to)
                                          (fragmentSize
                                             (pre ++ Elem kc cs :: post)))))
                  else None
              end
          end).
  rewrite enterLoop_inside; [|done|done|].
  2:{ rewrite TreeFacts.nodeSize_Elem. lia. }
  rewrite TreeFacts.nodeSize_Elem. rewrite decide_True by lia.
  replace (fragmentSize pre + 1 + from - (0 + fragmentSize pre) - 1)
    with from by lia.
  replace (fragmentSize pre + 1 + to - (0 + fragmentSize pre) - 1)
    with to by lia.
  destruct (replaceOuter (Elem kc cs) from to sliceContent) as [inner|]; [|done].
  cbn [mbind option_bind]. do 2 f_equal.
  rewrite insert_app_r_alt by (cbn; lia).
  by replace (0 + length pre - length pre)%nat with 0%nat by lia.
Qed.

(** *** Texts replaced at given positions *)

Lemma placedLoop_app (f : Node -> Z -> Node) (pre post : list Node) (p : Z) :
  placedLoop f (pre ++ post) p
  = placedLoop f pre p ++ placedLoop f post (p + fragmentSize pre).
Proof.
  revert p. induction pre as [|c r IH]; intros p.
  - cbn [app placedLoop]. change (fragmentSize []) with 0. by rewrite Z.add_0_r.
  - rewrite <- app_comm_cons. cbn [placedLoop]. rewrite IH.
    rewrite TreeFacts.fragmentSize_cons. cbn [app]. do 3 f_equal. lia.
Qed.

Lemma textsAt_Elem l g k (cs : list Node) (p : Z) :
  textsAt l g (Elem k cs) p = Elem k (placedLoop (textsAt l g) cs (p + 1)).
Proof. reflexivity. Qed.

Lemma allNodes_split (cs : list Node) (s : Z) (v : Node * Z) :
  v ∈ allNodesFragment cs s ->
  exists pre c post,
    cs = pre ++ c :: post
    /\ (v = (c, s + fragmentSize pre)
        \/ v ∈ allNodes c (s + fragmentSize pre + 1)).
Proof.
  revert s. induction cs as [|c r IH]; intros s Hv; [by inversion Hv|].
  rewrite TreeFacts.allNodesFragment_cons in Hv.
  apply elem_of_cons in Hv as [->|Hv].
  - exists [], c, r. split; [done|]. left. change (fragmentSize []) with 0.
    by rewrite Z.add_0_r.
  - apply elem_of_app in Hv as [Hv|Hv].
    + exists [], c, r. split; [done|]. right. change (fragmentSize []) with 0.
      by rewrite Z.add_0_r.
    + destruct (IH _ Hv) as (pre & c' & post & -> & Hc').
      exists (c :: pre), c', post. split; [done|].
      rewrite TreeFacts.fragmentSize_cons.
      by replace (s + (nodeSize c + fragmentSize pre))
        with (s + nodeSize c + fragmentSize pre) by lia.
Qed.

Section TextsAt.

Variable g : jsstring -> jsstring.
Hypothesis g_length : forall t, length (g t) = length t.

Lemma g_nonEmpty (t : jsstring) : nonEmpty t = true -> nonEmpty (g t) = true.
Proof.
  intros Ht. pose proof (g_length t) as Hl.
  destruct t; [done|]. by destruct (g (n :: t)).
Qed.

Lemma textsAt_isText l (n : Node) (p : Z) :
  isText (textsAt l g n p) = isText n.
Proof. destruct n as [t ms|k|k cs]; cbn; [|done|done]. by destruct (decide _). Qed.

Lemma textsAt_size l (n : Node) :
  forall p, nodeSize (textsAt l g n p) = nodeSize n.
Proof.
  induction n as [t ms|k|k cs IH] using TreeFacts.Node_ind_nested; intros p.
  - cbn [textsAt]. destruct (decide (p ∈ l)); [|done]. cbn [nodeSize].
    by rewrite g_length.
  - done.
  - rewrite textsAt_Elem, !TreeFacts.nodeSize_Elem. f_equal.
    generalize (p + 1). induction cs as [|c r IHr]; intros q; [done|].
    apply Forall_cons in IH as [IHc IHrest]. cbn [placedLoop].
    by rewrite !TreeFacts.fragmentSize_cons, IHc, (IHr IHrest).
Qed.

Lemma placed_size l (cs : list Node) (p : Z) :
  fragmentSize (placedLoop (textsAt l g) cs p) = fragmentSize cs.
Proof.
  revert p. induction cs as [|c r IH]; intros p; [done|]. cbn [placedLoop].
  by rewrite !TreeFacts.fragmentSize_cons, textsAt_size, IH.
Qed.

Lemma textsAt_wellFormed l (n : Node) :
  forall p, wellFormed n = true -> wellFormed (textsAt l g n p) = true.
Proof.
  induction n as [t ms|k|k cs IH] using TreeFacts.Node_ind_nested; intros p Hwf.
  - cbn [textsAt]. destruct (decide (p ∈ l)); [|done]. cbn [wellFormed].
    by apply g_nonEmpty.
  - done.
  - rewrite textsAt_Elem, TreeFacts.wellFormed_Elem in *.
    revert Hwf. generalize (p + 1).
    induction cs as [|c r IHr]; intros q Hwf; [done|].
    apply Forall_cons in IH as [IHc IHrest].
    apply TreeFacts.wellFormedFragment_cons in Hwf as [Hc Hr].
    cbn [placedLoop]. apply TreeFacts.wellFormedFragment_cons.
    split; [by apply IHc | by apply IHr].
Qed.

Lemma placed_wellFormed l (cs : list Node) (p : Z) :
  wellFormedFragment cs = true ->
  wellFormedFragment (placedLoop (textsAt l g) cs p) = true.
Proof.
  revert p. induction cs as [|c r IH]; intros p Hwf; [done|].
  apply TreeFacts.wellFormedFragment_cons in Hwf as [Hc Hr]. cbn [placedLoop].
  apply TreeFacts.wellFormedFragment_cons.
  split; [by apply textsAt_wellFormed | by apply IH].
Qed.

Lemma placed_neighbours l (cs : list Node) (p : Z) :
  noEqualNeighbours (placedLoop (textsAt l g) cs p) = noEqualNeighbours cs.
Proof.
  revert p. induction cs as [|c r IH]; intros p; [done|].
  cbn [placedLoop]. specialize (IH (p + nodeSize c)).
  destruct r as [|c' r'].
  - cbn [placedLoop]. destruct c as [t ms|k|k cs]; cbn; [|done|done].
    by destruct (decide _).
  - cbn [placedLoop] in *.
    destruct c as [t ms|k|k cs]; [|exact IH|exact IH].
    destruct c' as [t' ms'|k'|k' cs'].
    + cbn [textsAt] in *.
      destruct (decide (p ∈ l)), (decide (p + nodeSize (Text t ms) ∈ l));
        cbn [noEqualNeighbours] in *; by rewrite IH.
    + cbn [textsAt] in *. destruct (decide (p ∈ l)); exact IH.
    + cbn [textsAt] in *. destruct (decide (p ∈ l)); exact IH.
Qed.

(** Positions outside a node do not matter to it. *)
Lemma textsAt_agree l l' (n : Node) :
  forall p, wellFormed n = true ->
    (forall x, p <= x < p + nodeSize n -> x ∈ l <-> x ∈ l') ->
    textsAt l g n p = textsAt l' g n p.
Proof.
  induction n as [t ms|k|k cs IH] using TreeFacts.Node_ind_nested;
    intros p Hwf Hag.
  - pose proof (TreeFacts.nodeSize_pos _ Hwf) as Hs. cbn [textsAt].
    assert (p ∈ l <-> p ∈ l') as Hp by (apply Hag; lia).
    destruct (decide (p ∈ l)), (decide (p ∈ l')); tauto.
  - done.
  - rewrite !textsAt_Elem. f_equal. rewrite TreeFacts.wellFormed_Elem in Hwf.
    rewrite TreeFacts.nodeSize_Elem in Hag.
    assert (forall x, p + 1 <= x < p + 1 + fragmentSize cs -> x ∈ l <-> x ∈ l')
      as Hag' by (intros x Hx; apply Hag; lia).
    clear Hag. revert Hwf Hag'. generalize (p + 1).
    induction cs as [|c r IHr]; intros q Hwf Hag; [done|].
    apply Forall_cons in IH as [IHc IHrest].
    apply TreeFacts.wellFormedFragment_cons in Hwf as [Hc Hr].
    pose proof (TreeFacts.nodeSize_pos c Hc).
    pose proof (TreeFacts.fragmentSize_nonneg r Hr).
    rewrite TreeFacts.fragmentSize_cons in Hag.
    cbn [placedLoop]. f_equal.
    + apply IHc; [done|]. intros x Hx. apply Hag. lia.
    + apply IHr; [done | done |]. intros x Hx. apply Hag. lia.
Qed.

Lemma placed_agree l l' (cs : list Node) (p : Z) :
  wellFormedFragment cs = true ->
  (forall x, p <= x < p + fragmentSize cs -> x ∈ l <-> x ∈ l') ->
  placedLoop (textsAt l g) cs p = placedLoop (textsAt l' g) cs p.
Proof.
  revert p. induction cs as [|c r IH]; intros p Hwf Hag; [done|].
  apply TreeFacts.wellFormedFragment_cons in Hwf as [Hc Hr].
  pose proof (TreeFacts.nodeSize_pos c Hc).
  pose proof (TreeFacts.fragmentSize_nonneg r Hr).
  rewrite TreeFacts.fragmentSize_cons in Hag.
  cbn [placedLoop]. f_equal.
  - apply textsAt_agree; [done|]. intros x Hx. apply Hag. lia.
  - apply IH; [done|]. intros x Hx. apply Hag. lia.
Qed.

Lemma textsAt_nil (n : Node) : forall p, textsAt [] g n p = n.
Proof.
  induction n as [t ms|k|k cs IH] using TreeFacts.Node_ind_nested; intros p.
  - cbn [textsAt]. rewrite decide_False; [done|]. apply not_elem_of_nil.
  - done.
  - rewrite textsAt_Elem. f_equal. generalize (p + 1).
    induction cs as [|c r IHr]; intros q; [done|].
    apply Forall_cons in IH as [IHc IHrest]. cbn [placedLoop].
    by rewrite IHc, (IHr IHrest).
Qed.

(** Where every text that [g] changes starts at one of the positions, all
    texts are replaced. *)
Lemma textsAt_all l (n : Node) :
  forall p,
    (forall t ms, n = Text t ms -> p ∈ l \/ g t = t) ->
    (forall t ms x, (Text t ms, x) ∈ allNodes n (p + 1) -> x ∈ l \/ g t = t) ->
    textsAt l g n p = mapTexts g n.
Proof.
  induction n as [t ms|k|k cs IH] using TreeFacts.Node_ind_nested;
    intros p Hself Hbelow.
  - cbn [textsAt mapTexts]. destruct (decide (p ∈ l)); [done|].
    destruct (Hself t ms eq_refl) as [? | ->]; done.
  - done.
  - rewrite textsAt_Elem, PasteFacts.mapTexts_Elem. f_equal.
    rewrite TreeFacts.allNodes_Elem in Hbelow. clear Hself.
    revert Hbelow. generalize (p + 1).
    induction cs as [|c r IHr]; intros q Hbelow; [done|].
    apply Forall_cons in IH as [IHc IHrest]. cbn [placedLoop map]. f_equal.
    + apply IHc.
      * intros t ms ->. apply (Hbelow t ms q).
        rewrite TreeFacts.allNodesFragment_cons. apply list_elem_of_here.
      * intros t ms x Hx. apply (Hbelow t ms x).
        rewrite TreeFacts.allNodesFragment_cons. apply list_elem_of_further.
        apply elem_of_app. by left.
    + apply IHr; [done|]. intros t ms x Hx. apply (Hbelow t ms x).
      rewrite TreeFacts.allNodesFragment_cons. apply list_elem_of_further.
      apply elem_of_app. by right.
Qed.

(** One step of the plugin: the text at [p] gives way to its replacement,
    whatever was replaced before. *)
Lemma replace_one l (n : Node) :
  forall q p t ms,
    wellFormed n = true -> normalized n = true ->
    (Text t ms, p) ∈ allNodes n (q + 1) ->
    replaceOuter (textsAt l g n q) (p - (q + 1))
      (p - (q + 1) + Z.of_nat (length t)) [Text (g t) ms]
    = Some (textsAt (p :: l) g n q).
Proof.
  induction n as [t0 ms0|k|k cs IH] using TreeFacts.Node_ind_nested;
    intros q p t ms Hwf Hnorm Hin.
  - by inversion Hin.
  - by inversion Hin.
  - rewrite TreeFacts.allNodes_Elem in Hin.
    destruct (allNodes_split cs (q + 1) _ Hin) as (pre & c & post & -> & Hc).
    rewrite TreeFacts.wellFormed_Elem in Hwf.
    rewrite PasteFacts.normalized_Elem in Hnorm.
    apply andb_true_iff in Hnorm as [Hneigh Hnorm].
    pose proof Hwf as Hwf'.
    apply TreeFacts.wellFormedFragment_app in Hwf' as [Hpre Hrest].
    apply TreeFacts.wellFormedFragment_cons in Hrest as [Hcwf Hpost].
    pose proof (TreeFacts.fragmentSize_nonneg pre Hpre) as Hpre0.
    pose proof (TreeFacts.fragmentSize_nonneg post Hpost) as Hpost0.
    pose proof (TreeFacts.nodeSize_pos c Hcwf) as Hc1.
    set (o := q + 1 + fragmentSize pre) in *.
    assert (o <= p /\ p + Z.of_nat (length t) <= o + nodeSize c
            /\ (1 <= Z.of_nat (length t))
            /\ nonEmpty t = true) as (Hp1 & Hp2 & Hp3 & Hne).
    { destruct Hc as [Hc|Hc].
      - injection Hc as <- ->. cbn [nodeSize] in *. cbn [wellFormed] in Hcwf.
        split; [lia|]. split; [lia|]. by split.
      - pose proof (TreeFacts.allNodes_bounds c Hcwf _ _ Hc) as Hb.
        pose proof (TreeFacts.allNodes_wellFormed c Hcwf _ _ Hc) as Hw.
        pose proof (TreeFacts.nodeSize_content c Hcwf).
        pose proof (TreeFacts.nodeSize_pos _ Hw) as Hs.
        cbn [fst snd nodeSize wellFormed] in *.
        split; [lia|]. split; [lia|]. by split. }
    rewrite !textsAt_Elem, !placedLoop_app. cbn [placedLoop].
    fold o.
    assert (placedLoop (textsAt (p :: l) g) pre (q + 1)
            = placedLoop (textsAt l g) pre (q + 1)) as ->.
    { apply placed_agree; [done|]. intros x Hx. rewrite elem_of_cons.
      split; [intros [->|?]; [lia|done] | by right]. }
    assert (placedLoop (textsAt (p :: l) g) post (o + nodeSize c)
            = placedLoop (textsAt l g) post (o + nodeSize c)) as ->.
    { apply placed_agree; [done|]. intros x Hx. rewrite elem_of_cons.
      split; [intros [->|?]; [lia|done] | by right]. }
    set (pre' := placedLoop (textsAt l g) pre (q + 1)).
    set (post' := placedLoop (textsAt l g) post (o + nodeSize c)).
    assert (fragmentSize pre' = fragmentSize pre) as Hsz by apply placed_size.
    assert (wellFormedFragment pre' = true) as Hpre'
      by (by apply placed_wellFormed).
    assert (wellFormedFragment post' = true) as Hpost'
      by (by apply placed_wellFormed).
    destruct Hc as [Hc|Hc].
    + injection Hc as <- Hpo. rewrite Hpo. clear Hin Hp1 Hp2. cbn [textsAt].
      rewrite (decide_True (P := o ∈ o :: l)) by apply list_elem_of_here.
      replace (o - (q + 1)) with (fragmentSize pre') by (unfold o; lia).
      set (tc := if decide (o ∈ l) then g t else t).
      assert ((if decide (o ∈ l) then Text (g t) ms else Text t ms)
              = Text tc ms) as -> by (unfold tc; by destruct (decide _)).
      assert (length tc = length t) as Hlen
        by (unfold tc; destruct (decide _); [apply g_length | done]).
      assert (nonEmpty tc = true) as Htc
        by (unfold tc; destruct (decide _); [by apply g_nonEmpty | done]).
      rewrite <- Hlen. apply replace_text_flat.
      * apply TreeFacts.wellFormedFragment_app. split; [done|].
        apply TreeFacts.wellFormedFragment_cons. by split.
      * pose proof (placed_neighbours l (pre ++ Text t ms :: post) (q + 1)) as Hn.
        rewrite placedLoop_app in Hn. cbn [placedLoop textsAt] in Hn.
        fold o in Hn. fold pre' in Hn.
        change (o + Z.of_nat (length t)) with (o + nodeSize (Text t ms)) in Hn.
        fold post' in Hn. unfold tc. rewrite <- Hneigh, <- Hn.
        by destruct (decide (o ∈ l)).
      * by apply g_nonEmpty.
    + destruct c as [tc msc|kc|kc ccs]; [by inversion Hc | by inversion Hc |].
      apply Forall_app in IH as [_ IH]. apply Forall_cons in IH as [IHc _].
      apply forallb_forall with (x := Elem kc ccs) in Hnorm;
        [|apply in_or_app; right; by left].
      specialize (IHc o p t ms Hcwf Hnorm Hc).
      pose proof (TreeFacts.allNodes_bounds _ Hcwf _ _ Hc) as Hb.
      cbn [fst snd nodeSize] in Hb.
      change (contentSize (Elem kc ccs)) with (fragmentSize ccs) in Hb.
      rewrite textsAt_Elem in IHc |- *.
      replace (p - (q + 1)) with (fragmentSize pre' + 1 + (p - (o + 1)))
        by (unfold o; lia).
      replace (fragmentSize pre' + 1 + (p - (o + 1)) + Z.of_nat (length t))
        with (fragmentSize pre' + 1 + (p - (o + 1) + Z.of_nat (length t)))
        by lia.
      rewrite replace_in_child; [| done | lia | lia |].
      2:{ rewrite placed_size. lia. }
      rewrite IHc. cbn [mbind option_bind]. by rewrite textsAt_Elem.
Qed.

End TextsAt.

(** *** The loop over the changes *)

Lemma changeOf_Some (v : Node * Z) (change : Change) :
  changeOf v = Some change ->
  exists t ms,
    v = (Text t ms, ch_pos change)
    /\ nonEmpty t = true
    /\ replaceConsecutiveSpacesWithNbsp t <> t
    /\ ch_nodeSize change = Z.of_nat (length t)
    /\ ch_newText change = replaceConsecutiveSpacesWithNbsp t
    /\ ch_marks change = ms.
Proof.
  destruct v as [[t ms|k|k cs] p]; [|done|done]. unfold changeOf. cbn [fst snd].
  destruct (nonEmpty t) eqn:Ht; [|done].
  destruct (decide (replaceConsecutiveSpacesWithNbsp t = t)) as [|Hne]; [done|].
  intros [= <-]. by exists t, ms.
Qed.

Lemma changeOf_changed (t : jsstring) (ms : list Mark) (p : Z) :
  nonEmpty t = true -> replaceConsecutiveSpacesWithNbsp t <> t ->
  changeOf (Text t ms, p)
  = Some (mkChange p (Z.of_nat (length t))
            (replaceConsecutiveSpacesWithNbsp t) ms).
Proof.
  intros Ht Hne. unfold changeOf. cbn [fst snd]. rewrite Ht.
  by rewrite decide_False.
Qed.

Lemma applyChanges (doc : Node) (changes : list Change) :
  wellFormed doc = true -> normalized doc = true ->
  (forall change, change ∈ changes ->
     exists v, v ∈ allNodes doc 0 /\ changeOf v = Some change) ->
  forall l,
    foldl applyChange
      (Some (textsAt l replaceConsecutiveSpacesWithNbsp doc (-1))) changes
    = Some (textsAt (reverse (map ch_pos changes) ++ l)
              replaceConsecutiveSpacesWithNbsp doc (-1)).
Proof.
  intros Hwf Hnorm. induction changes as [|change changes IH]; intros Hall l.
  - done.
  - cbn [foldl map]. rewrite reverse_cons, <- app_assoc. cbn [app].
    rewrite <- IH by (intros c Hc; apply Hall; by right). f_equal.
    destruct (Hall change (list_elem_of_here _ _)) as (v & Hv & Hch).
    apply changeOf_Some in Hch as (t & ms & -> & Ht & Hne & Hsize & Hnew & Hms).
    pose proof (replace_one replaceConsecutiveSpacesWithNbsp
                  PasteFacts.length_replace l doc (-1) (ch_pos change) t ms
                  Hwf Hnorm Hv) as Hstep.
    change (-1 + 1) with 0 in Hstep. rewrite Z.sub_0_r in Hstep.
    unfold applyChange. cbn [mbind option_bind]. rewrite Hnew, Hms, Hsize.
    unfold schemaText.
    rewrite (g_nonEmpty _ PasteFacts.length_replace t Ht).
    unfold replaceWith. cbn [mbind option_bind nodeSize].
    rewrite PasteFacts.length_replace.
    rewrite decide_True; [exact Hstep|].
    destruct t as [|c r]; [done|]. cbn [length]. lia.
Qed.

Lemma allTexts_allNodes (p : jsstring -> bool) (n : Node) :
  forall s,
    allTexts p n = true
    <-> (forall t ms, n = Text t ms -> p t = true)
        /\ (forall t ms x, (Text t ms, x) ∈ allNodes n s -> p t = true).
Proof.
  induction n as [t0 ms0|k|k cs IH] using TreeFacts.Node_ind_nested; intros s.
  - cbn [allTexts allNodes]. split.
    + intros Hp. split; [by intros t ms [= <- <-] | by inversion 1].
    + intros [H _]. by apply (H t0 ms0).
  - cbn [allTexts allNodes]. split; [|done]. intros _.
    split; [done | by inversion 1].
  - rewrite PasteFacts.allTexts_Elem, TreeFacts.allNodes_Elem.
    split.
    + intros Hall. split; [done|]. revert s.
      induction cs as [|c r IHr]; intros s t ms x Hin; [by inversion Hin|].
      apply Forall_cons in IH as [IHc IHrest].
      cbn [forallb] in Hall. apply andb_true_iff in Hall as [Hc Hr].
      rewrite TreeFacts.allNodesFragment_cons in Hin.
      apply elem_of_cons in Hin as [Hin|Hin].
      * injection Hin as <- _. exact Hc.
      * apply elem_of_app in Hin as [Hin|Hin].
        -- apply (IHc (s + 1)) in Hc as [_ Hc]. by apply (Hc t ms x).
        -- by apply (IHr IHrest Hr (s + nodeSize c) t ms x).
    + intros [_ Hall]. revert s Hall.
      induction cs as [|c r IHr]; intros s Hall; [done|].
      apply Forall_cons in IH as [IHc IHrest]. cbn [forallb].
      apply andb_true_iff. split.
      * apply (IHc (s + 1)). split.
        -- intros t ms ->. apply (Hall t ms s).
           rewrite TreeFacts.allNodesFragment_cons. apply list_elem_of_here.
        -- intros t ms x Hin. apply (Hall t ms x).
           rewrite TreeFacts.allNodesFragment_cons. apply list_elem_of_further.
           apply elem_of_app. by left.
      * apply (IHr IHrest (s + nodeSize c)). intros t ms x Hin.
        apply (Hall t ms x). rewrite TreeFacts.allNodesFragment_cons.
        apply list_elem_of_further. apply elem_of_app. by right.
Qed.

Lemma fixed_singleSpaced (t : jsstring) :
  replaceConsecutiveSpacesWithNbsp t = t <-> singleSpaced t = true.
Proof.
  destruct (PasteFacts.replace_facts t) as [_ H]. rewrite H.
  unfold singleSpaced. by destruct (hasDoubleSpace t).
Qed.

Lemma changes_nil (doc : Node) :
  wellFormed doc = true -> isText doc = false ->
  omap changeOf (descendants doc) = [] <-> allTexts singleSpaced doc = true.
Proof.
  intros Hwf Hdoc. rewrite TreeFacts.descendants_all by done.
  rewrite (allTexts_allNodes singleSpaced doc 0). split.
  - intros Hnil. split; [by intros t ms ->|]. intros t ms x Hin.
    apply fixed_singleSpaced.
    destruct (decide (replaceConsecutiveSpacesWithNbsp t = t)) as [|Hne]; [done|].
    exfalso.
    pose proof (TreeFacts.allNodes_wellFormed doc Hwf 0 _ Hin) as Ht.
    assert (mkChange x (Z.of_nat (length t))
              (replaceConsecutiveSpacesWithNbsp t) ms
            ∈ omap changeOf (allNodes doc 0)) as Hc.
    { apply list_elem_of_omap. exists (Text t ms, x). split; [done|].
      by apply changeOf_changed. }
    rewrite Hnil in Hc. by apply elem_of_nil in Hc.
  - intros [_ Hall].
    destruct (omap changeOf (allNodes doc 0)) as [|change r] eqn:E; [done|].
    exfalso.
    assert (change ∈ omap changeOf (allNodes doc 0)) as Hc
      by (rewrite E; apply list_elem_of_here).
    apply list_elem_of_omap in Hc as (v & Hv & Hch).
    apply changeOf_Some in Hch as (t & ms & -> & _ & Hne & _).
    apply Hne, fixed_singleSpaced. by apply (Hall t ms (ch_pos change)).
Qed.

Lemma wellFormed_mapTexts (n : Node) :
  wellFormed n = true ->
  wellFormed (mapTexts replaceConsecutiveSpacesWithNbsp n) = true.
Proof.
  induction n as [t ms|k|k cs IH] using TreeFacts.Node_ind_nested; intros Hwf.
  - cbn [mapTexts wellFormed] in *.
    by apply (g_nonEmpty _ PasteFacts.length_replace).
  - done.
  - rewrite PasteFacts.mapTexts_Elem, TreeFacts.wellFormed_Elem in *.
    induction cs as [|c r IHr]; [done|].
    apply Forall_cons in IH as [IHc IHrest].
    apply TreeFacts.wellFormedFragment_cons in Hwf as [Hc Hr]. cbn [map].
    apply TreeFacts.wellFormedFragment_cons. split; [by apply IHc | by apply IHr].
Qed.

Lemma appendTransaction_quiet (transactions : list Transaction) (doc : Node) :
  wellFormed doc = true -> isText doc = false ->
  allTexts singleSpaced doc = true ->
  appendTransaction transactions doc = Some None.
Proof.
  intros Hwf Hdoc Hall. unfold appendTransaction.
  destruct (docChangedTransaction transactions); [|done].
  apply (changes_nil doc Hwf Hdoc) in Hall. cbn zeta. by rewrite Hall.
Qed.

Lemma appendTransaction_changed (transactions : list Transaction) (doc : Node) :
  wellFormed doc = true -> normalized doc = true -> isText doc = false ->
  is_Some (docChangedTransaction transactions) ->
  allTexts singleSpaced doc = false ->
  appendTransaction transactions doc
  = Some (Some (mapTexts replaceConsecutiveSpacesWithNbsp doc)).
Proof.
  intros Hwf Hnorm Hdoc [tr Htr] Hspaced.
  unfold appendTransaction. rewrite Htr. cbn zeta.
  destruct (omap changeOf (descendants doc)) as [|change changes] eqn:E.
  { apply (changes_nil doc Hwf Hdoc) in E. by rewrite E in Hspaced. }
  rewrite <- E. clear change changes E.
  pose proof (applyChanges doc (reverse (omap changeOf (descendants doc)))
                Hwf Hnorm) as Hfold.
  rewrite <- (textsAt_nil replaceConsecutiveSpacesWithNbsp doc (-1)) at 1.
  rewrite Hfold.
  - do 2 f_equal. apply textsAt_all; [by intros t ms -> |].
    intros t ms x Hin. change (-1 + 1) with 0 in Hin.
    destruct (decide (replaceConsecutiveSpacesWithNbsp t = t)) as [|Hne];
      [by right | left].
    rewrite app_nil_r.
    pose proof (TreeFacts.allNodes_wellFormed doc Hwf 0 _ Hin) as Ht.
    apply elem_of_reverse, list_elem_of_In, in_map_iff.
    exists (mkChange x (Z.of_nat (length t))
              (replaceConsecutiveSpacesWithNbsp t) ms).
    split; [done|]. apply list_elem_of_In, elem_of_reverse, list_elem_of_omap.
    exists (Text t ms, x).
    rewrite TreeFacts.descendants_all by done.
    split; [done | by apply changeOf_changed].
  - intros change Hc. apply elem_of_reverse, list_elem_of_omap in Hc.
    by rewrite TreeFacts.descendants_all in Hc.
Qed.

(** The document of a transaction the plugin returns. *)
Lemma appended_document (transactions : list Transaction) (doc doc' : Node) :
  wellFormed doc = true -> normalized doc = true -> isText doc = false ->
  appendTransaction transactions doc = Some (Some doc') ->
  doc' = mapTexts replaceConsecutiveSpacesWithNbsp doc.
Proof.
  intros Hwf Hnorm Hdoc Happ.
  destruct (docChangedTransaction transactions) as [tr|] eqn:Htr.
  - destruct (allTexts singleSpaced doc) eqn:Hs.
    + by rewrite (appendTransaction_quiet _ _ Hwf Hdoc Hs) in Happ.
    + rewrite appendTransaction_changed in Happ by (done || by eexists).
      by injection Happ as <-.
  - unfold appendTransaction in Happ. by rewrite Htr in Happ.
Qed.

(** X18.  The typing plugin.  When no transaction counts as input, or no
    text of the new document holds two plain spaces side by side,
    [appendTransaction] returns [null].  Otherwise its transaction turns
    every text of the document into the text
    [replaceConsecutiveSpacesWithNbsp] gives for it and changes nothing
    else; run on that document again, the plugin returns [null]. *)
Theorem typing_plugin_normalizes_document :
  forall (transactions : list Transaction) (doc : Node),
    wellFormed doc = true -> normalized doc = true -> isText doc = false ->
    (docChangedTransaction transactions = None ->
     appendTransaction transactions doc = Some None)
    /\ (allTexts singleSpaced doc = true ->
        appendTransaction transactions doc = Some None)
    /\ (is_Some (docChangedTransaction transactions) ->
        allTexts singleSpaced doc = false ->
        appendTransaction transactions doc
        = Some (Some (mapTexts replaceConsecutiveSpacesWithNbsp doc)))
    /\ (forall transactions',
          appendTransaction transactions'
            (mapTexts replaceConsecutiveSpacesWithNbsp doc)
          = Some None).
Proof.
  intros transactions doc Hwf Hnorm Hdoc.
  split; [|split; [|split]].
  - intros Hnone. unfold appendTransaction. by rewrite Hnone.
  - by apply appendTransaction_quiet.
  - by apply appendTransaction_changed.
  - intros transactions'. apply appendTransaction_quiet.
    + by apply wellFormed_mapTexts.
    + by destruct doc.
    + apply PasteFacts.allTexts_mapTexts.
Qed.

Lemma typing_plugin_normalizes_document_witness :
  appendTransaction [TypingSamples.typed] TypingSamples.spacedParagraph
  = Some (Some (Elem docKind
                  [Elem paragraph
                     [Text (str "a" ++ [NBSP; NBSP] ++ str "b") []]])).
Proof.
  destruct (typing_plugin_normalizes_document [TypingSamples.typed]
              TypingSamples.spacedParagraph eq_refl eq_refl eq_refl)
    as (_ & _ & H & _).
  rewrite H; [reflexivity | by eexists | reflexivity].
Defined.

End TypingFacts.

(** ** The loader of the ContentSpan editor *)

Module ContentSpanFacts.
Import Storage Comment Persistence LoadedSpec ContentSpanEditor SpanSpec.

Lemma isString_spec (s : jsstring) (value : option Json) :
  isString s value = true <-> value = Some (JString s).
Proof.
  destruct value as [[| | |s'| |]|]; cbn; try (split; [done | by inversion 1]).
  rewrite bool_decide_eq_true. split; [by intros -> | by intros [= ->]].
Qed.

Lemma loaded_span_facts (commentData : Json) (c : LoadedSpanComment) :
  loadSpanComment commentData = Some c ->
  isType TString (span_id c) = true
  /\ (isType TString (span_createdAt c) || isType TNumber (span_createdAt c))
     = true.
Proof.
  unfold loadSpanComment.
  destruct (validSpanData commentData) eqn:Hv; [|done]. intros [= <-].
  unfold validSpanData in Hv. rewrite !andb_true_iff in Hv.
  destruct Hv as [[[[[[[_ _] _] Hid] _] _] _] Hdate]. by split.
Qed.

Section SaveLoad.

Variable toISOString : Date -> option jsstring.

Lemma position_fields (p : Position) :
  mkLoadedPosition
    (getProp (positionJson p) (str "from"))
    (getProp (positionJson p) (str "to"))
    (getProp (positionJson p) (str "textFragment"))
    (getProp (positionJson p) (str "path"))
    (getProp (positionJson p) (str "startOffset"))
    (getProp (positionJson p) (str "endOffset"))
  = loadedPosition p.
Proof.
  destruct p as [tf f to pa so eo]. destruct tf, f, to, pa, so, eo; reflexivity.
Qed.

Lemma load_saved_span (c : InlineComment) :
  loadSpanComment (commentJson toISOString c)
  = match toISOString (createdAt c) with
    | Some _ => Some (spanLoadedOf toISOString c)
    | None => None
    end.
Proof.
  destruct c as [i a t d r ty [p|] rs];
    unfold spanLoadedOf, dateJson;
    cbn [createdAt id author text resolved type position].
  - rewrite <- (position_fields p).
    unfold loadSpanComment, validSpanData, buildSpanComment, commentJson,
      dateJson; cbn [createdAt id author text resolved type position replies].
    destruct (toISOString d), a, t, r, ty, rs; reflexivity.
  - unfold loadSpanComment, validSpanData, buildSpanComment, commentJson,
      dateJson; cbn [createdAt id author text resolved type position replies].
    destruct (toISOString d), a, t, r, ty, rs; reflexivity.
Qed.

Lemma kept_span (c : InlineComment) :
  isString (str "contentSpan") (span_type (spanLoadedOf toISOString c))
  = bool_decide (type c = contentSpan).
Proof. by destruct c as [i a t d r [] p rs]. Qed.

Lemma load_saved_spans (comments : list InlineComment) :
  filter (fun c => isString (str "contentSpan") (span_type c) = true)
    (omap loadSpanComment (map (commentJson toISOString) comments))
  = map (spanLoadedOf toISOString)
      (filter (fun c => type c = contentSpan
                        /\ is_Some (toISOString (createdAt c))) comments).
Proof.
  induction comments as [|c l IH]; [done|].
  cbn [map]. rewrite RestoreFacts.omap_cons_eq, load_saved_span, filter_cons.
  destruct (toISOString (createdAt c)) as [s|] eqn:Hd.
  - rewrite filter_cons, kept_span.
    destruct (decide (type c = contentSpan)) as [Hty|Hty].
    + rewrite decide_True by (by apply bool_decide_eq_true_2).
      rewrite decide_True by (split; [done | by eexists]).
      cbn [map]. by rewrite IH.
    + rewrite decide_False by (by rewrite bool_decide_eq_false_2).
      by rewrite decide_False by (by intros [? _]).
  - by rewrite decide_False by (by intros [_ [? ?]]).
Qed.

(** X19.  Saving and loading in the ContentSpan editor.  The save effect
    writes the list, empty or not, under the one key of the component.  The
    loader then returns, in their order, the saved comments of type
    ['contentSpan'] whose date is valid, and drops the others.  A comment
    comes back with its [id], its date as the ISO string, its [resolved]
    and [type] and the fields of its position; an [author] or [text] that is
    the empty string comes back [undefined], and a comment without position
    gets the position with the empty [textFragment].  Whatever the storage
    holds, a comment the loader returns has a string [id], a string or a
    number to build the date from, and the type ['contentSpan']. *)
Theorem contentspan_save_then_load :
  forall (comments : list InlineComment) (storage : LocalStorage),
    let storage' := saveComments toISOString comments storage in
    (forall k, k <> COMMENTS_LOCAL_STORAGE_KEY_WITH_ID ->
               getItem storage' k = getItem storage k)
    /\ loadComments (getItem storage' COMMENTS_LOCAL_STORAGE_KEY_WITH_ID)
       = spanLoadedOf toISOString
         <$> filter (fun c => type c = contentSpan
                              /\ is_Some (toISOString (createdAt c))) comments
    /\ (forall stored c,
          c ∈ loadComments stored ->
          isType TString (span_id c) = true
          /\ (isType TString (span_createdAt c)
              || isType TNumber (span_createdAt c)) = true
          /\ span_type c = Some (JString (str "contentSpan"))).
Proof.
  intros comments storage. cbn zeta. split; [|split].
  - intros k Hk. unfold getItem, saveComments. by rewrite lookup_insert_ne.
  - unfold getItem, saveComments. rewrite lookup_insert_eq. cbn [default].
    etrans; [|apply load_saved_spans]. reflexivity.
  - intros stored c Hc.
    destruct stored as [| |[| | | |parsedComments|]];
      try (by apply elem_of_nil in Hc).
    cbn [loadComments] in Hc.
    apply list_elem_of_filter in Hc as [Hty Hc].
    apply list_elem_of_omap in Hc as (r & _ & Hr).
    destruct (loaded_span_facts r c Hr) as [Hid Hdate].
    split; [done|]. split; [done|]. by apply isString_spec.
Qed.

End SaveLoad.

End ContentSpanFacts.

(** ** The space normalization and the comments *)

Module SpaceAnchorFacts.
Import ProseMirror Comment Transform TiptapUtils SyncSpec DocSpec PreserveSpaces
  PasteSpec PreserveSpacesTyping TypingSamples.

Lemma textCells_length (p : Z) (t t' : jsstring) (ms : list Mark) :
  length t = length t' -> textCells p t ms = textCells p t' ms.
Proof.
  revert p t'. induction t as [|c r IH]; intros p [|c' r'] Hl; try done.
  cbn [textCells]. f_equal. apply IH. by injection Hl.
Qed.

Section SameLength.

Variable g : jsstring -> jsstring.
Hypothesis g_length : forall t, length (g t) = length t.

Lemma cells_mapTexts_node (n : Node) :
  forall s,
    cellsOf (allNodes (mapTexts g n) s) = cellsOf (allNodes n s).
Proof.
  induction n as [t ms|k|k cs IH] using TreeFacts.Node_ind_nested; intros s.
  - done.
  - done.
  - rewrite PasteFacts.mapTexts_Elem, !TreeFacts.allNodes_Elem. revert s.
    induction cs as [|c r IHr]; intros s; [done|].
    apply Forall_cons in IH as [IHc IHrest]. cbn [map].
    rewrite !TreeFacts.allNodesFragment_cons, !TreeFacts.cellsOf_cons,
      !TreeFacts.cellsOf_app.
    rewrite IHc, (IHr IHrest), (PasteFacts.nodeSize_mapTexts g c g_length).
    f_equal. destruct c as [t ms|kc|kc ccs]; [|done|done].
    cbn [mapTexts]. rewrite !TreeFacts.cellsOfNode_Text.
    symmetry. by apply textCells_length.
Qed.

Lemma cells_mapTexts (doc : Node) : cells (mapTexts g doc) = cells doc.
Proof. apply cells_mapTexts_node. Qed.

End SameLength.

Lemma scan_same_cells (doc doc' : Node) :
  wellFormed doc = true -> wellFormed doc' = true ->
  cells doc' = cells doc ->
  scanCommentMarks doc' = scanCommentMarks doc.
Proof.
  intros Hwf Hwf' Hcells. apply map_eq. intros i.
  destruct (decide (i = [])) as [->|Hi].
  - by rewrite !EditorFacts.scan_empty_id.
  - rewrite !EditorFacts.scan_marked by done.
    unfold markedPositions. by rewrite Hcells.
Qed.

(** The range the synchronizer stores does not depend on the text. *)
Lemma syncComment_range (doc doc' : Node) (m : gmap jsstring (Z * Z))
    (c : InlineComment) :
  id (fst (syncComment doc' m c)) = id (fst (syncComment doc m c))
  /\ position (fst (syncComment doc' m c)) ≫= from
     = position (fst (syncComment doc m c)) ≫= from
  /\ position (fst (syncComment doc' m c)) ≫= to
     = position (fst (syncComment doc m c)) ≫= to.
Proof.
  unfold syncComment. destruct (nonEmpty (id c)); [|done].
  destruct (m !! id c) as [[lo hi]|]; [|done]. cbn [fst snd].
  destruct (isAlreadyOrphaned c) eqn:Ho; [done|]. cbn [orb].
  destruct (position c) as [oldPos|] eqn:Hpos; [|done].
  destruct (bool_decide (Some lo = from oldPos)) eqn:Hf; [|done].
  destruct (bool_decide (Some hi = to oldPos)) eqn:Ht; [|done].
  apply bool_decide_eq_true in Hf, Ht. cbn [negb orb].
  destruct (negb (bool_decide (Some (textBetween doc' lo hi (str " "))
                               = textFragment oldPos)));
    destruct (negb (bool_decide (Some (textBetween doc lo hi (str " "))
                                 = textFragment oldPos)));
    cbn [fst withPosition id position mbind option_bind from to];
    rewrite ?Hpos; cbn [mbind option_bind]; by rewrite <- ?Hf, <- ?Ht.
Qed.

(** X21.  The typing plugin moves no comment.  In the document of a
    transaction [appendTransaction] returns, every code unit of text stands
    at the position it had and carries the marks it had; the marker scan
    gives the same ranges, and the synchronizer gives every comment the
    [id], [from] and [to] it would have given it on the document before,
    so only the stored text of a comment can change. *)
Theorem typing_plugin_keeps_anchors :
  forall (transactions : list Transaction) (doc doc' : Node)
         (comments : list InlineComment),
    wellFormed doc = true -> normalized doc = true -> isText doc = false ->
    appendTransaction transactions doc = Some (Some doc') ->
    cells doc' = cells doc
    /\ scanCommentMarks doc' = scanCommentMarks doc
    /\ Forall2 (fun c c' : InlineComment =>
                  id c' = id c
                  /\ position c' ≫= from = position c ≫= from
                  /\ position c' ≫= to = position c ≫= to)
         (fst (syncCommentPositionsWithEditorState doc comments))
         (fst (syncCommentPositionsWithEditorState doc' comments)).
Proof.
  intros transactions doc doc' comments Hwf Hnorm Hdoc Happ.
  apply (TypingFacts.appended_document _ _ _ Hwf Hnorm Hdoc) in Happ as ->.
  pose proof (cells_mapTexts _ PasteFacts.length_replace doc) as Hcells.
  pose proof (scan_same_cells doc _ Hwf (TypingFacts.wellFormed_mapTexts doc Hwf)
                Hcells) as Hscan.
  split; [done|]. split; [done|].
  rewrite !SyncFacts.sync_fst, Hscan.
  induction comments as [|c l IH]; [constructor|].
  cbn [map]. constructor; [apply syncComment_range | apply IH].
Qed.

Lemma typing_plugin_keeps_anchors_witness :
  exists doc',
    appendTransaction [typed] spacedMarked = Some (Some doc')
    /\ doc' <> spacedMarked
    /\ scanCommentMarks doc' = scanCommentMarks spacedMarked.
Proof.
  eexists. split; [reflexivity|]. split; [by vm_compute|].
  by destruct (typing_plugin_keeps_anchors [typed] spacedMarked _ []
                 eq_refl eq_refl eq_refl eq_refl) as (_ & H & _).
Defined.

End SpaceAnchorFacts.
